(** * yt_parser.py: key rotation, request executor, response cache,
      search pipeline and resumable main loop

    A shallow embedding of [src/yt_parser.py].  Python objects that are
    mutated in place (the [KeyManager], the [CACHE] shelf, the progress
    shelf, the two sinks) live in one explicit [world] record that every
    operation threads through; exceptions are the [Raise] results of a small
    state-and-error monad.  Everything the script obtains from outside the
    process (the YouTube API, [isodate], [langdetect], the clock, the
    iteration order of a Python [set], the outcome of a write to a sink) is
    collected in the [env] record and universally quantified in the
    theorems. *)

From Stdlib Require Import ZArith Lia List String Ascii DecimalString.
From stdpp Require Import base option list gmap strings.

Local Open Scope string_scope.
Local Open Scope Z_scope.

(** ** Python values used by the script *)

(** [needle in hay] on Python strings. *)
Fixpoint contains (needle hay : string) : bool :=
  String.prefix needle hay
  || match hay with
     | EmptyString => false
     | String _ rest => contains needle rest
     end.

(** [sep.join(parts)]. *)
Fixpoint join (sep : string) (parts : list string) : string :=
  match parts with
  | [] => EmptyString
  | [p] => p
  | p :: rest => p +:+ sep +:+ join sep rest
  end.

(** Truthiness of a Python string. *)
Definition truthy (s : string) : bool :=
  match s with EmptyString => false | _ => true end.

(** [d.get(k)] followed by a truthiness test, for a string-valued entry:
    [None] when the entry is missing or the empty string. *)
Definition truthy_opt (o : option string) : option string :=
  match o with
  | Some s => if truthy s then Some s else None
  | None => None
  end.

(** [x or ''] for an optional string. *)
Definition or_empty (o : option string) : string :=
  match truthy_opt o with Some s => s | None => EmptyString end.

(** [str(z)] for an integer. *)
Definition str_of_Z (z : Z) : string := NilZero.string_of_int (Z.to_int z).

(** The format specification [:02d]: sign, then digits zero-padded so that
    the whole field has width at least two. *)
Definition fmt02d (z : Z) : string :=
  let s := str_of_Z z in
  if (String.length s <? 2)%nat then "0" +:+ s else s.

(** The double-quote character, for the fallback iframe markup. *)
Definition dquote : string := String (ascii_of_nat 34) EmptyString.

(** Characters [str.strip()] removes (the ASCII ones). *)
Definition is_space (c : ascii) : bool :=
  let n := nat_of_ascii c in
  ((9 <=? n) && (n <=? 13) || (28 <=? n) && (n <=? 32))%nat.

(** [bool(txt.strip())]: some character is not white space. *)
Fixpoint strip_nonempty (txt : string) : bool :=
  match txt with
  | EmptyString => false
  | String c rest => negb (is_space c) || strip_nonempty rest
  end.

(** ** Exceptions and the state-and-error monad *)

Inductive exn :=
  | QuotaExceededAllKeys
  | HttpError (err_str : string)
  | IndexError
  | KeyError (k : string)
  | TypeError
  | ValueError
  | ZeroDivisionError
  | OtherError (name : string).

(** Result of running a piece of the script: a value, a raised exception,
    or [Timeout] when the fuel of a [while] loop model ran out (shown below
    never to happen with the fuel the top-level definitions supply). *)
Inductive res (A : Type) :=
  | Ret (a : A)
  | Raise (e : exn)
  | Timeout.
Arguments Ret {A} a.
Arguments Raise {A} e.
Arguments Timeout {A}.

(** ** API objects *)

Record search_item := { si_videoId : option string }.

Record search_response := {
  sr_items : list search_item;
  sr_nextPageToken : option string }.

Record snippet := {
  sn_title : option string;
  sn_description : option string;
  sn_liveBroadcastContent : option string;
  sn_channelTitle : option string;
  sn_channelId : option string;
  sn_defaultAudioLanguage : option string;
  sn_defaultLanguage : option string;
  sn_publishedAt : option string }.

(** The empty dict [{}] used as default of [it.get('snippet', {})]. *)
Definition empty_snippet : snippet :=
  {| sn_title := None; sn_description := None; sn_liveBroadcastContent := None;
     sn_channelTitle := None; sn_channelId := None;
     sn_defaultAudioLanguage := None; sn_defaultLanguage := None;
     sn_publishedAt := None |}.

(** A video resource.  [vi_duration] is [contentDetails.duration],
    [vi_license] and [vi_embeddable] are under [status], the counts under
    [statistics], [vi_embedHtml] under [player]; each is [None] when the
    enclosing object or the entry is missing, which is what the chained
    [.get(..., {}).get(...)] of the script observes. *)
Record video_item := {
  vi_id : string;
  vi_snippet : option snippet;
  vi_duration : option string;
  vi_license : option string;
  vi_embeddable : option bool;
  vi_viewCount : option string;
  vi_likeCount : option string;
  vi_dislikeCount : option string;
  vi_embedHtml : option string }.

Record videos_response := { vr_items : list video_item }.

(** [it.get('snippet', {})]. *)
Definition snippet_of (it : video_item) : snippet :=
  default empty_snippet (vi_snippet it).

(** A channel resource: [c['id']] and
    [c['snippet']['thumbnails']['default']['url']]. *)
Record channel_item := { ch_id : string; ch_avatar : option string }.

Record channels_response := { ch_items : list channel_item }.

Inductive response :=
  | SearchResponse (sr : search_response)
  | VideosResponse (vr : videos_response)
  | ChannelsResponse (ch : channels_response).

(** The unexecuted call [fn(api.service)] builds. *)
Inductive request :=
  | SearchList (q regionCode : string) (maxResults : Z) (pageToken : string)
  | VideosList (id part : string)
  | ChannelsList (part id : string).

(** What [fn(api.service).execute()] does. *)
Inductive outcome :=
  | Success (resp : response)
  | HttpFail (err_str : string)
  | SocketFail
  | OtherFail (name : string).

(** One result row (the 20 columns appended at lines 313-320). *)
Record row := {
  r_keyword : string;
  r_input_url : string;
  r_videoId : string;
  r_title : string;
  r_description : string;
  r_language : string;
  r_language_source : string;
  r_video_type : string;
  r_duration : string;
  r_duration_seconds : Z;
  r_age : string;
  r_author : string;
  r_author_avatar : string;
  r_view_count : string;
  r_like_count : string;
  r_dislike_count : string;
  r_embeddable : bool;
  r_license : string;
  r_allowed_on_third_party : bool;
  r_iframe : string }.

(** ** Configuration and environment *)

Record config := {
  NUM_RESULTS : Z;
  REGION : string;
  MAX_PAGES : Z;
  BATCH_SIZE : Z }.

(** What one [df.to_csv] does.  A failed attempt may have opened the file
    ([opened]: in append mode this creates a missing file, in write mode it
    empties the file) and may have written the first [written] lines of
    its text before the exception. *)
Inductive write_outcome :=
  | WriteOk
  | WriteFail (opened : bool) (written : nat).

(** What one [values().append(...).execute()] does: it returns, or raises
    one of [HttpError], [ConnectionResetError], [socket.error], or raises
    an exception of another class, named [name].  When it raises, the
    service may have appended the rows all the same ([landed]). *)
Inductive sheets_outcome :=
  | SheetsOk
  | SheetsCaught (landed : bool)
  | SheetsUncaught (name : string) (landed : bool).

(** What the script reads from outside.  The clock, the language
    detector (which is not seeded) and the iteration order of a set are
    read anew every time, so each is indexed by the number [t] of the
    read; two reads of the same argument may differ. *)
Record env := {
  (** outcome of the [n]-th API call of the process, made with developer
      key [k] for request [rq] *)
  net : nat -> string -> request -> outcome;
  (** [int(isodate.parse_duration(iso).total_seconds())], [None] when it
      raises *)
  duration_seconds : string -> option Z;
  (** [(datetime.now(timezone.utc) - datetime.fromisoformat(...)).days]
      at read [t], [None] when it raises *)
  days_since : nat -> string -> option Z;
  (** [langdetect.detect] at read [t], [None] for [LangDetectException] *)
  detect : nat -> string -> option string;
  (** [list(set(l))] at read [t]: the iteration order of the set built
      from [l] *)
  set_order : nat -> list string -> list string;
  (** the [n]-th [to_csv] of the process *)
  csv_out : nat -> write_outcome;
  (** the [n]-th append to the sheet of the process *)
  sheets_out : nat -> sheets_outcome }.

(** ** Keys *)

Record APIKey := {
  key : string;
  used_units : Z;
  active : bool }.

Record KeyManager := {
  keys : list APIKey;
  index : nat }.

(** [APIKey.__init__] and [KeyManager.__init__]. *)
Definition new_key (k : string) : APIKey :=
  {| key := k; used_units := 0; active := true |}.

Definition new_manager (ks : list string) : KeyManager :=
  {| keys := map new_key ks; index := 0 |}.

(** ** Observable events *)

Inductive store := CacheStore | ProgressStore.

Inductive event :=
  | EvCall (pos : nat) (rq : request)
  | EvRecord (pos : nat) (units : Z)
  | EvDeactivate (pos : nat)
  | EvSleep (delay : Z)
  | EvCacheHit (k : string)
  | EvCacheMiss (k : string)
  | EvKeyword (idx : Z)
  | EvProgress (v : Z)
  | EvCsv (header : bool) (rows : list row) (ok : bool)
  | EvSheets (rows : list row) (ok : bool)
  | EvClose (s : store).

Inductive csv_line := Header | Data (r : row).

(** ** The mutable world *)

Record world := {
  km : KeyManager;
  cache : gmap string response;
  prog : option Z;
  csv : option (list csv_line);
  sheet : list row;
  calls : nat;
  csv_tries : nat;
  sheets_tries : nat;
  (** reads of the clock, the detector and the set order so far *)
  reads : nat;
  trace : list event }.

Definition M (A : Type) : Type := world -> res A * world.

Definition ret {A} (a : A) : M A := fun w => (Ret a, w).
Definition raise {A} (e : exn) : M A := fun w => (Raise e, w).
Definition bind {A B} (m : M A) (k : A -> M B) : M B :=
  fun w => match m w with
           | (Ret a, w') => k a w'
           | (Raise e, w') => (Raise e, w')
           | (Timeout, w') => (Timeout, w')
           end.
Definition lift {A} (r : res A) : M A := fun w => (r, w).

Notation "'let!' x ':=' m 'in' k" := (bind m (fun x => k))
  (at level 10, x name, m at level 100, k at level 200).

Definition with_km (f : KeyManager -> KeyManager) (w : world) : world :=
  {| km := f (km w); cache := cache w; prog := prog w; csv := csv w;
     sheet := sheet w; calls := calls w; csv_tries := csv_tries w;
     sheets_tries := sheets_tries w; reads := reads w; trace := trace w |}.

Definition with_cache (f : gmap string response -> gmap string response)
    (w : world) : world :=
  {| km := km w; cache := f (cache w); prog := prog w; csv := csv w;
     sheet := sheet w; calls := calls w; csv_tries := csv_tries w;
     sheets_tries := sheets_tries w; reads := reads w; trace := trace w |}.

Definition with_prog (v : Z) (w : world) : world :=
  {| km := km w; cache := cache w; prog := Some v; csv := csv w;
     sheet := sheet w; calls := calls w; csv_tries := csv_tries w;
     sheets_tries := sheets_tries w; reads := reads w; trace := trace w |}.

Definition with_csv (c : option (list csv_line)) (w : world) : world :=
  {| km := km w; cache := cache w; prog := prog w; csv := c;
     sheet := sheet w; calls := calls w; csv_tries := S (csv_tries w);
     sheets_tries := sheets_tries w; reads := reads w; trace := trace w |}.

Definition with_sheet (s : list row) (w : world) : world :=
  {| km := km w; cache := cache w; prog := prog w; csv := csv w;
     sheet := s; calls := calls w; csv_tries := csv_tries w;
     sheets_tries := S (sheets_tries w); reads := reads w;
     trace := trace w |}.

Definition next_call (w : world) : world :=
  {| km := km w; cache := cache w; prog := prog w; csv := csv w;
     sheet := sheet w; calls := S (calls w); csv_tries := csv_tries w;
     sheets_tries := sheets_tries w; reads := reads w; trace := trace w |}.

(** [n] more reads of the clock, the detector or the set order. *)
Definition tick (n : nat) (w : world) : world :=
  {| km := km w; cache := cache w; prog := prog w; csv := csv w;
     sheet := sheet w; calls := calls w; csv_tries := csv_tries w;
     sheets_tries := sheets_tries w; reads := (reads w + n)%nat;
     trace := trace w |}.

Definition emit (e : event) (w : world) : world :=
  {| km := km w; cache := cache w; prog := prog w; csv := csv w;
     sheet := sheet w; calls := calls w; csv_tries := csv_tries w;
     sheets_tries := sheets_tries w; reads := reads w;
     trace := (trace w ++ [e])%list |}.

(** ** [KeyManager] *)

(** The [for _ in range(n)] loop of [get_key] with [left] iterations to
    go.  The returned [APIKey] object is identified by its position in
    [self.keys]; the second component is [self.index] afterwards. *)
Fixpoint get_key_scan (ks : list APIKey) (left idx : nat) : res nat * nat :=
  match left with
  | O => (Raise QuotaExceededAllKeys, idx)
  | S left' =>
      match ks !! idx with
      | None => (Raise IndexError, idx)
      | Some api =>
          let idx' := ((idx + 1) mod List.length ks)%nat in
          if active api then (Ret idx, idx') else get_key_scan ks left' idx'
      end
  end.

Definition get_key (m : KeyManager) : res nat * KeyManager :=
  let '(r, idx) := get_key_scan (keys m) (List.length (keys m)) (index m) in
  (r, {| keys := keys m; index := idx |}).

(** [api.active = False] on the object at position [pos]. *)
Definition deactivate (pos : nat) (m : KeyManager) : KeyManager :=
  {| keys := alter (fun a => {| key := key a; used_units := used_units a;
                                active := false |}) pos (keys m);
     index := index m |}.

(** [api.used_units += units]. *)
Definition record (pos : nat) (units : Z) (m : KeyManager) : KeyManager :=
  {| keys := alter (fun a => {| key := key a;
                                used_units := used_units a + units;
                                active := active a |}) pos (keys m);
     index := index m |}.

(** The [units] argument of [execute]: a constant or a callable. *)
Inductive units_spec :=
  | UConst (u : Z)
  | UFun (f : response -> Z).

Definition units_of (u : units_spec) (resp : response) : Z :=
  match u with UConst c => c | UFun f => f resp end.

Definition is_quota_error (err_str : string) : bool :=
  contains "quotaExceeded" err_str || contains "dailyLimitExceeded" err_str.

Definition is_rate_limit_error (err_str : string) : bool :=
  contains "rateLimitExceeded" err_str.

Definition key_at (m : KeyManager) (pos : nat) : string :=
  match keys m !! pos with Some a => key a | None => EmptyString end.

Section Executor.
Context (E : env).

(** The [while True] loop of [execute], [fuel] iterations allowed,
    [attempt] being the local variable of that name. *)
Fixpoint execute_loop (fuel : nat) (fn : request) (units : units_spec)
    (backoff_max attempt : Z) (w : world) : res response * world :=
  match fuel with
  | O => (Timeout, w)
  | S fuel' =>
      match get_key (km w) with
      | (Ret pos, m') =>
          let w1 := with_km (fun _ => m') w in
          let o := net E (calls w1) (key_at m' pos) fn in
          let w2 := emit (EvCall pos fn) (next_call w1) in
          match o with
          | Success resp =>
              let used := units_of units resp in
              (Ret resp, emit (EvRecord pos used) (with_km (record pos used) w2))
          | HttpFail err_str =>
              if is_quota_error err_str then
                execute_loop fuel' fn units backoff_max attempt
                  (emit (EvDeactivate pos) (with_km (deactivate pos) w2))
              else if is_rate_limit_error err_str then
                if attempt <? backoff_max then
                  execute_loop fuel' fn units backoff_max (attempt + 1)
                    (emit (EvSleep (2 ^ attempt)) w2)
                else
                  execute_loop fuel' fn units backoff_max attempt
                    (emit (EvDeactivate pos) (with_km (deactivate pos) w2))
              else (Raise (HttpError err_str), w2)
          | SocketFail =>
              if attempt <? backoff_max then
                execute_loop fuel' fn units backoff_max (attempt + 1)
                  (emit (EvSleep (2 ^ attempt)) w2)
              else
                execute_loop fuel' fn units backoff_max attempt
                  (emit (EvDeactivate pos) (with_km (deactivate pos) w2))
          | OtherFail name => (Raise (OtherError name), w2)
          end
      | (Raise e, m') => (Raise e, with_km (fun _ => m') w)
      | (Timeout, m') => (Timeout, with_km (fun _ => m') w)
      end
  end.

Definition count_active (m : KeyManager) : nat :=
  List.length (filter (fun a => active a = true) (keys m)).

(** Every iteration that continues either deactivates an active key or
    increments [attempt] below [backoff_max], so this many iterations
    are enough (see [execute_loop_total]). *)
Definition execute_fuel (backoff_max : Z) (w : world) : nat :=
  S (count_active (km w) + Z.to_nat backoff_max).

Definition execute (fn : request) (units : units_spec) (backoff_max : Z)
    : M response :=
  fun w => execute_loop (execute_fuel backoff_max w) fn units backoff_max 0 w.

End Executor.

(** ** Utilities (lines 163-185) *)

Section Pipeline.
Context (C : config) (E : env).

Definition iso2hms (iso : string) : res (string * Z) :=
  if truthy iso then
    match duration_seconds E iso with
    | None => Raise (OtherError "ISO8601Error")
    | Some s =>
        let h := s / 3600 in
        let r := s mod 3600 in
        let m := r / 60 in
        let sec := r mod 60 in
        Ret (fmt02d h +:+ ":" +:+ fmt02d m +:+ ":" +:+ fmt02d sec, s)
    end
  else Ret (EmptyString, 0).

(** [t] is the number of the clock read. *)
Definition fmt_age (t : nat) (pub : string) : res string :=
  if truthy pub then
    match days_since E t pub with
    | None => Raise ValueError
    | Some d =>
        let y := d / 365 in
        let rem := d mod 365 in
        let mo := rem / 30 in
        Ret (if y =? 0 then str_of_Z mo +:+ " months"
             else str_of_Z y +:+ " years " +:+ str_of_Z mo +:+ " months")
    end
  else Ret EmptyString.

Definition safe_detect (t : nat) (txt : string) : string :=
  if strip_nonempty txt then
    match detect E t txt with Some l => l | None => EmptyString end
  else EmptyString.

(** ** [search_once] (lines 241-322) *)

Definition VIDEO_PARTS : string :=
  "snippet,contentDetails,status,player,statistics".

(** The three cache-key shapes (lines 245, 266, 281). *)
Definition search_key (keyword region : string) (token : option string)
    : string :=
  "S:" +:+ keyword +:+ ":" +:+ region +:+ ":" +:+ or_empty token.

Definition video_key (vids : list string) : string :=
  "V:" +:+ join "," vids.

Definition channel_key (cids : list string) : string :=
  "C:" +:+ join "," cids.

(** The pattern the script repeats at lines 246-262, 267-277 and
    282-292: replay the cached response, or execute the call and store
    its response. *)
Definition cached_execute (k : string) (fn : request) (units : units_spec)
    : M response :=
  fun w =>
    match cache w !! k with
    | Some r => (Ret r, emit (EvCacheHit k) w)
    | None =>
        match execute E fn units 3 (emit (EvCacheMiss k) w) with
        | (Ret r, w') => (Ret r, with_cache (fun c => <[k := r]> c) w')
        | (Raise e, w') => (Raise e, w')
        | (Timeout, w') => (Timeout, w')
        end
    end.

(** A response of another kind than the one the next lines read makes
    the attribute accesses of the script fail. *)
Definition as_search (r : response) : res search_response :=
  match r with SearchResponse sr => Ret sr | _ => Raise TypeError end.
Definition as_videos (r : response) : res videos_response :=
  match r with VideosResponse vr => Ret vr | _ => Raise TypeError end.
Definition as_channels (r : response) : res channels_response :=
  match r with ChannelsResponse ch => Ret ch | _ => Raise TypeError end.

(** [len(resp.get('items', []))], the units of a video-detail call. *)
Definition items_count (r : response) : Z :=
  match r with
  | SearchResponse sr => Z.of_nat (List.length (sr_items sr))
  | VideosResponse vr => Z.of_nat (List.length (vr_items vr))
  | ChannelsResponse ch => Z.of_nat (List.length (ch_items ch))
  end.

(** Line 263. *)
Definition video_ids (sr : search_response) : list string :=
  omap (fun it => truthy_opt (si_videoId it)) (sr_items sr).

(** The elements of the set comprehension of line 278, in item order;
    [it['snippet']['channelId']] raises when either entry is missing. *)
Fixpoint channel_id_seq (items : list video_item) : res (list string) :=
  match items with
  | [] => Ret []
  | it :: rest =>
      match vi_snippet it with
      | None => Raise (KeyError "snippet")
      | Some sn =>
          match sn_channelId sn with
          | None => Raise (KeyError "channelId")
          | Some c =>
              match channel_id_seq rest with
              | Ret l => Ret (c :: l)
              | Raise e => Raise e
              | Timeout => Timeout
              end
          end
      end
  end.

(** The dict comprehension of line 293; a later item overwrites an
    earlier one with the same id. *)
Fixpoint build_amap (items : list channel_item) (acc : gmap string string)
    : res (gmap string string) :=
  match items with
  | [] => Ret acc
  | c :: rest =>
      match ch_avatar c with
      | None => Raise (KeyError "url")
      | Some u => build_amap rest (<[ch_id c := u]> acc)
      end
  end.

(** Line 296. *)
Definition is_live_or_upcoming (sn : snippet) : bool :=
  match sn_liveBroadcastContent sn with
  | Some t => String.eqb t "live" || String.eqb t "upcoming"
  | None => false
  end.

(** Lines 304-309. *)
Definition language_of (t : nat) (sn : snippet) : string * string :=
  match truthy_opt (sn_defaultAudioLanguage sn) with
  | Some l => ("audio", l)
  | None =>
      match truthy_opt (sn_defaultLanguage sn) with
      | Some l => ("default", l)
      | None =>
          let d := safe_detect t (default EmptyString (sn_title sn) +:+ " "
                                  +:+ default EmptyString (sn_description sn)) in
          ("detect", if truthy d then d else "unknown")
      end
  end.

Definition fallback_iframe (id : string) : string :=
  "<iframe src=" +:+ dquote +:+ "https://www.youtube.com/embed/" +:+ id
  +:+ dquote +:+ " allowfullscreen></iframe>".

(** Lines 298-320 for one item that passed the live filter; the clock
    and the detector are read at [t]. *)
Definition make_row (t : nat) (keyword input_url : string)
    (amap : gmap string string) (it : video_item) : res row :=
  let sn := snippet_of it in
  match iso2hms (default EmptyString (vi_duration it)) with
  | Ret (dur_str, dur_s) =>
      let author := default EmptyString (sn_channelTitle sn) in
      let avatar :=
        default EmptyString (amap !! default EmptyString (sn_channelId sn)) in
      let '(ls, lang) := language_of t sn in
      let lic := default EmptyString (vi_license it) in
      let emb := default false (vi_embeddable it) in
      let allowed := emb && String.eqb lic "creativeCommon" in
      match fmt_age t (default EmptyString (sn_publishedAt sn)) with
      | Ret age =>
          Ret {| r_keyword := keyword; r_input_url := input_url;
                 r_videoId := vi_id it;
                 r_title := default EmptyString (sn_title sn);
                 r_description := default EmptyString (sn_description sn);
                 r_language := lang; r_language_source := ls;
                 r_video_type := if dur_s <? 60 then "short" else "video";
                 r_duration := dur_str; r_duration_seconds := dur_s;
                 r_age := age; r_author := author;
                 r_author_avatar := avatar;
                 r_view_count := default EmptyString (vi_viewCount it);
                 r_like_count := default EmptyString (vi_likeCount it);
                 r_dislike_count := default EmptyString (vi_dislikeCount it);
                 r_embeddable := emb; r_license := lic;
                 r_allowed_on_third_party := allowed;
                 r_iframe := default (fallback_iframe (vi_id it))
                                     (vi_embedHtml it) |}
      | Raise e => Raise e
      | Timeout => Timeout
      end
  | Raise e => Raise e
  | Timeout => Timeout
  end.

(** The [for it in vr.get('items', [])] loop of lines 294-320; the
    first item is handled at read [t], the next at [t + 1], and so on. *)
Fixpoint add_rows (t : nat) (keyword input_url : string)
    (amap : gmap string string) (items : list video_item) (rows : list row)
    : res (list row) :=
  match items with
  | [] => Ret rows
  | it :: rest =>
      if is_live_or_upcoming (snippet_of it) then
        add_rows (S t) keyword input_url amap rest rows
      else
        match make_row t keyword input_url amap it with
        | Ret r => add_rows (S t) keyword input_url amap rest (rows ++ [r])
        | Raise e => Raise e
        | Timeout => Timeout
        end
  end.

(** The items of a page, each with the read at which the row loop
    handles it. *)
Fixpoint timed {A} (t : nat) (items : list A) : list (nat * A) :=
  match items with
  | [] => []
  | it :: rest => (t, it) :: timed (S t) rest
  end.

(** The row loop in the world: one read per item. *)
Definition build_rows (keyword input_url : string)
    (amap : gmap string string) (items : list video_item) (rows : list row)
    : M (list row) :=
  fun w => (add_rows (reads w) keyword input_url amap items rows,
            tick (List.length items) w).

(** [list({...})] of line 278 in the world: one read of the set order. *)
Definition read_order (ids : list string) : M (list string) :=
  fun w => (Ret (set_order E (reads w) ids), tick 1 w).

(** Lines 278-293: the avatar map of one page. *)
Definition avatar_map (vr : videos_response) : M (gmap string string) :=
  let! ids := lift (channel_id_seq (vr_items vr)) in
  let! cids := read_order ids in
  match cids with
  | [] => ret ∅
  | _ :: _ =>
      let! r := cached_execute (channel_key cids)
                  (ChannelsList "snippet" (join "," cids)) (UConst 1) in
      let! ch := lift (as_channels r) in
      lift (build_amap (ch_items ch) ∅)
  end.

(** The [while] loop of [search_once]; [rows], [token] and [page] are
    the local variables of those names.  [page] grows by one in every
    iteration and the loop runs only while [page < MAX_PAGES], so
    [Z.to_nat MAX_PAGES] iterations of fuel are never used up. *)
Fixpoint search_loop (fuel : nat) (keyword input_url : string)
    (rows : list row) (token : option string) (page : Z) : M (list row) :=
  if (Z.of_nat (List.length rows) <? NUM_RESULTS C) && (page <? MAX_PAGES C)
  then
    match fuel with
    | O => lift Timeout
    | S fuel' =>
        let page := page + 1 in
        let sk := search_key keyword (REGION C) token in
        let! r := cached_execute sk
                    (SearchList keyword (REGION C)
                       (Z.min 50 (NUM_RESULTS C - Z.of_nat (List.length rows)))
                       (or_empty token))
                    (UConst 100) in
        let! sr := lift (as_search r) in
        let vids := video_ids sr in
        match vids with
        | [] => ret rows
        | _ :: _ =>
            let! r := cached_execute (video_key vids)
                        (VideosList (join "," vids) VIDEO_PARTS)
                        (UFun items_count) in
            let! vr := lift (as_videos r) in
            let! amap := avatar_map vr in
            let! rows := build_rows keyword input_url amap
                           (vr_items vr) rows in
            let token := truthy_opt (sr_nextPageToken sr) in
            search_loop fuel' keyword input_url rows token page
        end
    end
  else ret rows.

Definition search_once (keyword input_url : string) : M (list row) :=
  search_loop (Z.to_nat (MAX_PAGES C)) keyword input_url [] None 0.

End Pipeline.

(** ** Sinks (lines 188-238) *)

Section Sinks.
Context (E : env).

(** The lines one [to_csv] call of [append_csv_batch] writes. *)
Definition csv_text (header : bool) (rows : list row) : list csv_line :=
  ((if header then [Header] else []) ++ map Data rows)%list.

(** The file after one [to_csv] in append mode that was to write [text]. *)
Definition appended (o : write_outcome) (text : list csv_line)
    (file : option (list csv_line)) : option (list csv_line) :=
  match o with
  | WriteOk => Some (default [] file ++ text)%list
  | WriteFail true written => Some (default [] file ++ take written text)%list
  | WriteFail false _ => file
  end.

(** The retry loop of [append_csv_batch], [left] attempts to go;
    [header] was computed once before the loop.  [except Exception]
    catches whatever [to_csv] raises. *)
Fixpoint append_csv_loop (header : bool) (rows : list row) (left : nat)
    (attempt : Z) (w : world) : bool * world :=
  match left with
  | O => (false, w)
  | S left' =>
      let o := csv_out E (csv_tries w) in
      let w1 := with_csv (appended o (csv_text header rows) (csv w)) w in
      match o with
      | WriteOk => (true, emit (EvCsv header rows true) w1)
      | WriteFail _ _ =>
          append_csv_loop header rows left' (attempt + 1)
            (emit (EvSleep (1 * 2 ^ (attempt - 1)))
               (emit (EvCsv header rows false) w1))
      end
  end.

Definition append_csv_batch (rows : list row) (w : world) : bool * world :=
  let header := match csv w with None => true | Some _ => false end in
  append_csv_loop header rows 3 1 w.

(** The sheet after one append of [rows]. *)
Definition landed_rows (o : sheets_outcome) (rows : list row)
    (s : list row) : list row :=
  match o with
  | SheetsOk | SheetsCaught true | SheetsUncaught _ true => (s ++ rows)%list
  | SheetsCaught false | SheetsUncaught _ false => s
  end.

(** The retry loop of [append_to_sheets_with_retry].  Line 200 catches
    [HttpError], [ConnectionResetError] and [socket.error]; an exception
    of another class leaves the function. *)
Fixpoint append_sheets_loop (rows : list row) (left : nat) (attempt : Z)
    (w : world) : res bool * world :=
  match left with
  | O => (Ret false, w)
  | S left' =>
      let o := sheets_out E (sheets_tries w) in
      let w1 := with_sheet (landed_rows o rows (sheet w)) w in
      match o with
      | SheetsOk => (Ret true, emit (EvSheets rows true) w1)
      | SheetsCaught _ =>
          append_sheets_loop rows left' (attempt + 1)
            (emit (EvSleep (1 * 2 ^ (attempt - 1)))
               (emit (EvSheets rows false) w1))
      | SheetsUncaught name _ =>
          (Raise (OtherError name), emit (EvSheets rows false) w1)
      end
  end.

Definition append_to_sheets_with_retry (rows : list row) (w : world)
    : res bool * world :=
  append_sheets_loop rows 5 1 w.

(** Both deliveries of one batch (lines 354-366 and 378-390), the CSV
    file first; the boolean results are ignored by the script, an
    exception leaving the second delivery is not. *)
Definition flush (batch_res : list row) (w : world) : res unit * world :=
  match append_to_sheets_with_retry batch_res
          (snd (append_csv_batch batch_res w)) with
  | (Ret _, w') => (Ret tt, w')
  | (Raise e, w') => (Raise e, w')
  | (Timeout, w') => (Timeout, w')
  end.

End Sinks.

(** ** The main loop (lines 336-391) *)

(** [l[i]] with Python's negative indices. *)
Definition py_index {A} (l : list A) (i : Z) : option A :=
  if 0 <=? i then l !! Z.to_nat i
  else if 0 <=? i + Z.of_nat (List.length l)
       then l !! Z.to_nat (i + Z.of_nat (List.length l))
       else None.

(** Line 343: [input_urls[idx] if idx < len(input_urls) else '']. *)
Definition input_url_at (input_urls : list string) (idx : Z) : res string :=
  if idx <? Z.of_nat (List.length input_urls)
  then match py_index input_urls idx with
       | Some u => Ret u
       | None => Raise IndexError
       end
  else Ret EmptyString.

(** The module-level variables [all_res] and [batch_res]. *)
Record locals := { all_res : list row; batch_res : list row }.

(** The [finally] block. *)
Definition close_stores (w : world) : world :=
  emit (EvClose CacheStore) (emit (EvClose ProgressStore) w).

Section Main.
Context (C : config) (E : env).
Context (keywords input_urls : list string).

(** The body of the [for idx in range(start, len(keywords))] loop, with
    [todo] iterations to go. *)
Fixpoint main_loop (todo : nat) (start idx : Z) (l : locals) (w : world)
    : res unit * locals * world :=
  match todo with
  | O => (Ret tt, l, w)
  | S todo' =>
      match py_index keywords idx with
      | None => (Raise IndexError, l, w)
      | Some kw =>
          match input_url_at input_urls idx with
          | Ret input_url =>
              match search_once C E kw input_url (emit (EvKeyword idx) w) with
              | (Ret res, w1) =>
                  let l1 := {| all_res := (all_res l ++ res)%list;
                               batch_res := (batch_res l ++ res)%list |} in
                  let w2 := emit (EvProgress (idx + 1)) (with_prog (idx + 1) w1) in
                  if BATCH_SIZE C =? 0 then (Raise ZeroDivisionError, l1, w2)
                  else if (idx + 1 - start) mod BATCH_SIZE C =? 0 then
                    match flush E (batch_res l1) w2 with
                    | (Ret _, w3) =>
                        main_loop todo' start (idx + 1)
                          {| all_res := all_res l1; batch_res := [] |} w3
                    | (Raise e, w3) => (Raise e, l1, w3)
                    | (Timeout, w3) => (Timeout, l1, w3)
                    end
                  else main_loop todo' start (idx + 1) l1 w2
              | (Raise e, w1) => (Raise e, l, w1)
              | (Timeout, w1) => (Timeout, l, w1)
              end
          | Raise e => (Raise e, l, w)
          | Timeout => (Timeout, l, w)
          end
      end
  end.

(** Lines 377-391: deliver what is left in [batch_res]. *)
Definition final_flush (l : locals) (w : world) : res unit * locals * world :=
  match batch_res l with
  | [] => (Ret tt, l, w)
  | _ :: _ =>
      match flush E (batch_res l) w with
      | (Ret _, w') => (Ret tt, l, w')
      | (Raise e, w') => (Raise e, l, w')
      | (Timeout, w') => (Timeout, l, w')
      end
  end.

(** Lines 336-391: read the cursor, run the loop, swallow
    [QuotaExceededAllKeys], close both stores in the [finally] block,
    and, unless another exception is propagating, deliver what is left
    in [batch_res]. *)
Definition main (w : world) : res unit * locals * world :=
  let start := default 0 (prog w) in
  let todo := Z.to_nat (Z.of_nat (List.length keywords) - start) in
  let '(r, l, w1) :=
    main_loop todo start start {| all_res := []; batch_res := [] |} w in
  let w2 := close_stores w1 in
  match r with
  | Ret _ => final_flush l w2
  | Raise QuotaExceededAllKeys => final_flush l w2
  | Raise e => (Raise e, l, w2)
  | Timeout => (Timeout, l, w2)
  end.

End Main.

(** A fresh process: empty shelves, no output file, an empty sheet. *)
Definition fresh_world (ks : list string) : world :=
  {| km := new_manager ks; cache := ∅; prog := None; csv := None;
     sheet := []; calls := 0%nat; csv_tries := 0%nat;
     sheets_tries := 0%nat; reads := 0%nat; trace := [] |}.

(** ** Invariants and sample inputs used in the statements below *)

(** [self.index] is a valid position of [self.keys] (true of
    [new_manager ks] for nonempty [ks] and kept by every method). *)
Definition km_ok (m : KeyManager) : Prop :=
  (index m < List.length (keys m))%nat.

Definition inactive_at (ks : list APIKey) (pos : nat) : Prop :=
  exists a, ks !! pos = Some a /\ active a = false.

Definition active_at (ks : list APIKey) (pos : nat) : Prop :=
  exists a, ks !! pos = Some a /\ active a = true.

(** The delays of the [time.sleep] calls among some events, in order. *)
Definition sleep_of (e : event) : option Z :=
  match e with EvSleep d => Some d | _ => None end.

Definition sleeps (evs : list event) : list Z := omap sleep_of evs.

(** The events one [execute] call can append, as a grammar over the
    loop iterations; the index is the value of [attempt] at the start. *)
Inductive exec_trace (fn : request) (backoff_max : Z)
    : Z -> list event -> Prop :=
  | et_stop attempt :
      exec_trace fn backoff_max attempt []
  | et_return attempt pos used :
      exec_trace fn backoff_max attempt [EvCall pos fn; EvRecord pos used]
  | et_fatal attempt pos :
      exec_trace fn backoff_max attempt [EvCall pos fn]
  | et_backoff attempt pos evs :
      attempt < backoff_max ->
      exec_trace fn backoff_max (attempt + 1) evs ->
      exec_trace fn backoff_max attempt
        (EvCall pos fn :: EvSleep (2 ^ attempt) :: evs)
  | et_deactivate attempt pos evs :
      exec_trace fn backoff_max attempt evs ->
      exec_trace fn backoff_max attempt
        (EvCall pos fn :: EvDeactivate pos :: evs).

(** [w'] is [w] after some more events satisfying [P]. *)
Definition grows (P : list event -> Prop) (w w' : world) : Prop :=
  exists evs, trace w' = (trace w ++ evs)%list /\ P evs.

(** ** The executor as the specification words it

    Section 4.2 of the specification gives the rate-limit policy (step 5)
    and the transient-network policy (step 6) an attempt counter each.
    [spec_execute_loop] is [execute_loop] with that one change; it is
    used only to compare. *)
Fixpoint spec_execute_loop (E : env) (fuel : nat) (fn : request)
    (units : units_spec) (backoff_max rate_attempt net_attempt : Z)
    (w : world) : res response * world :=
  match fuel with
  | O => (Timeout, w)
  | S fuel' =>
      match get_key (km w) with
      | (Ret pos, m') =>
          let w1 := with_km (fun _ => m') w in
          let o := net E (calls w1) (key_at m' pos) fn in
          let w2 := emit (EvCall pos fn) (next_call w1) in
          match o with
          | Success resp =>
              let used := units_of units resp in
              (Ret resp, emit (EvRecord pos used) (with_km (record pos used) w2))
          | HttpFail err_str =>
              if is_quota_error err_str then
                spec_execute_loop E fuel' fn units backoff_max
                  rate_attempt net_attempt
                  (emit (EvDeactivate pos) (with_km (deactivate pos) w2))
              else if is_rate_limit_error err_str then
                if rate_attempt <? backoff_max then
                  spec_execute_loop E fuel' fn units backoff_max
                    (rate_attempt + 1) net_attempt
                    (emit (EvSleep (2 ^ rate_attempt)) w2)
                else
                  spec_execute_loop E fuel' fn units backoff_max
                    rate_attempt net_attempt
                    (emit (EvDeactivate pos) (with_km (deactivate pos) w2))
              else (Raise (HttpError err_str), w2)
          | SocketFail =>
              if net_attempt <? backoff_max then
                spec_execute_loop E fuel' fn units backoff_max
                  rate_attempt (net_attempt + 1)
                  (emit (EvSleep (2 ^ net_attempt)) w2)
              else
                spec_execute_loop E fuel' fn units backoff_max
                  rate_attempt net_attempt
                  (emit (EvDeactivate pos) (with_km (deactivate pos) w2))
          | OtherFail name => (Raise (OtherError name), w2)
          end
      | (Raise e, m') => (Raise e, with_km (fun _ => m') w)
      | (Timeout, m') => (Timeout, with_km (fun _ => m') w)
      end
  end.

Definition spec_execute (E : env) (fn : request) (units : units_spec)
    (backoff_max : Z) : M response :=
  fun w =>
    spec_execute_loop E
      (S (count_active (km w) + 2 * Z.to_nat backoff_max)) fn units
      backoff_max 0 0 w.



(** ** Sample inputs *)

(** An environment around a given network behaviour: two durations are
    understood, every publication date is always 400 days old, every text
    is always detected as English, a set always iterates in
    first-occurrence order and both sinks accept every write. *)
Definition sample_env (n : nat -> string -> request -> outcome) : env :=
  {| net := n;
     duration_seconds := fun iso =>
       if String.eqb iso "PT1M5S" then Some 65
       else if String.eqb iso "PT45S" then Some 45 else None;
     days_since := fun _ _ => Some 400;
     detect := fun _ _ => Some "en";
     set_order := fun _ => remove_dups;
     csv_out := fun _ => WriteOk;
     sheets_out := fun _ => SheetsOk |}.

Definition sample_request : request := ChannelsList "snippet" "UC1".

Definition sample_response : response :=
  ChannelsResponse
    {| ch_items := [ {| ch_id := "UC1"; ch_avatar := Some "http://a/1" |} ] |}.

Definition rate_limit_message : string :=
  "<HttpError 403 rateLimitExceeded>".

(** Every call is throttled. *)
Definition always_rate_limited : nat -> string -> request -> outcome :=
  fun _ _ _ => HttpFail rate_limit_message.

(** Three throttled calls, one connection reset, then success. *)
Definition throttled_then_reset : nat -> string -> request -> outcome :=
  fun n _ _ =>
    if (n <? 3)%nat then HttpFail rate_limit_message
    else if (n =? 3)%nat then SocketFail
    else Success sample_response.

(** Run [search_once] for a list of (keyword, source URL) pairs, keeping
    only the world. *)
Fixpoint search_all (C : config) (E : env) (jobs : list (string * string))
    (w : world) : world :=
  match jobs with
  | [] => w
  | (kw, url) :: rest => search_all C E rest (snd (search_once C E kw url w))
  end.

(** The keys of the cache lookups among some events, in order. *)
Definition lookup_of (e : event) : option string :=
  match e with EvCacheHit k | EvCacheMiss k => Some k | _ => None end.

Definition cache_lookups (evs : list event) : list string := omap lookup_of evs.

Definition sample_snippet (live : option string) : snippet :=
  {| sn_title := Some "title"; sn_description := Some "text";
     sn_liveBroadcastContent := live; sn_channelTitle := Some "chan";
     sn_channelId := Some "UC1"; sn_defaultAudioLanguage := Some "en";
     sn_defaultLanguage := None;
     sn_publishedAt := Some "2024-01-01T00:00:00Z" |}.

Definition sample_video (id : string) (live duration : option string)
    : video_item :=
  {| vi_id := id; vi_snippet := Some (sample_snippet live);
     vi_duration := duration; vi_license := Some "creativeCommon";
     vi_embeddable := Some true; vi_viewCount := Some "10";
     vi_likeCount := Some "2"; vi_dislikeCount := None;
     vi_embedHtml := None |}.

(** An API whose search has one result and no further page. *)
Definition one_page_api : nat -> string -> request -> outcome :=
  fun _ _ rq =>
    match rq with
    | SearchList _ _ _ _ =>
        Success (SearchResponse
                   {| sr_items := [ {| si_videoId := Some "v1" |} ];
                      sr_nextPageToken := None |})
    | VideosList _ _ =>
        Success (VideosResponse
                   {| vr_items := [sample_video "v1" (Some "none") None] |})
    | ChannelsList _ _ => Success sample_response
    end.

Definition sample_config (max_pages : Z) : config :=
  {| NUM_RESULTS := 10; REGION := "US"; MAX_PAGES := max_pages;
     BATCH_SIZE := 50 |}.

(** ** The progress cursor as seen in the trace *)

Inductive cursor_step :=
  | Started (idx : Z)     (** keyword [idx] is taken up *)
  | Advanced (v : Z).     (** [prog['last_index'] = v] *)

Definition cursor_of (e : event) : option cursor_step :=
  match e with
  | EvKeyword idx => Some (Started idx)
  | EvProgress v => Some (Advanced v)
  | _ => None
  end.

Definition cursor_steps (evs : list event) : list cursor_step :=
  omap cursor_of evs.

(** [n] keywords from [idx] on, each taken up and then acknowledged. *)
Fixpoint completed_steps (n : nat) (idx : Z) : list cursor_step :=
  match n with
  | O => []
  | S n' => Started idx :: Advanced (idx + 1) :: completed_steps n' (idx + 1)
  end.

(** What a step says about the cursor value [start] of the run. *)
Definition step_respects (start : Z) (s : cursor_step) : Prop :=
  match s with
  | Started idx => start <= idx
  | Advanced v => start < v
  end.

(** The deliveries attempted among some events. *)
Definition csv_attempt (rows : list row) (e : event) : Prop :=
  exists header ok, e = EvCsv header rows ok.

Definition sheets_attempt (rows : list row) (e : event) : Prop :=
  exists ok, e = EvSheets rows ok.

Definition sink_of (e : event) : option event :=
  match e with
  | EvCsv _ _ _ | EvSheets _ _ => Some e
  | _ => None
  end.

Definition sink_events (evs : list event) : list event := omap sink_of evs.


(** [b] is [a] after a step that neither reads nor moves the cursor. *)
Definition quiet (a b : world) : Prop :=
  prog b = prog a /\ grows (fun evs => cursor_steps evs = []) a b.

(** The first keyword is served; after that every call is answered with
    an exhausted quota. *)
Definition quota_gone_after (served : nat) : nat -> string -> request -> outcome :=
  fun n k rq =>
    if (n <? served)%nat then one_page_api n k rq
    else HttpFail "<HttpError 403 quotaExceeded>".

(** The first keyword is served; after that every call is refused for a
    reason the script does not classify. *)
Definition bad_request_after (served : nat) : nat -> string -> request -> outcome :=
  fun n k rq =>
    if (n <? served)%nat then one_page_api n k rq
    else HttpFail "<HttpError 400 badRequest>".

(** ** Cache keys and the requests they stand for *)

(** The key the script builds next to each request, as a function of the
    request: the query, region and page token of a search, the id string
    of a detail call ([maxResults] and [part] play no role). *)
Definition key_of_request (rq : request) : string :=
  match rq with
  | SearchList q region _ token =>
      "S:" +:+ q +:+ ":" +:+ region +:+ ":" +:+ token
  | VideosList id _ => "V:" +:+ id
  | ChannelsList _ id => "C:" +:+ id
  end.

(** What identifies a request for the cache. *)
Definition request_identity (rq : request) : string * list string :=
  match rq with
  | SearchList q region _ token => ("search", [q; region; token])
  | VideosList id _ => ("videos", [id])
  | ChannelsList _ id => ("channels", [id])
  end.

(** Every call among [evs] is made for the most recent cache miss, whose
    key is the key of the request called; [cur] is the key of the miss
    pending at the start, if any.  No call follows a hit. *)
Fixpoint calls_keyed (cur : option string) (evs : list event) : Prop :=
  match evs with
  | [] => True
  | EvCacheMiss k :: rest => calls_keyed (Some k) rest
  | EvCacheHit _ :: rest => calls_keyed None rest
  | EvCall _ rq :: rest =>
      cur = Some (key_of_request rq) /\ calls_keyed cur rest
  | _ :: rest => calls_keyed cur rest
  end.

Definition keyed (evs : list event) : Prop := forall cur, calls_keyed cur evs.

(** [E] with another iteration order of sets. *)
Definition with_set_order (f : list string -> list string) (E : env) : env :=
  {| net := net E; duration_seconds := duration_seconds E;
     days_since := days_since E; detect := detect E; set_order := fun _ => f;
     csv_out := csv_out E; sheets_out := sheets_out E |}.

Definition sample_channel_video (id channel : string) : video_item :=
  {| vi_id := id;
     vi_snippet := Some
       {| sn_title := Some "title"; sn_description := None;
          sn_liveBroadcastContent := None; sn_channelTitle := None;
          sn_channelId := Some channel; sn_defaultAudioLanguage := Some "en";
          sn_defaultLanguage := None; sn_publishedAt := None |};
     vi_duration := Some "PT45S"; vi_license := None; vi_embeddable := None;
     vi_viewCount := None; vi_likeCount := None; vi_dislikeCount := None;
     vi_embedHtml := None |}.

(** An API whose search finds two videos of two channels. *)
Definition two_channel_api : nat -> string -> request -> outcome :=
  fun _ _ rq =>
    match rq with
    | SearchList _ _ _ _ =>
        Success (SearchResponse
                   {| sr_items := [ {| si_videoId := Some "v1" |};
                                    {| si_videoId := Some "v2" |} ];
                      sr_nextPageToken := None |})
    | VideosList _ _ =>
        Success (VideosResponse
                   {| vr_items := [sample_channel_video "v1" "UC1";
                                   sample_channel_video "v2" "UC2"] |})
    | ChannelsList _ _ =>
        Success (ChannelsResponse
                   {| ch_items := [ {| ch_id := "UC1"; ch_avatar := Some "http://a/1" |};
                                    {| ch_id := "UC2"; ch_avatar := Some "http://a/2" |} ] |})
    end.

(** A pool of three credentials, the first of them exhausted. *)
Definition sample_pool : KeyManager :=
  {| keys := [ {| key := "KEY-A"; used_units := 9000; active := false |};
               new_key "KEY-B"; new_key "KEY-C" ];
     index := 0 |}.

(** ** Quantities of a run *)

(** Line 394: [sum(api.used_units for api in key_manager.keys)]. *)
Definition total_units (m : KeyManager) : Z :=
  foldr Z.add 0 (map used_units (keys m)).

(** The seconds slept among some events. *)
Definition total_sleep (evs : list event) : Z := foldr Z.add 0 (sleeps evs).

(** What a call that ended with [r] is charged. *)
Definition charged (units : units_spec) (r : res response) : Z :=
  match r with Ret resp => units_of units resp | _ => 0 end.

(** The pool after some steps: same credentials in the same order, no
    exhausted credential active again, index still valid. *)
Definition pool_kept (a b : world) : Prop :=
  map key (keys (km b)) = map key (keys (km a))
  /\ (forall q, inactive_at (keys (km a)) q -> inactive_at (keys (km b)) q)
  /\ (km_ok (km a) -> km_ok (km b)).

Arguments total_units : simpl never.
Arguments count_active : simpl never.

(** The units of the [record] calls among some events. *)
Definition record_of (e : event) : option Z :=
  match e with EvRecord _ u => Some u | _ => None end.

Definition recorded (evs : list event) : Z := foldr Z.add 0 (omap record_of evs).

(** [b] is [a] after some events, and the usage the pool holds has grown
    by what those events record. *)
Definition accounted (a b : world) : Prop :=
  exists evs, trace b = (trace a ++ evs)%list
              /\ total_units (km b) = total_units (km a) + recorded evs.

(** No credential of the pool is active. *)
Definition all_inactive (w : world) : Prop :=
  forall a, a ∈ keys (km w) -> active a = false.

(** Every entry of the cache of [a] is an entry of the cache of [b]. *)
Definition cache_le (a b : world) : Prop :=
  forall k r, cache a !! k = Some r -> cache b !! k = Some r.

(** [b] is [a] but for the trace: same pool, same cache, same number of
    network calls made. *)
Definition silent (a b : world) : Prop :=
  calls b = calls a /\ km b = km a /\ cache b = cache a.

(** [b] is [a] after some events with at most [n] cache lookups. *)
Definition looked_up (n : nat) (a b : world) : Prop :=
  exists evs, trace b = (trace a ++ evs)%list
              /\ (List.length (cache_lookups evs) <= n)%nat.

(** ** Writing the whole file (lines 209-222) *)

(** The file after one [to_csv] in write mode that was to write [text]:
    opening the file empties it. *)
Definition overwritten (o : write_outcome) (text : list csv_line)
    (file : option (list csv_line)) : option (list csv_line) :=
  match o with
  | WriteOk => Some text
  | WriteFail true written => Some (take written text)
  | WriteFail false _ => file
  end.

(** The retry loop of [save_csv_with_retry], [left] attempts to go.  The
    script defines the function and never calls it. *)
Fixpoint save_csv_loop (E : env) (rows : list row) (left : nat) (attempt : Z)
    (w : world) : bool * world :=
  match left with
  | O => (false, w)
  | S left' =>
      let o := csv_out E (csv_tries w) in
      let w1 := with_csv (overwritten o (csv_text true rows) (csv w)) w in
      match o with
      | WriteOk => (true, emit (EvCsv true rows true) w1)
      | WriteFail _ _ =>
          save_csv_loop E rows left' (attempt + 1)
            (emit (EvSleep (1 * 2 ^ (attempt - 1)))
               (emit (EvCsv true rows false) w1))
      end
  end.

Definition save_csv_with_retry (E : env) (rows : list row) (w : world)
    : bool * world :=
  save_csv_loop E rows 3 1 w.

(** ** Vocabulary of the delivery properties *)

(** The pauses of [j] failed attempts in a row, the first of them being
    attempt number [attempt]. *)
Definition delays (attempt : Z) (j : nat) : list Z :=
  map (fun i => 1 * 2 ^ (attempt - 1 + Z.of_nat i)) (seq 0 j).

(** The file after the [to_csv] calls number [n], ..., [n + m - 1] of
    the process, each in append mode and each to write [text]. *)
Fixpoint csv_attempts (E : env) (text : list csv_line) (n m : nat)
    (file : option (list csv_line)) : option (list csv_line) :=
  match m with
  | O => file
  | S m' => csv_attempts E text (S n) m' (appended (csv_out E n) text file)
  end.

(** The same in write mode. *)
Fixpoint save_attempts (E : env) (text : list csv_line) (n m : nat)
    (file : option (list csv_line)) : option (list csv_line) :=
  match m with
  | O => file
  | S m' => save_attempts E text (S n) m' (overwritten (csv_out E n) text file)
  end.

(** The sheet after the appends number [n], ..., [n + m - 1] of the
    process, each of [rows]. *)
Fixpoint sheet_attempts (E : env) (rows : list row) (n m : nat)
    (s : list row) : list row :=
  match m with
  | O => s
  | S m' => sheet_attempts E rows (S n) m' (landed_rows (sheets_out E n) rows s)
  end.

(** A [to_csv] that succeeds or fails before it has opened the file. *)
Definition clean_write (o : write_outcome) : Prop :=
  match o with WriteFail true _ => False | _ => True end.

(** An append that succeeds, or fails with a caught exception and
    without the rows having reached the sheet. *)
Definition clean_append (o : sheets_outcome) : Prop :=
  o = SheetsOk \/ o = SheetsCaught false.

(** An append that raises an exception line 200 does not catch. *)
Definition uncaught (o : sheets_outcome) : option string :=
  match o with SheetsUncaught name _ => Some name | _ => None end.

(** [E] with other behaviours of the two sinks. *)
Definition with_sinks (c : nat -> write_outcome) (s : nat -> sheets_outcome)
    (E : env) : env :=
  {| net := net E; duration_seconds := duration_seconds E;
     days_since := days_since E; detect := detect E; set_order := set_order E;
     csv_out := c; sheets_out := s |}.

(** The output file after [rows] have been appended in one or several
    batches to the file [c]: the header first when the file did not
    exist. *)
Definition file_after (c : option (list csv_line)) (rows : list row)
    : list csv_line :=
  (default [] c ++ (match c with None => [Header] | Some _ => [] end)
   ++ map Data rows)%list.

(** The sinks as a run of [main] leaves them when it started with the
    sinks of [w] and delivered [rows]. *)
Definition delivered (w : world) (rows : list row) (w' : world) : Prop :=
  sheet w' = (sheet w ++ rows)%list
  /\ (csv w' = Some (file_after (csv w) rows)
      \/ (rows = [] /\ csv w' = csv w)).

(** [b] has the sinks of [a]. *)
Definition same_sinks (a b : world) : Prop :=
  sheet b = sheet a /\ csv b = csv a.

(** ** Vocabulary of the request properties *)

(** What the API accepts of a request of [search_once]: a page size from
    1 to 50 for [search.list], a non-empty id list and the five parts for
    [videos.list], the snippet part for [channels.list]. *)
Definition well_formed_request (C : config) (fn : request) : Prop :=
  match fn with
  | SearchList q regionCode maxResults pageToken =>
      regionCode = REGION C
      /\ 1 <= maxResults <= 50 /\ maxResults <= NUM_RESULTS C
  | VideosList id part => id <> EmptyString /\ part = VIDEO_PARTS
  | ChannelsList part id => part = "snippet"
  end.

(** The request of an event, if the event is a call. *)
Definition call_of (e : event) : option request :=
  match e with EvCall _ fn => Some fn | _ => None end.

(** [b] is [a] after some events, and every call among them sent a
    request satisfying [P]. *)
Definition issued (P : request -> Prop) (a b : world) : Prop :=
  exists evs, trace b = (trace a ++ evs)%list /\ Forall P (omap call_of evs).

(** ** Vocabulary of the replay property *)

(** The clock, the detector and the set order answer read [t'] of [E']
    as they answer read [t] of [E]. *)
Definition same_answers (E E' : env) (t t' : nat) : Prop :=
  (forall x, days_since E' t' x = days_since E t x)
  /\ (forall x, detect E' t' x = detect E t x)
  /\ (forall l, set_order E' t' l = set_order E t l).

(** A run in [E'] from [w'] reads what the run in [E] from [w] to [w1]
    has read: the same durations, and read by read the same answers. *)
Definition replays (E : env) (w w1 : world) (E' : env) (w' : world) : Prop :=
  (forall x, duration_seconds E' x = duration_seconds E x)
  /\ forall i, (reads w + i < reads w1)%nat ->
       same_answers E E' (reads w + i) (reads w' + i).

(** ** Vocabulary of the row properties *)

(** The avatar map [search_once] built for the page [vr], read off the
    cache [c]: the channel ids of the items in the order the set gave at
    read [t]; no lookup and an empty map when there is none, else one
    lookup, of the key of those ids, and the map of the channels found
    under it. *)
Definition avatars_from (E : env) (c : gmap string response) (t : nat)
    (vr : videos_response) (lookups : list string)
    (amap : gmap string string) : Prop :=
  exists ids,
    channel_id_seq (vr_items vr) = Ret ids
    /\ match set_order E t ids with
       | [] => lookups = [] /\ amap = ∅
       | cids =>
           exists ch,
             lookups = [channel_key cids]
             /\ c !! channel_key cids = Some (ChannelsResponse ch)
             /\ build_amap (ch_items ch) ∅ = Ret amap
       end.

(** What one call of [search_once] did, read off the cache [c] it left:
    from page token [token], page count [page], [n] rows and read [t] on,
    the cache keys it looked up, the video pages it fetched and the rows
    it appended.  It stops exactly when the rows or the pages have reached
    their limit, or the search response names no video.  A page is the
    search response under the key of the token; if that names videos,
    their details under the key of their ids, the avatar map and one row
    for every item that is not live or upcoming, in item order; then the
    next page, under the token of the search response. *)
Inductive page_run (C : config) (E : env) (c : gmap string response)
    (keyword input_url : string)
    : option string -> Z -> nat -> nat -> list string
      -> list videos_response -> list row -> Prop :=
  | pr_stop token page n t :
      (Z.of_nat n <? NUM_RESULTS C) && (page <? MAX_PAGES C) = false ->
      page_run C E c keyword input_url token page n t [] [] []
  | pr_empty token page n t sr :
      (Z.of_nat n <? NUM_RESULTS C) && (page <? MAX_PAGES C) = true ->
      c !! search_key keyword (REGION C) token = Some (SearchResponse sr) ->
      video_ids sr = [] ->
      page_run C E c keyword input_url token page n t
        [search_key keyword (REGION C) token] [] []
  | pr_page token page n t sr vr cks amap new ks vrs rest :
      (Z.of_nat n <? NUM_RESULTS C) && (page <? MAX_PAGES C) = true ->
      c !! search_key keyword (REGION C) token = Some (SearchResponse sr) ->
      video_ids sr <> [] ->
      c !! video_key (video_ids sr) = Some (VideosResponse vr) ->
      avatars_from E c t vr cks amap ->
      Forall2 (fun p r => make_row E (fst p) keyword input_url amap (snd p)
                          = Ret r)
        (filter (fun p => is_live_or_upcoming (snippet_of (snd p)) = false)
           (timed (S t) (vr_items vr)))
        new ->
      page_run C E c keyword input_url
        (truthy_opt (sr_nextPageToken sr)) (page + 1)
        (n + List.length new) (S t + List.length (vr_items vr)) ks vrs rest ->
      page_run C E c keyword input_url token page n t
        (search_key keyword (REGION C) token :: video_key (video_ids sr)
         :: cks ++ ks)%list
        (vr :: vrs) (new ++ rest)%list.

(** The items of some pages that the row loop keeps. *)
Definition kept_items (vrs : list videos_response) : list video_item :=
  filter (fun it => is_live_or_upcoming (snippet_of it) = false)
    (concat (map vr_items vrs)).

(** What the columns of a row say of the item it was built from. *)
Definition row_of_item (keyword input_url : string) (it : video_item)
    (r : row) : Prop :=
  r_videoId r = vi_id it
  /\ r_keyword r = keyword /\ r_input_url r = input_url
  /\ r_title r = default EmptyString (sn_title (snippet_of it))
  /\ r_video_type r = (if r_duration_seconds r <? 60 then "short" else "video")
  /\ (vi_duration it = None -> r_duration_seconds r = 0)
  /\ r_language r <> EmptyString
  /\ r_embeddable r = default false (vi_embeddable it)
  /\ r_license r = default EmptyString (vi_license it)
  /\ r_allowed_on_third_party r
     = r_embeddable r && String.eqb (r_license r) "creativeCommon".

(** An API whose one page of results names four videos: one live, one
    tagged [none], one upcoming and one without the tag. *)
Definition mixed_page_api : nat -> string -> request -> outcome :=
  fun _ _ rq =>
    match rq with
    | SearchList _ _ _ _ =>
        Success (SearchResponse
                   {| sr_items := [ {| si_videoId := Some "v1" |};
                                    {| si_videoId := Some "v2" |};
                                    {| si_videoId := Some "v3" |};
                                    {| si_videoId := Some "v4" |} ];
                      sr_nextPageToken := None |})
    | VideosList _ _ =>
        Success (VideosResponse
                   {| vr_items :=
                        [sample_video "v1" (Some "live") (Some "PT45S");
                         sample_video "v2" (Some "none") (Some "PT1M5S");
                         sample_video "v3" (Some "upcoming") None;
                         sample_video "v4" None (Some "PT45S")] |})
    | ChannelsList _ _ => Success sample_response
    end.

(** ** Proof automation *)

(** One iteration of [execute_loop], split into its ten ways to go: a
    response, the five classified failures, an unclassified [HttpError],
    another exception, and [get_key] raising or running out of fuel. *)
Ltac exec_cases :=
  simpl;
  match goal with
  | |- context [get_key ?m] =>
      let Hk := fresh "Hk" in
      destruct (get_key m) as [[pos|e|] m'] eqn:Hk
  end; simpl;
  [ match goal with
    | |- context [net ?E ?c ?k ?fn] =>
        let Hnet := fresh "Hnet" in
        destruct (net E c k fn) as [resp|err_str| |name] eqn:Hnet
    end; simpl;
    [ | match goal with
        | |- context [is_quota_error ?s] =>
            destruct (is_quota_error s) eqn:Hq;
            [ | destruct (is_rate_limit_error s) eqn:Hr;
                [ match goal with
                  | |- context [?a <? ?b] => destruct (a <? b) eqn:Hlt
                  end | ] ]
        end
      | match goal with
        | |- context [?a <? ?b] => destruct (a <? b) eqn:Hlt
        end
      | ]
  | | ].

(** * Properties *)

(** ** [get_key] *)

Lemma rr_step (n idx j : nat) :
  (((idx + 1) mod n + j) mod n = (idx + S j) mod n)%nat.
Proof.
  rewrite Nat.Div0.add_mod_idemp_l. f_equal. lia.
Qed.

(** Every position is probed by a full scan, whatever the start. *)
Lemma rr_covers (n idx p : nat) :
  (idx < n)%nat -> (p < n)%nat ->
  exists i, (i < n)%nat /\ ((idx + i) mod n = p)%nat.
Proof.
  intros Hidx Hp. exists ((p + n - idx) mod n)%nat. split.
  - apply Nat.mod_upper_bound. lia.
  - rewrite Nat.Div0.add_mod_idemp_r.
    replace (idx + (p + n - idx))%nat with (p + 1 * n)%nat by lia.
    rewrite Nat.Div0.mod_add. apply Nat.mod_small; auto.
Qed.

(** The scan from [idx] with [left] probes to go: either it returns the
    first active position among the next [left] ones, or all of them
    are inactive and the index has advanced by [left]. *)
Lemma get_key_scan_spec (ks : list APIKey) (left idx : nat) :
  (idx < List.length ks)%nat ->
  match get_key_scan ks left idx with
  | (Ret pos, idx') =>
      exists j, (j < left)%nat /\ pos = ((idx + j) mod List.length ks)%nat
        /\ (forall i, (i < j)%nat ->
              inactive_at ks ((idx + i) mod List.length ks))
        /\ active_at ks pos
        /\ idx' = ((pos + 1) mod List.length ks)%nat
  | (Raise e, idx') =>
      e = QuotaExceededAllKeys
      /\ (forall i, (i < left)%nat ->
            inactive_at ks ((idx + i) mod List.length ks))
      /\ idx' = ((idx + left) mod List.length ks)%nat
  | (Timeout, _) => False
  end.
Proof.
  revert idx. induction left as [|left IH]; intros idx Hidx; simpl.
  - repeat split; [intros i Hi; lia|].
    rewrite Nat.add_0_r, Nat.mod_small; auto.
  - destruct (ks !! idx) as [api|] eqn:Hlk.
    2:{ apply lookup_ge_None in Hlk. lia. }
    destruct (active api) eqn:Hact.
    + exists 0%nat. rewrite Nat.add_0_r, Nat.mod_small by auto.
      repeat split; try lia. exists api; auto.
    + assert (Hlt : ((idx + 1) mod List.length ks < List.length ks)%nat)
        by (apply Nat.mod_upper_bound; lia).
      specialize (IH _ Hlt).
      destruct (get_key_scan ks left ((idx + 1) mod List.length ks))
        as [[pos|e|] idx']; auto.
      * destruct IH as (j & Hj & Hpos & Hskip & Hact' & Hidx').
        exists (S j). rewrite rr_step in Hpos.
        repeat split; auto; try lia.
        intros [|i] Hi.
        -- rewrite Nat.add_0_r, Nat.mod_small by auto. exists api; auto.
        -- rewrite <- rr_step. apply Hskip. lia.
      * destruct IH as (He & Hskip & Hidx').
        rewrite rr_step in Hidx'. repeat split; auto.
        intros [|i] Hi.
        -- rewrite Nat.add_0_r, Nat.mod_small by auto. exists api; auto.
        -- rewrite <- rr_step. apply Hskip. lia.
Qed.

(** C1.  For a pool of [k] credentials ([k = 0] included) whose index is
    a position of the pool, as every method leaves it, [get_key] probes
    at most [k] positions in cyclic order from [self.index], skips the
    inactive ones, returns the first active one and leaves [self.index]
    just after it (so the next scan starts after the last returned
    credential); it raises [QuotaExceededAllKeys] exactly when no
    credential is active, and then [self.index] is where it was.  The key
    list itself is never changed. *)
Theorem get_key_round_robin (m : KeyManager) :
  km_ok m \/ keys m = [] ->
  let k := List.length (keys m) in
  let r := fst (get_key m) in
  let m' := snd (get_key m) in
  (r = Raise QuotaExceededAllKeys <-> forall a, a ∈ keys m -> active a = false)
  /\ (forall pos, r = Ret pos ->
        exists j, (j < k)%nat /\ pos = ((index m + j) mod k)%nat
          /\ (forall i, (i < j)%nat -> inactive_at (keys m) ((index m + i) mod k))
          /\ active_at (keys m) pos
          /\ index m' = ((pos + 1) mod k)%nat)
  /\ (r = Raise QuotaExceededAllKeys -> index m' = index m)
  /\ ((exists pos, r = Ret pos) \/ r = Raise QuotaExceededAllKeys)
  /\ keys m' = keys m
  /\ (km_ok m' \/ keys m' = []).
Proof.
  intros [Hok|Hnil] k r m'; subst r m'; unfold get_key; fold k.
  2:{ subst k. rewrite Hnil. simpl. split; [split; [intros _ a Ha|reflexivity]|].
      { inversion Ha. }
      split; [discriminate|]. split; [reflexivity|]. split; [right; reflexivity|].
      split; [reflexivity|right; reflexivity]. }
  pose proof (get_key_scan_spec (keys m) k (index m) Hok) as Hs.
  fold k in Hs.
  destruct (get_key_scan (keys m) k (index m)) as [[pos|e|] idx'] eqn:Hscan;
    simpl; [| |contradiction].
  - destruct Hs as (j & Hj & Hpos & Hskip & Hact & Hidx').
    split; [split; [discriminate|]|].
    { intros Hall. destruct Hact as (a & Ha & Hact).
      rewrite (Hall a) in Hact; [discriminate|].
      apply list_elem_of_lookup. eauto. }
    split; [|split; [discriminate|split; [eauto|split; [reflexivity|]]]].
    + intros pos' [= <-]. exists j. auto.
    + left. unfold km_ok; simpl. subst idx'. apply Nat.mod_upper_bound.
      unfold km_ok in Hok. fold k. lia.
  - destruct Hs as (-> & Hskip & Hidx').
    assert (Hback : idx' = index m).
    { subst idx'. replace (index m + k)%nat with (index m + 1 * k)%nat by lia.
      rewrite Nat.Div0.mod_add. apply Nat.mod_small. exact Hok. }
    split; [split; [intros _|reflexivity]|].
    { intros a Ha. apply list_elem_of_lookup in Ha as [p Hp].
      assert (Hlt : (p < k)%nat) by (apply lookup_lt_Some in Hp; exact Hp).
      destruct (rr_covers _ (index m) p Hok Hlt) as (i & Hi & Hip).
      destruct (Hskip i Hi) as (a' & Ha' & Hina).
      fold k in Hip. rewrite Hip in Ha'. congruence. }
    split; [discriminate|].
    split; [auto|]. split; [auto|]. split; [reflexivity|].
    left. unfold km_ok; simpl. rewrite Hback. exact Hok.
Qed.

Lemma get_key_round_robin_witness :
  km_ok sample_pool
  /\ fst (get_key sample_pool) = Ret 1%nat
  /\ inactive_at (keys sample_pool) 0
  /\ index (snd (get_key sample_pool)) = 2%nat.
Proof.
  assert (Hok : km_ok sample_pool) by (unfold km_ok; simpl; lia).
  split; [exact Hok|]. split; [reflexivity|].
  destruct (get_key_round_robin sample_pool (or_introl Hok)) as (_ & Hret & _).
  destruct (Hret 1%nat eq_refl) as (j & Hj & Hpos & Hskip & Hact & Hidx).
  split; [|exact Hidx].
  destruct j as [|j]; [discriminate Hpos|].
  apply (Hskip 0%nat). lia.
Defined.

(** ** The executor *)

Lemma get_key_scan_ret_active ks left idx pos idx' :
  get_key_scan ks left idx = (Ret pos, idx') -> active_at ks pos.
Proof.
  revert idx. induction left as [|left IH]; intros idx; simpl; [discriminate|].
  destruct (ks !! idx) as [api|] eqn:Hlk; [|discriminate].
  destruct (active api) eqn:Hact; [|apply IH].
  intros [= <- _]. exists api; auto.
Qed.

Lemma get_key_scan_no_timeout ks left idx :
  fst (get_key_scan ks left idx) <> Timeout.
Proof.
  revert idx. induction left as [|left IH]; intros idx; simpl; [discriminate|].
  destruct (ks !! idx) as [api|]; [|discriminate].
  destruct (active api); [discriminate|apply IH].
Qed.

Lemma get_key_ret m pos m' :
  get_key m = (Ret pos, m') -> keys m' = keys m /\ active_at (keys m) pos.
Proof.
  unfold get_key.
  destruct (get_key_scan (keys m) (List.length (keys m)) (index m))
    as [r idx] eqn:Hs.
  intros [= -> <-]. split; [reflexivity|].
  eapply get_key_scan_ret_active; eauto.
Qed.

Lemma get_key_no_timeout m : fst (get_key m) <> Timeout.
Proof.
  unfold get_key.
  pose proof (get_key_scan_no_timeout (keys m) (List.length (keys m)) (index m)).
  destruct (get_key_scan _ _ _); auto.
Qed.


(** Deactivating an active credential leaves one active credential less. *)
Lemma count_active_deactivate m pos :
  active_at (keys m) pos ->
  S (count_active (deactivate pos m)) = count_active m.
Proof.
  unfold count_active, deactivate, active_at. simpl.
  generalize (keys m). clear m. intros ks. revert pos.
  induction ks as [|a ks IH]; intros pos (x & Hx & Hact).
  - destruct pos; discriminate.
  - destruct pos as [|pos]; simpl in *.
    + injection Hx as ->. rewrite !filter_cons. simpl.
      destruct (decide (false = true)); [discriminate|].
      destruct (decide (active x = true)); [reflexivity|contradiction].
    + rewrite !filter_cons.
      destruct (decide (active a = true)); simpl; rewrite <- (IH pos); eauto.
Qed.

Section ExecutorFacts.
Context (E : env) (fn : request) (units : units_spec) (backoff_max : Z).

(** The events of a run of the loop follow the grammar [exec_trace]. *)
Lemma execute_loop_trace fuel attempt w :
  grows (exec_trace fn backoff_max attempt) w
    (snd (execute_loop E fuel fn units backoff_max attempt w)).
Proof.
  revert attempt w. induction fuel as [|fuel IH]; intros attempt w; simpl.
  { exists []. rewrite app_nil_r. split; [reflexivity|constructor]. }
  destruct (get_key (km w)) as [[pos|e|] m'] eqn:Hk; simpl;
    try (exists []; rewrite app_nil_r; split; [reflexivity|constructor]).
  assert (Hback : forall w2, trace w2 = (trace w ++ [EvCall pos fn])%list ->
            grows (exec_trace fn backoff_max attempt) w
              (snd (if attempt <? backoff_max
                    then execute_loop E fuel fn units backoff_max (attempt + 1)
                           (emit (EvSleep (2 ^ attempt)) w2)
                    else execute_loop E fuel fn units backoff_max attempt
                           (emit (EvDeactivate pos)
                              (with_km (deactivate pos) w2))))).
  { intros w2 Hw2. destruct (attempt <? backoff_max) eqn:Hlt.
    - destruct (IH (attempt + 1) (emit (EvSleep (2 ^ attempt)) w2))
        as (evs & Ht & Hevs).
      eexists. split; [|apply et_backoff; [lia|exact Hevs]].
      rewrite Ht. simpl. rewrite Hw2, <- !app_assoc. reflexivity.
    - destruct (IH attempt (emit (EvDeactivate pos)
                              (with_km (deactivate pos) w2)))
        as (evs & Ht & Hevs).
      eexists. split; [|apply et_deactivate; exact Hevs].
      rewrite Ht. simpl. rewrite Hw2, <- !app_assoc. reflexivity. }
  destruct (net E _ _ fn) as [resp|err_str| |name]; simpl.
  - eexists. split; [|apply et_return]. simpl.
    rewrite <- app_assoc. reflexivity.
  - destruct (is_quota_error err_str).
    + destruct (IH attempt (emit (EvDeactivate pos)
         (with_km (deactivate pos)
            (emit (EvCall pos fn) (next_call (with_km (fun _ => m') w))))))
        as (evs & Ht & Hevs).
      eexists. split; [|apply et_deactivate; exact Hevs].
      rewrite Ht. simpl. rewrite <- !app_assoc. reflexivity.
    + destruct (is_rate_limit_error err_str).
      * apply Hback. reflexivity.
      * exists [EvCall pos fn]. split; [reflexivity|constructor].
  - apply Hback. reflexivity.
  - exists [EvCall pos fn]. split; [reflexivity|constructor].
Qed.

(** The loop returns or raises within the fuel [execute] gives it. *)
Lemma execute_loop_total fuel attempt w :
  (count_active (km w) + Z.to_nat (backoff_max - attempt) < fuel)%nat ->
  fst (execute_loop E fuel fn units backoff_max attempt w) <> Timeout.
Proof.
  revert attempt w. induction fuel as [|fuel IH]; intros attempt w Hf;
    [lia|]. simpl.
  destruct (get_key (km w)) as [[pos|e|] m'] eqn:Hk; simpl;
    [|discriminate|].
  2:{ pose proof (get_key_no_timeout (km w)) as Hn. rewrite Hk in Hn.
      contradiction. }
  apply get_key_ret in Hk as [Hkeys Hact].
  assert (Hca : count_active m' = count_active (km w))
    by (unfold count_active; rewrite Hkeys; reflexivity).
  assert (Hde : S (count_active (deactivate pos m')) = count_active (km w)).
  { rewrite <- Hca. apply count_active_deactivate. rewrite Hkeys. exact Hact. }
  destruct (net E _ _ fn) as [resp|err_str| |name]; simpl; try discriminate.
  - destruct (is_quota_error err_str).
    + apply IH. simpl. lia.
    + destruct (is_rate_limit_error err_str); [|discriminate].
      destruct (attempt <? backoff_max) eqn:Hlt.
      * apply IH. simpl. rewrite Hca. lia.
      * apply IH. simpl. lia.
  - destruct (attempt <? backoff_max) eqn:Hlt.
    + apply IH. simpl. rewrite Hca. lia.
    + apply IH. simpl. lia.
Qed.

Lemma execute_total w : fst (execute E fn units backoff_max w) <> Timeout.
Proof.
  unfold execute, execute_fuel. apply execute_loop_total.
  rewrite Z.sub_0_r. lia.
Qed.

(** The sleeps of a run are consecutive powers of two from
    [2 ^ attempt], and [attempt] never passes [backoff_max]. *)
Lemma exec_trace_sleeps attempt evs :
  0 <= attempt ->
  exec_trace fn backoff_max attempt evs ->
  exists m : nat,
    sleeps evs = map (fun i => 2 ^ (attempt + Z.of_nat i)) (seq 0 m)
    /\ (m = 0%nat \/ attempt + Z.of_nat m <= backoff_max).
Proof.
  intros H0 Ht. induction Ht as [a|a pos used|a pos|a pos evs Hlt Ht IH|a pos evs Ht IH];
    try (exists 0%nat; split; [reflexivity|left; reflexivity]).
  - destruct IH as (m & Hs & Hm); [lia|]. exists (S m). split.
    + change (sleeps (EvCall pos fn :: EvSleep (2 ^ a) :: evs))
        with (2 ^ a :: sleeps evs).
      rewrite Hs. simpl. rewrite Z.add_0_r. f_equal.
      rewrite <- seq_shift, map_map.
      apply map_ext. intros i. f_equal. lia.
    + right. destruct Hm as [->|Hm]; lia.
  - destruct (IH H0) as (m & Hs & Hm). exists m. split; [|exact Hm].
    exact Hs.
Qed.

End ExecutorFacts.

(** C2, as stated, fails.  One credential, [backoff_max = 3]; the first
    three calls are throttled, the fourth meets a connection reset, the
    fifth would succeed.  With independent counters the reset is the first
    network error of the call: it is slept on for [2 ^ 0] seconds and the
    retry succeeds.  The script has spent its only counter on the three
    throttled calls, so it deactivates the credential at once and the
    call ends in [QuotaExceededAllKeys]. *)
Lemma attempt_counter_not_independent :
  let E := sample_env throttled_then_reset in
  let w := fresh_world ["KEY-A"] in
  let code := execute E sample_request (UConst 1) 3 w in
  let spec := spec_execute E sample_request (UConst 1) 3 w in
  fst code = Raise QuotaExceededAllKeys
  /\ trace (snd code) =
       [EvCall 0 sample_request; EvSleep 1;
        EvCall 0 sample_request; EvSleep 2;
        EvCall 0 sample_request; EvSleep 4;
        EvCall 0 sample_request; EvDeactivate 0]
  /\ fst spec = Ret sample_response
  /\ sleeps (trace (snd spec)) = [1; 2; 4; 1]
  /\ fst code <> fst spec.
Proof.
  vm_compute. repeat split; discriminate.
Qed.

(** C2, amended.  One [execute] call has a single attempt counter, shared
    by rate-limit errors and connection errors: whatever the classes of
    the failures, the [i]-th sleep of the call lasts [2 ^ i] seconds and
    there are at most [backoff_max] sleeps in all.  The counter starts at
    zero in every call, whatever state earlier calls left: the first
    sleep of any call is [2 ^ 0].  The call always returns or raises. *)
Theorem execute_single_attempt_counter (E : env) (fn : request)
    (units : units_spec) (backoff_max : Z) (w : world) :
  fst (execute E fn units backoff_max w) <> Timeout
  /\ exists (evs : list event) (m : nat),
       trace (snd (execute E fn units backoff_max w)) = (trace w ++ evs)%list
       /\ sleeps evs = map (fun i => 2 ^ Z.of_nat i) (seq 0 m)
       /\ Z.of_nat m <= Z.max 0 backoff_max.
Proof.
  split; [apply execute_total|].
  destruct (execute_loop_trace E fn units backoff_max
              (execute_fuel backoff_max w) 0 w) as (evs & Ht & Hevs).
  apply exec_trace_sleeps in Hevs as (m & Hs & Hm); [|lia].
  exists evs, m. split; [exact Ht|]. split; [exact Hs|].
  destruct Hm as [->|Hm]; lia.
Qed.


Lemma count_active_pos m :
  (exists a, a ∈ keys m /\ active a = true) -> (0 < count_active m)%nat.
Proof.
  intros (a & Ha & Hact). unfold count_active.
  assert (Hin : a ∈ filter (fun a => active a = true) (keys m))
    by (apply list_elem_of_filter; auto).
  destruct (filter _ (keys m)); [inversion Hin|simpl; lia].
Qed.




(** ** The response cache *)

Section CacheFacts.
Context (E : env).

Lemma execute_loop_cache fuel fn units backoff_max attempt w :
  cache (snd (execute_loop E fuel fn units backoff_max attempt w)) = cache w.
Proof.
  revert attempt w. induction fuel as [|fuel IH]; intros attempt w; simpl;
    [reflexivity|].
  destruct (get_key (km w)) as [[pos|e|] m']; simpl; try reflexivity.
  destruct (net E _ _ fn) as [resp|err_str| |name]; simpl; try reflexivity.
  - destruct (is_quota_error err_str); [rewrite IH; reflexivity|].
    destruct (is_rate_limit_error err_str); [|reflexivity].
    destruct (attempt <? backoff_max); rewrite IH; reflexivity.
  - destruct (attempt <? backoff_max); rewrite IH; reflexivity.
Qed.

(** A hit replays the stored response: no credential is acquired, no
    call is made, nothing but the trace changes. *)
Lemma cached_execute_hit k fn units w r :
  cache w !! k = Some r ->
  cached_execute E k fn units w = (Ret r, emit (EvCacheHit k) w).
Proof. intros H. unfold cached_execute. rewrite H. reflexivity. Qed.

(** Whatever [cached_execute] returns is in the cache afterwards. *)
Lemma cached_execute_put k fn units w r w' :
  cached_execute E k fn units w = (Ret r, w') -> cache w' !! k = Some r.
Proof.
  unfold cached_execute. destruct (cache w !! k) as [r0|] eqn:Hk.
  - intros [= <- <-]. exact Hk.
  - destruct (execute E fn units 3 (emit (EvCacheMiss k) w))
      as [[r1|e|] w1] eqn:He; [|discriminate|discriminate].
    intros [= <- <-]. simpl. apply lookup_insert_eq.
  Qed.

(** Entries are never overwritten or removed. *)
Lemma cached_execute_keeps k fn units w k0 r0 :
  cache w !! k0 = Some r0 ->
  cache (snd (cached_execute E k fn units w)) !! k0 = Some r0.
Proof.
  intros H0. unfold cached_execute. destruct (cache w !! k) as [r|] eqn:Hk.
  - exact H0.
  - pose proof (execute_loop_cache (execute_fuel 3 (emit (EvCacheMiss k) w))
                  fn units 3 0 (emit (EvCacheMiss k) w)) as Hc.
    unfold execute.
    destruct (execute_loop E _ fn units 3 0 (emit (EvCacheMiss k) w))
      as [[r1|e|] w1]; simpl in *; try (rewrite Hc; exact H0).
    rewrite Hc. rewrite lookup_insert_ne; [exact H0|].
    intros ->. simpl in Hk. congruence.
Qed.

End CacheFacts.

(** ** Relations every step of the pipeline preserves *)

Section PipelineInvariant.
Context (C : config) (E : env).
Variable R : world -> world -> Prop.
Hypothesis R_refl : forall w, R w w.
Hypothesis R_trans : forall a b c, R a b -> R b c -> R a c.
Hypothesis R_tick : forall n w, R w (tick n w).
Hypothesis R_cached :
  forall k fn units w,
    k = key_of_request fn -> R w (snd (cached_execute E k fn units w)).

Lemma avatar_map_preserves vr w : R w (snd (avatar_map E vr w)).
Proof.
  unfold avatar_map, bind, lift, ret, read_order.
  destruct (channel_id_seq (vr_items vr)) as [ids|e|]; simpl; auto.
  destruct (set_order E (reads w) ids) as [|c cids]; simpl; auto.
  pose proof (R_cached (channel_key (c :: cids))
                (ChannelsList "snippet" (join "," (c :: cids))) (UConst 1)
                (tick 1 w) eq_refl) as Hc.
  apply (R_trans _ _ _ (R_tick 1 w)).
  destruct (cached_execute E _ _ _ (tick 1 w)) as [[r|e|] w1]; simpl in *; auto.
  destruct (as_channels r) as [ch|e|]; simpl; auto.
Qed.

Lemma search_loop_preserves fuel keyword input_url rows token page w :
  R w (snd (search_loop C E fuel keyword input_url rows token page w)).
Proof.
  revert rows token page w.
  induction fuel as [|fuel IH]; intros rows token page w; simpl.
  { destruct (_ && _); simpl; auto. }
  destruct (_ && _); [|simpl; auto].
  unfold bind at 1.
  pose proof (R_cached (search_key keyword (REGION C) token)
    (SearchList keyword (REGION C)
       (Z.min 50 (NUM_RESULTS C - Z.of_nat (List.length rows)))
       (or_empty token)) (UConst 100) w eq_refl) as H1.
  destruct (cached_execute E _ _ _ w) as [[r|e|] w1]; simpl in *; auto.
  unfold bind at 1, lift at 1.
  destruct (as_search r) as [sr|e|]; simpl; auto.
  destruct (video_ids sr) as [|v vids]; simpl; auto.
  unfold bind at 1.
  pose proof (R_cached (video_key (v :: vids))
    (VideosList (join "," (v :: vids)) VIDEO_PARTS) (UFun items_count) w1
    eq_refl) as H2.
  destruct (cached_execute E _ _ _ w1) as [[r2|e|] w2]; simpl in *; eauto.
  unfold bind at 1, lift at 1.
  destruct (as_videos r2) as [vr|e|]; simpl; eauto.
  unfold bind at 1.
  pose proof (avatar_map_preserves vr w2) as H3.
  destruct (avatar_map E vr w2) as [[amap|e|] w3]; simpl in *; eauto.
  unfold bind at 1, build_rows at 1.
  pose proof (R_tick (List.length (vr_items vr)) w3) as H4.
  destruct (add_rows E (reads w3) keyword input_url amap (vr_items vr) rows)
    as [rows'|e|]; simpl; eauto 6.
Qed.

Lemma search_once_preserves keyword input_url w :
  R w (snd (search_once C E keyword input_url w)).
Proof. apply search_loop_preserves. Qed.

End PipelineInvariant.

(** [search_once] never overwrites or removes a cache entry. *)
Lemma search_once_keeps C E keyword input_url w k r :
  cache w !! k = Some r ->
  cache (snd (search_once C E keyword input_url w)) !! k = Some r.
Proof.
  revert k r.
  apply (search_once_preserves C E
           (fun a b => forall k r, cache a !! k = Some r -> cache b !! k = Some r)).
  - auto.
  - intros a b c Hab Hbc k r Hk. auto.
  - intros n w0 k r Hk. exact Hk.
  - intros k fn units w0 _ k0 r0. apply cached_execute_keeps.
Qed.

Lemma search_all_keeps C E jobs w k r :
  cache w !! k = Some r -> cache (search_all C E jobs w) !! k = Some r.
Proof.
  revert w. induction jobs as [|[kw url] jobs IH]; intros w Hk; simpl; auto.
  apply IH. apply search_once_keeps. exact Hk.
Qed.

(** C5.  Once a response has been stored (or replayed) under a key, it is
    in the cache, and after any number of further keywords searched, a
    lookup of the same key by any call site returns that very response
    with the world unchanged but for the hit being noted: the executor is
    not entered, no credential is acquired, no network call is made. *)
Theorem cache_replays_stored_response (C : config) (E : env) (k : string)
    (fn : request) (units : units_spec) (w w1 : world) (r : response) :
  cached_execute E k fn units w = (Ret r, w1) ->
  cache w1 !! k = Some r
  /\ forall (jobs : list (string * string)) (fn' : request)
            (units' : units_spec),
       let w2 := search_all C E jobs w1 in
       cached_execute E k fn' units' w2 = (Ret r, emit (EvCacheHit k) w2)
       /\ calls (snd (cached_execute E k fn' units' w2)) = calls w2
       /\ km (snd (cached_execute E k fn' units' w2)) = km w2.
Proof.
  intros Hput. apply cached_execute_put in Hput. split; [exact Hput|].
  intros jobs fn' units' w2.
  assert (Hhit : cached_execute E k fn' units' w2 = (Ret r, emit (EvCacheHit k) w2)).
  { apply cached_execute_hit. subst w2. apply search_all_keeps. exact Hput. }
  rewrite Hhit. auto.
Qed.

Lemma cache_replays_stored_response_witness :
  let C := sample_config 1 in
  let E := sample_env one_page_api in
  let w1 := snd (cached_execute E "C:UC1" sample_request (UConst 1)
                   (fresh_world ["KEY-A"])) in
  let w2 := search_all C E [("kw", "")] w1 in
  calls w1 = 1%nat
  /\ cached_execute E "C:UC1" sample_request (UConst 1) w2 =
       (Ret sample_response, emit (EvCacheHit "C:UC1") w2).
Proof.
  split; [reflexivity|].
  refine (proj1 (proj2 (cache_replays_stored_response
            (sample_config 1) (sample_env one_page_api) "C:UC1" sample_request
            (UConst 1) (fresh_world ["KEY-A"]) _ sample_response _)
            [("kw", "")] sample_request (UConst 1))).
  vm_compute. reflexivity.
Defined.

(** ** [search_once] returns or raises *)

Section Totality.
Context (C : config) (E : env).

Lemma cached_execute_total k fn units w :
  fst (cached_execute E k fn units w) <> Timeout.
Proof.
  unfold cached_execute. destruct (cache w !! k); [discriminate|].
  pose proof (execute_total E fn units 3 (emit (EvCacheMiss k) w)) as H.
  destruct (execute E fn units 3 (emit (EvCacheMiss k) w)) as [[r|e|] w1];
    simpl in *; [discriminate|discriminate|contradiction].
Qed.

Lemma channel_id_seq_total items : channel_id_seq items <> Timeout.
Proof.
  induction items as [|it items IH]; simpl; [discriminate|].
  destruct (vi_snippet it) as [sn|]; [|discriminate].
  destruct (sn_channelId sn); [|discriminate].
  destruct (channel_id_seq items); [discriminate|discriminate|contradiction].
Qed.

Lemma build_amap_total items acc : build_amap items acc <> Timeout.
Proof.
  revert acc. induction items as [|c items IH]; intros acc; simpl;
    [discriminate|].
  destruct (ch_avatar c); [apply IH|discriminate].
Qed.

Lemma make_row_total t keyword input_url amap it :
  make_row E t keyword input_url amap it <> Timeout.
Proof.
  unfold make_row, iso2hms, fmt_age.
  destruct (truthy (default EmptyString (vi_duration it)));
    [destruct (duration_seconds E _); [|discriminate]|];
    destruct (language_of E t (snippet_of it));
    (destruct (truthy (default EmptyString (sn_publishedAt (snippet_of it))));
     [destruct (days_since E t _)|]); discriminate.
Qed.

Lemma add_rows_total t keyword input_url amap items rows :
  add_rows E t keyword input_url amap items rows <> Timeout.
Proof.
  revert t rows. induction items as [|it items IH]; intros t rows; simpl;
    [discriminate|].
  destruct (is_live_or_upcoming (snippet_of it)); [apply IH|].
  pose proof (make_row_total t keyword input_url amap it) as H.
  destruct (make_row E t keyword input_url amap it);
    [apply IH|discriminate|contradiction].
Qed.

Lemma avatar_map_total vr w : fst (avatar_map E vr w) <> Timeout.
Proof.
  unfold avatar_map, bind, lift, ret, read_order.
  pose proof (channel_id_seq_total (vr_items vr)) as H.
  destruct (channel_id_seq (vr_items vr)) as [ids|e|];
    [|discriminate|contradiction].
  destruct (set_order E (reads w) ids) as [|c cids]; [discriminate|].
  pose proof (cached_execute_total (channel_key (c :: cids))
                (ChannelsList "snippet" (join "," (c :: cids))) (UConst 1)
                (tick 1 w)) as Hc.
  destruct (cached_execute E _ _ _ (tick 1 w)) as [[r|e|] w1]; simpl in *;
    [|discriminate|contradiction].
  destruct (as_channels r) as [ch|e|] eqn:Hch; simpl;
    [apply build_amap_total|discriminate|].
  destruct r; discriminate.
Qed.

(** [MAX_PAGES - page] iterations of fuel are enough. *)
Lemma search_loop_total fuel keyword input_url rows token page w :
  MAX_PAGES C - page <= Z.of_nat fuel ->
  fst (search_loop C E fuel keyword input_url rows token page w) <> Timeout.
Proof.
  revert rows token page w.
  induction fuel as [|fuel IH]; intros rows token page w Hf; simpl.
  { destruct (Z.of_nat (List.length rows) <? NUM_RESULTS C); simpl;
      [|discriminate].
    destruct (page <? MAX_PAGES C) eqn:Hp; [lia|discriminate]. }
  destruct (_ && _); [|discriminate].
  unfold bind at 1.
  pose proof (cached_execute_total (search_key keyword (REGION C) token)
    (SearchList keyword (REGION C)
       (Z.min 50 (NUM_RESULTS C - Z.of_nat (List.length rows)))
       (or_empty token)) (UConst 100) w) as H1.
  destruct (cached_execute E _ _ _ w) as [[r|?|] w1]; simpl in *;
    [|discriminate|contradiction].
  unfold bind at 1, lift at 1.
  destruct (as_search r) as [sr|?|] eqn:Hsr; simpl;
    [|discriminate|destruct r; discriminate].
  destruct (video_ids sr) as [|v vids]; [discriminate|].
  unfold bind at 1.
  pose proof (cached_execute_total (video_key (v :: vids))
    (VideosList (join "," (v :: vids)) VIDEO_PARTS) (UFun items_count) w1)
    as H2.
  destruct (cached_execute E _ _ _ w1) as [[r2|?|] w2]; simpl in *;
    [|discriminate|contradiction].
  unfold bind at 1, lift at 1.
  destruct (as_videos r2) as [vr|?|] eqn:Hvr; simpl;
    [|discriminate|destruct r2; discriminate].
  unfold bind at 1.
  pose proof (avatar_map_total vr w2) as H3.
  destruct (avatar_map E vr w2) as [[amap|?|] w3]; simpl in *;
    [|discriminate|contradiction].
  unfold bind at 1, build_rows at 1.
  pose proof (add_rows_total (reads w3) keyword input_url amap (vr_items vr) rows) as H4.
  destruct (add_rows E (reads w3) keyword input_url amap (vr_items vr) rows)
    as [rows'|?|]; simpl; [|discriminate|contradiction].
  apply IH. lia.
Qed.

Lemma search_once_total keyword input_url w :
  fst (search_once C E keyword input_url w) <> Timeout.
Proof. apply search_loop_total. lia. Qed.

End Totality.

(** ** The row loop *)

Lemma is_live_or_upcoming_iff (sn : snippet) :
  is_live_or_upcoming sn = true
  <-> sn_liveBroadcastContent sn = Some "live"
      \/ sn_liveBroadcastContent sn = Some "upcoming".
Proof.
  unfold is_live_or_upcoming.
  destruct (sn_liveBroadcastContent sn) as [t|]; [|split; [discriminate|]].
  - rewrite orb_true_iff, !String.eqb_eq. split.
    + intros [->| ->]; auto.
    + intros [[= ->]|[= ->]]; auto.
  - intros [H|H]; discriminate.
Qed.

(** The rows one page appends: one per item that is not live or upcoming,
    in item order, each built by [make_row]. *)
Lemma add_rows_spec E t keyword input_url amap items rows rows' :
  add_rows E t keyword input_url amap items rows = Ret rows' ->
  exists new,
    rows' = (rows ++ new)%list
    /\ Forall2 (fun p r => make_row E (fst p) keyword input_url amap (snd p)
                           = Ret r)
         (filter (fun p => is_live_or_upcoming (snippet_of (snd p)) = false)
            (timed t items))
         new.
Proof.
  revert t rows. induction items as [|it items IH]; intros t rows; simpl.
  - intros [= <-]. exists []. rewrite app_nil_r. split; [reflexivity|constructor].
  - rewrite filter_cons. simpl.
    destruct (is_live_or_upcoming (snippet_of it)) eqn:Hlive.
    + destruct (decide (true = false)); [discriminate|]. apply IH.
    + destruct (decide (false = false)); [|contradiction].
      destruct (make_row E t keyword input_url amap it) as [r|?|] eqn:Hrow;
        [|discriminate|discriminate].
      intros H. apply IH in H as (new & -> & Hall).
      exists (r :: new). rewrite <- app_assoc. split; [reflexivity|].
      constructor; assumption.
Qed.

Lemma Forall2_filter_left {A B} (p : A -> Prop) `{forall x, Decision (p x)}
    (Q : A -> B -> Prop) (l : list A) (new : list B) :
  Forall2 Q (filter p l) new ->
  Forall (fun r => exists it, p it /\ Q it r) new.
Proof.
  assert (Hp : Forall p (filter p l)).
  { apply Forall_forall. intros x Hx. apply list_elem_of_filter in Hx as [Hx _].
    exact Hx. }
  revert Hp. generalize (filter p l). clear l.
  intros l Hp HQ. induction HQ as [|it r its rs Hr HQ IH]; constructor.
  - exists it. split; [|exact Hr]. inversion Hp; assumption.
  - apply IH. inversion Hp; assumption.
Qed.

(** ** Durations *)

(** C10.  For an item whose duration is missing or the empty string,
    [iso2hms] returns the empty string and 0 seconds without consulting
    the duration parser, so nothing is raised on account of the duration;
    the row, which is produced whenever the age of the item can be
    formatted, has duration [""], 0 seconds and the bucket [short], never
    [video]. *)
Theorem missing_duration_is_short (E : env) (t : nat)
    (keyword input_url : string) (amap : gmap string string)
    (it : video_item) :
  vi_duration it = None \/ vi_duration it = Some EmptyString ->
  iso2hms E (default EmptyString (vi_duration it)) = Ret (EmptyString, 0)
  /\ (forall r, make_row E t keyword input_url amap it = Ret r ->
        r_duration r = EmptyString /\ r_duration_seconds r = 0
        /\ r_video_type r = "short" /\ r_video_type r <> "video")
  /\ (forall age,
        fmt_age E t (default EmptyString (sn_publishedAt (snippet_of it))) = Ret age ->
        exists r, make_row E t keyword input_url amap it = Ret r)
  /\ make_row E t keyword input_url amap it <> Timeout.
Proof.
  intros Hd.
  assert (Hiso : iso2hms E (default EmptyString (vi_duration it))
                 = Ret (EmptyString, 0))
    by (destruct Hd as [-> | ->]; reflexivity).
  split; [exact Hiso|]. unfold make_row. rewrite Hiso.
  destruct (language_of E t (snippet_of it)) as [ls lang].
  destruct (fmt_age E t (default EmptyString (sn_publishedAt (snippet_of it))))
    as [age|e|] eqn:Hage.
  - split; [|split; [eauto|discriminate]].
    intros r [= <-]. simpl. repeat split. discriminate.
  - split; [discriminate|]. split; [discriminate|discriminate].
  - exfalso. unfold fmt_age in Hage.
    destruct (truthy _); [|discriminate].
    destruct (days_since E t _); discriminate.
Qed.

Lemma missing_duration_is_short_witness :
  let E := sample_env one_page_api in
  let it := sample_video "v1" (Some "none") None in
  vi_duration it = None
  /\ exists r, make_row E 0 "kw" "" ∅ it = Ret r
               /\ r_duration_seconds r = 0 /\ r_video_type r = "short".
Proof.
  split; [reflexivity|].
  destruct (missing_duration_is_short (sample_env one_page_api) 0 "kw" "" ∅
              (sample_video "v1" (Some "none") None) (or_introl eq_refl))
    as (_ & Hrow & Hsome & _).
  destruct (Hsome "1 years 1 months" eq_refl) as (r & Hr).
  exists r. split; [exact Hr|].
  destruct (Hrow r Hr) as (_ & Hs & Ht & _). split; assumption.
Defined.

(** ** The progress cursor *)

Lemma cursor_steps_app a b :
  cursor_steps (a ++ b) = (cursor_steps a ++ cursor_steps b)%list.
Proof. apply omap_app. Qed.

Lemma quiet_refl w : quiet w w.
Proof. split; [reflexivity|]. exists []. rewrite app_nil_r. auto. Qed.

Lemma quiet_trans a b c : quiet a b -> quiet b c -> quiet a c.
Proof.
  intros [Hp1 (e1 & Ht1 & Hq1)] [Hp2 (e2 & Ht2 & Hq2)]. split; [congruence|].
  exists (e1 ++ e2)%list. rewrite Ht2, Ht1, app_assoc. split; [reflexivity|].
  rewrite cursor_steps_app, Hq1, Hq2. reflexivity.
Qed.

Lemma quiet_emit e w : cursor_of e = None -> quiet w (emit e w).
Proof.
  intros He. split; [reflexivity|]. exists [e]. split; [reflexivity|].
  unfold cursor_steps. simpl. rewrite He. reflexivity.
Qed.

Lemma exec_trace_quiet fn backoff_max attempt evs :
  exec_trace fn backoff_max attempt evs -> cursor_steps evs = [].
Proof. induction 1; auto. Qed.

Lemma execute_loop_prog E fuel fn units backoff_max attempt w :
  prog (snd (execute_loop E fuel fn units backoff_max attempt w)) = prog w.
Proof.
  revert attempt w. induction fuel as [|fuel IH]; intros attempt w; simpl;
    [reflexivity|].
  destruct (get_key (km w)) as [[pos|e|] m']; simpl; try reflexivity.
  destruct (net E _ _ fn) as [resp|err_str| |name]; simpl; try reflexivity.
  - destruct (is_quota_error err_str); [rewrite IH; reflexivity|].
    destruct (is_rate_limit_error err_str); [|reflexivity].
    destruct (attempt <? backoff_max); rewrite IH; reflexivity.
  - destruct (attempt <? backoff_max); rewrite IH; reflexivity.
Qed.

Lemma cached_execute_quiet E k fn units w :
  quiet w (snd (cached_execute E k fn units w)).
Proof.
  unfold cached_execute. destruct (cache w !! k) as [r|]; simpl.
  { apply quiet_emit. reflexivity. }
  eapply quiet_trans; [apply (quiet_emit (EvCacheMiss k)); reflexivity|].
  assert (Hq : quiet (emit (EvCacheMiss k) w)
                 (snd (execute E fn units 3 (emit (EvCacheMiss k) w)))).
  { split; [apply execute_loop_prog|].
    destruct (execute_loop_trace E fn units 3
                (execute_fuel 3 (emit (EvCacheMiss k) w)) 0
                (emit (EvCacheMiss k) w)) as (evs & Ht & Hevs).
    exists evs. split; [exact Ht|]. eapply exec_trace_quiet; eauto. }
  destruct (execute E fn units 3 (emit (EvCacheMiss k) w)) as [[r|e|] w1];
    simpl in *; auto.
Qed.

Lemma search_once_quiet C E keyword input_url w :
  quiet w (snd (search_once C E keyword input_url w)).
Proof.
  apply (search_once_preserves C E quiet quiet_refl quiet_trans).
  - intros n w0. split; [reflexivity|]. exists []. simpl.
    rewrite app_nil_r. split; reflexivity.
  - intros. apply cached_execute_quiet.
Qed.

Section SinkFacts.
Context (E : env).

Lemma append_csv_loop_quiet header rows left attempt w :
  quiet w (snd (append_csv_loop E header rows left attempt w)).
Proof.
  revert attempt w. induction left as [|left IH]; intros attempt w; simpl.
  { apply quiet_refl. }
  destruct (csv_out E (csv_tries w)) as [|opened written]; simpl.
  - split; [reflexivity|]. eexists. split; [reflexivity|reflexivity].
  - eapply quiet_trans; [|apply IH].
    split; [reflexivity|]. eexists. split; [simpl|].
    + rewrite <- app_assoc. reflexivity.
    + reflexivity.
Qed.

Lemma append_sheets_loop_quiet rows left attempt w :
  quiet w (snd (append_sheets_loop E rows left attempt w)).
Proof.
  revert attempt w. induction left as [|left IH]; intros attempt w; simpl.
  { apply quiet_refl. }
  destruct (sheets_out E (sheets_tries w)) as [|landed|name landed]; simpl.
  - split; [reflexivity|]. eexists. split; [reflexivity|reflexivity].
  - eapply quiet_trans; [|apply IH].
    split; [reflexivity|]. eexists. split; [simpl|].
    + rewrite <- app_assoc. reflexivity.
    + reflexivity.
  - split; [reflexivity|]. eexists. split; [reflexivity|reflexivity].
Qed.

Lemma flush_quiet rows w : quiet w (snd (flush E rows w)).
Proof.
  unfold flush, append_to_sheets_with_retry, append_csv_batch.
  eapply quiet_trans; [apply append_csv_loop_quiet|].
  set (a := snd (append_csv_loop E _ rows 3 1 w)).
  pose proof (append_sheets_loop_quiet rows 5 1 a) as H.
  destruct (append_sheets_loop E rows 5 1 a) as [[b|e|] w']; exact H.
Qed.

End SinkFacts.

Section CursorFacts.
Context (C : config) (E : env) (keywords input_urls : list string).

(** The cursor steps of the loop from [idx]: some keywords completed,
    then possibly one taken up and abandoned to an exception; the
    stored cursor is [idx] plus the number completed, and a loop that
    ends normally has completed them all. *)
Lemma main_loop_steps todo start idx l w :
  exists evs (n : nat) (aborted : bool),
    trace (snd (main_loop C E keywords input_urls todo start idx l w))
      = (trace w ++ evs)%list
    /\ cursor_steps evs
         = (completed_steps n idx
            ++ (if aborted then [Started (idx + Z.of_nat n)] else []))%list
    /\ prog (snd (main_loop C E keywords input_urls todo start idx l w))
         = match n with O => prog w | S _ => Some (idx + Z.of_nat n) end
    /\ (n <= todo)%nat
    /\ (fst (fst (main_loop C E keywords input_urls todo start idx l w)) = Ret tt
        -> n = todo /\ aborted = false).
Proof.
  revert idx l w. induction todo as [|todo IH]; intros idx l w; simpl.
  { exists [], 0%nat, false. rewrite app_nil_r. repeat split; auto. }
  destruct (py_index keywords idx) as [kw|];
    [|exists [], 0%nat, false; simpl; rewrite app_nil_r;
      repeat split; auto; try lia; discriminate].
  destruct (input_url_at input_urls idx) as [input_url|e|];
    try (exists [], 0%nat, false; simpl; rewrite app_nil_r;
         repeat split; auto; try lia; discriminate).
  pose proof (search_once_quiet C E kw input_url (emit (EvKeyword idx) w))
    as [Hp (evs1 & Ht1 & Hq1)].
  destruct (search_once C E kw input_url (emit (EvKeyword idx) w))
    as [[res|e|] w1]; simpl in Hp, Ht1.
  2,3: exists (EvKeyword idx :: evs1), 0%nat, true; simpl;
       rewrite Ht1, <- app_assoc, Z.add_0_r; split; [reflexivity|];
       split; [change (cursor_steps (EvKeyword idx :: evs1))
                 with (Started idx :: cursor_steps evs1);
               rewrite Hq1; reflexivity|];
       split; [exact Hp|]; split; [lia|discriminate].
  set (l1 := {| all_res := (all_res l ++ res)%list;
                batch_res := (batch_res l ++ res)%list |}).
  set (w2 := emit (EvProgress (idx + 1)) (with_prog (idx + 1) w1)).
  assert (Hw2 : trace w2
                = (trace w ++ EvKeyword idx :: evs1 ++ [EvProgress (idx + 1)])%list).
  { subst w2. simpl. rewrite Ht1, <- !app_assoc. reflexivity. }
  assert (Hs2 : cursor_steps (EvKeyword idx :: evs1 ++ [EvProgress (idx + 1)])
                = [Started idx; Advanced (idx + 1)]).
  { change (cursor_steps (EvKeyword idx :: evs1 ++ [EvProgress (idx + 1)]))
      with (Started idx :: cursor_steps (evs1 ++ [EvProgress (idx + 1)])).
    rewrite cursor_steps_app, Hq1. reflexivity. }
  assert (Hnext : forall l' w3, quiet w2 w3 ->
    exists evs (n : nat) (aborted : bool),
      trace (snd (main_loop C E keywords input_urls todo start (idx + 1) l' w3))
        = (trace w ++ evs)%list
      /\ cursor_steps evs
         = (completed_steps n idx
            ++ (if aborted then [Started (idx + Z.of_nat n)] else []))%list
      /\ prog (snd (main_loop C E keywords input_urls todo start (idx + 1) l' w3))
         = match n with O => prog w | S _ => Some (idx + Z.of_nat n) end
      /\ (n <= S todo)%nat
      /\ (fst (fst (main_loop C E keywords input_urls todo start (idx + 1) l' w3))
          = Ret tt -> n = S todo /\ aborted = false)).
  { intros l' w3 [Hp3 (evs3 & Ht3 & Hq3)].
    destruct (IH (idx + 1) l' w3)
      as (evs & n & aborted & Ht & Hs & Hpr & Hle & Hret).
    exists ((EvKeyword idx :: evs1 ++ [EvProgress (idx + 1)]) ++ evs3 ++ evs)%list,
      (S n), aborted.
    split; [rewrite Ht, Ht3, Hw2, <- !app_assoc; reflexivity|].
    split.
    { rewrite !cursor_steps_app, Hs2, Hq3, Hs. simpl.
      replace (idx + Z.of_nat (S n)) with (idx + 1 + Z.of_nat n) by lia.
      reflexivity. }
    split.
    { rewrite Hpr. destruct n as [|n'].
      + rewrite Hp3. subst w2. simpl. f_equal; lia.
      + f_equal; lia. }
    split; [lia|]. intros Hr. destruct (Hret Hr) as [-> ->]. auto. }
  assert (Hhalt : forall w3, quiet w2 w3 ->
    exists evs (n : nat) (aborted : bool),
      trace w3 = (trace w ++ evs)%list
      /\ cursor_steps evs
         = (completed_steps n idx
            ++ (if aborted then [Started (idx + Z.of_nat n)] else []))%list
      /\ prog w3 = match n with O => prog w | S _ => Some (idx + Z.of_nat n) end
      /\ (n <= S todo)%nat).
  { intros w3 [Hp3 (evs3 & Ht3 & Hq3)].
    exists ((EvKeyword idx :: evs1 ++ [EvProgress (idx + 1)]) ++ evs3)%list,
      1%nat, false.
    split; [rewrite Ht3, Hw2, <- !app_assoc; reflexivity|].
    split; [rewrite cursor_steps_app, Hs2, Hq3; reflexivity|].
    split; [rewrite Hp3; reflexivity|lia]. }
  destruct (BATCH_SIZE C =? 0).
  { destruct (Hhalt w2 (quiet_refl w2)) as (evs & n & a & H1 & H2 & H3 & H4).
    exists evs, n, a. simpl. repeat split; auto; discriminate. }
  destruct ((idx + 1 - start) mod BATCH_SIZE C =? 0); [|apply Hnext, quiet_refl].
  pose proof (flush_quiet E (batch_res l ++ res)%list w2) as Hf.
  destruct (flush E (batch_res l ++ res)%list w2) as [[u|e|] w3]; simpl in Hf.
  - apply Hnext. exact Hf.
  - destruct (Hhalt w3 Hf) as (evs & n & a & H1 & H2 & H3 & H4).
    exists evs, n, a. simpl. repeat split; auto; discriminate.
  - destruct (Hhalt w3 Hf) as (evs & n & a & H1 & H2 & H3 & H4).
    exists evs, n, a. simpl. repeat split; auto; discriminate.
Qed.

(** A loop that ends normally leaves the cursor after its last keyword. *)
Lemma main_loop_ret_prog todo start idx l w l' w' :
  main_loop C E keywords input_urls todo start idx l w = (Ret tt, l', w') ->
  prog w' = match todo with
            | O => prog w
            | S _ => Some (idx + Z.of_nat todo)
            end.
Proof.
  intros Hrun.
  destruct (main_loop_steps todo start idx l w)
    as (evs & n & aborted & _ & _ & Hp & _ & Hret).
  rewrite Hrun in Hp, Hret. simpl in Hp, Hret.
  destruct (Hret eq_refl) as [-> _]. exact Hp.
Qed.

(** The loop over [k + m] keywords is the loop over [k] keywords followed,
    if that ended normally, by the loop over the next [m]. *)
Lemma main_loop_split k m start idx l w :
  main_loop C E keywords input_urls (k + m) start idx l w
  = match main_loop C E keywords input_urls k start idx l w with
    | (Ret _, l', w') =>
        main_loop C E keywords input_urls m start (idx + Z.of_nat k) l' w'
    | (Raise e, l', w') => (Raise e, l', w')
    | (Timeout, l', w') => (Timeout, l', w')
    end.
Proof.
  revert idx l w. induction k as [|k IH]; intros idx l w.
  { simpl. rewrite Z.add_0_r. reflexivity. }
  replace (idx + Z.of_nat (S k)) with (idx + 1 + Z.of_nat k) by lia.
  change (S k + m)%nat with (S (k + m)). cbn [main_loop].
  destruct (py_index keywords idx) as [kw|]; [|reflexivity].
  destruct (input_url_at input_urls idx) as [input_url|e|]; try reflexivity.
  destruct (search_once C E kw input_url (emit (EvKeyword idx) w))
    as [[res|e|] w1]; try reflexivity.
  destruct (BATCH_SIZE C =? 0); [reflexivity|].
  destruct ((idx + 1 - start) mod BATCH_SIZE C =? 0); [|apply IH].
  destruct (flush E _ _) as [[u|e|] w3]; [apply IH|reflexivity|reflexivity].
Qed.

(** The keyword after [k] completed ones: the cursor is written right
    after its search has returned, and not when its search raised. *)
Lemma main_loop_keyword k todo start l w lk wk kw input_url :
  (k < todo)%nat ->
  main_loop C E keywords input_urls k start start l w = (Ret tt, lk, wk) ->
  py_index keywords (start + Z.of_nat k) = Some kw ->
  input_url_at input_urls (start + Z.of_nat k) = Ret input_url ->
  (forall e w1,
     search_once C E kw input_url (emit (EvKeyword (start + Z.of_nat k)) wk)
     = (Raise e, w1) ->
     main_loop C E keywords input_urls todo start start l w = (Raise e, lk, w1)
     /\ prog w1 = prog wk)
  /\ (forall res w1,
        search_once C E kw input_url (emit (EvKeyword (start + Z.of_nat k)) wk)
        = (Ret res, w1) ->
        exists evs,
          trace (snd (main_loop C E keywords input_urls (S k) start start l w))
          = (trace w1 ++ EvProgress (start + Z.of_nat k + 1) :: evs)%list
          /\ cursor_steps evs = []
          /\ prog (snd (main_loop C E keywords input_urls (S k) start start l w))
             = Some (start + Z.of_nat k + 1)
          /\ all_res (snd (fst (main_loop C E keywords input_urls (S k)
                                  start start l w)))
             = (all_res lk ++ res)%list).
Proof.
  intros Hk Hfirst Hkw Hurl. split.
  - intros e w1 Hs.
    replace todo with (k + S (todo - S k))%nat by lia.
    rewrite main_loop_split, Hfirst. cbn [main_loop].
    rewrite Hkw, Hurl, Hs. split; [reflexivity|].
    pose proof (search_once_quiet C E kw input_url
                  (emit (EvKeyword (start + Z.of_nat k)) wk)) as [Hp _].
    rewrite Hs in Hp. exact Hp.
  - intros res w1 Hs.
    replace (S k) with (k + 1)%nat by lia.
    rewrite main_loop_split, Hfirst. cbn [main_loop].
    rewrite Hkw, Hurl, Hs.
    set (idx := start + Z.of_nat k).
    set (l1 := {| all_res := (all_res lk ++ res)%list;
                  batch_res := (batch_res lk ++ res)%list |}).
    set (w2 := emit (EvProgress (idx + 1)) (with_prog (idx + 1) w1)).
    assert (Hdone : forall w3, quiet w2 w3 ->
              exists evs,
                trace w3 = (trace w1 ++ EvProgress (idx + 1) :: evs)%list
                /\ cursor_steps evs = [] /\ prog w3 = Some (idx + 1)).
    { intros w3 [Hp3 (evs3 & Ht3 & Hq3)]. exists evs3.
      split; [rewrite Ht3; subst w2; simpl; rewrite <- app_assoc; reflexivity|].
      split; [exact Hq3|]. rewrite Hp3. reflexivity. }
    destruct (BATCH_SIZE C =? 0).
    { destruct (Hdone w2 (quiet_refl w2)) as (evs & H1 & H2 & H3).
      exists evs. simpl. auto. }
    destruct ((idx + 1 - start) mod BATCH_SIZE C =? 0).
    + pose proof (flush_quiet E (batch_res l1) w2) as Hf.
      destruct (flush E (batch_res l1) w2) as [[u|e|] w3]; simpl in Hf;
        destruct (Hdone w3 Hf) as (evs & H1 & H2 & H3);
        exists evs; simpl; auto.
    + destruct (Hdone w2 (quiet_refl w2)) as (evs & H1 & H2 & H3).
      exists evs. simpl. auto.
Qed.

End CursorFacts.

Lemma completed_steps_respect start n idx :
  start <= idx -> Forall (step_respects start) (completed_steps n idx).
Proof.
  revert idx. induction n as [|n IH]; intros idx Hle; simpl; constructor.
  - exact Hle.
  - constructor; [simpl; lia|]. apply IH. lia.
Qed.

Lemma quiet_close_stores w : quiet w (close_stores w).
Proof.
  unfold close_stores.
  eapply quiet_trans; apply quiet_emit; reflexivity.
Qed.

Lemma final_flush_quiet E l w : quiet w (snd (final_flush E l w)).
Proof.
  unfold final_flush. destruct (batch_res l) as [|r rest]; [apply quiet_refl|].
  pose proof (flush_quiet E (r :: rest) w) as H.
  destruct (flush E (r :: rest) w) as [[u|e|] w']; exact H.
Qed.

(** What the end of the script does to the world the loop left. *)
Lemma main_quiet_end C E keywords input_urls w :
  quiet
    (snd (main_loop C E keywords input_urls
            (Z.to_nat (Z.of_nat (List.length keywords) - default 0 (prog w)))
            (default 0 (prog w)) (default 0 (prog w))
            {| all_res := []; batch_res := [] |} w))
    (snd (main C E keywords input_urls w)).
Proof.
  unfold main.
  destruct (main_loop C E keywords input_urls _ _ _ _ w) as [[r l] w1]. simpl.
  assert (Hfinal : quiet w1 (snd (final_flush E l (close_stores w1)))).
  { eapply quiet_trans; [apply quiet_close_stores|apply final_flush_quiet]. }
  destruct r as [u|e|]; [|destruct e|];
    first [exact Hfinal|exact (quiet_close_stores w1)].
Qed.

(** One run of the script, as far as the cursor is concerned. *)
Lemma main_cursor C E keywords input_urls w :
  let start := default 0 (prog w) in
  let todo := Z.to_nat (Z.of_nat (List.length keywords) - start) in
  let w' := snd (main C E keywords input_urls w) in
  exists evs (n : nat) (aborted : bool),
    trace w' = (trace w ++ evs)%list
    /\ cursor_steps evs
       = (completed_steps n start
          ++ (if aborted then [Started (start + Z.of_nat n)] else []))%list
    /\ Forall (step_respects start) (cursor_steps evs)
    /\ prog w' = match n with O => prog w | S _ => Some (start + Z.of_nat n) end
    /\ (n <= todo)%nat
    /\ start <= default 0 (prog w').
Proof.
  intros start todo w'. subst w'.
  destruct (main_quiet_end C E keywords input_urls w)
    as [Hp3 (evs3 & Ht3 & Hq3)].
  fold start in Hp3, Ht3. fold todo in Hp3, Ht3.
  destruct (main_loop_steps C E keywords input_urls todo start start
              {| all_res := []; batch_res := [] |} w)
    as (evs & n & aborted & Ht & Hs & Hp & Hle & _).
  exists (evs ++ evs3)%list, n, aborted.
  assert (Hsteps : cursor_steps (evs ++ evs3)
                   = (completed_steps n start
                      ++ (if aborted then [Started (start + Z.of_nat n)] else []))%list)
    by (rewrite cursor_steps_app, Hq3, app_nil_r; exact Hs).
  split; [rewrite Ht3, Ht, app_assoc; reflexivity|].
  split; [exact Hsteps|]. split; [|split; [|split]].
  - rewrite Hsteps. apply Forall_app. split.
    + apply completed_steps_respect. lia.
    + destruct aborted; constructor; [simpl; lia|constructor].
  - rewrite Hp3. exact Hp.
  - exact Hle.
  - rewrite Hp3, Hp. destruct n; [subst start; lia|simpl; lia].
Qed.

(** C6.  In a run that finds the cursor at [start] (the persisted value,
    0 when there is none), the keywords taken up are [start], [start + 1],
    ... in this order, at most as many as are left.  After [k] keywords
    have been completed the cursor is [start + k]; for the next keyword
    it is written as [idx + 1] right after [search_once] has returned the
    rows of keyword [idx], which are in [all_res] by then, and it is not
    written when that search raised: the loop ends there with the cursor
    still at [idx], and so does the script.  So no keyword index below
    the cursor is processed, every value written exceeds [start], and the
    persisted cursor at the end is at least [start].  A further run
    resumed from the world the first one left processes no index below
    the cursor it finds, hence none below [start], and again leaves the
    cursor at least as large. *)
Theorem progress_cursor_monotone (C : config) (E : env)
    (keywords input_urls : list string) (w : world) :
  let start := default 0 (prog w) in
  let todo := Z.to_nat (Z.of_nat (List.length keywords) - start) in
  let loop k :=
    main_loop C E keywords input_urls k start start
      {| all_res := []; batch_res := [] |} w in
  let w' := snd (main C E keywords input_urls w) in
  (exists evs (n : nat) (aborted : bool),
     trace w' = (trace w ++ evs)%list
     /\ cursor_steps evs
        = (completed_steps n start
           ++ (if aborted then [Started (start + Z.of_nat n)] else []))%list
     /\ Forall (step_respects start) (cursor_steps evs)
     /\ prog w' = match n with O => prog w | S _ => Some (start + Z.of_nat n) end
     /\ (n <= todo)%nat)
  /\ (forall (k : nat) lk wk kw input_url,
        (k < todo)%nat ->
        loop k = (Ret tt, lk, wk) ->
        py_index keywords (start + Z.of_nat k) = Some kw ->
        input_url_at input_urls (start + Z.of_nat k) = Ret input_url ->
        let idx := start + Z.of_nat k in
        default 0 (prog wk) = idx
        /\ (forall e w1,
              search_once C E kw input_url (emit (EvKeyword idx) wk)
              = (Raise e, w1) ->
              loop todo = (Raise e, lk, w1)
              /\ prog w1 = prog wk /\ prog w' = prog wk)
        /\ (forall res w1,
              search_once C E kw input_url (emit (EvKeyword idx) wk)
              = (Ret res, w1) ->
              exists evs,
                trace (snd (loop (S k)))
                = (trace w1 ++ EvProgress (idx + 1) :: evs)%list
                /\ cursor_steps evs = []
                /\ prog (snd (loop (S k))) = Some (idx + 1)
                /\ all_res (snd (fst (loop (S k)))) = (all_res lk ++ res)%list))
  /\ start <= default 0 (prog w')
  /\ forall (C' : config) (E' : env) (keywords' input_urls' : list string),
       let w'' := snd (main C' E' keywords' input_urls' w') in
       exists evs',
         trace w'' = (trace w' ++ evs')%list
         /\ Forall (step_respects (default 0 (prog w'))) (cursor_steps evs')
         /\ Forall (step_respects start) (cursor_steps evs')
         /\ default 0 (prog w') <= default 0 (prog w'').
Proof.
  intros start todo loop w'.
  destruct (main_cursor C E keywords input_urls w)
    as (evs & n & aborted & Ht & Hs & Hr & Hp & Hn & Hle).
  fold start in Hs, Hr, Hp, Hn, Hle. fold todo in Hn. fold w' in Ht, Hp, Hle.
  split; [exists evs, n, aborted; auto|]. split; [|split; [exact Hle|]].
  - intros k lk wk kw input_url Hk Hloop Hkw Hurl idx. subst loop.
    destruct (main_loop_keyword C E keywords input_urls k todo start _ w
                lk wk kw input_url Hk Hloop Hkw Hurl) as [Hraise Hret].
    split; [|split; [|exact Hret]].
    + rewrite (main_loop_ret_prog C E keywords input_urls _ _ _ _ _ _ _ Hloop).
      destruct k; [subst idx; simpl; lia|reflexivity].
    + intros e w1 Hsearch. destruct (Hraise e w1 Hsearch) as [Hrun Hprog].
      split; [exact Hrun|]. split; [exact Hprog|].
      destruct (main_quiet_end C E keywords input_urls w) as [Hq _].
      fold start in Hq. fold todo in Hq. rewrite Hrun in Hq. simpl in Hq.
      subst w'. rewrite Hq. exact Hprog.
  - intros C' E' keywords' input_urls' w''.
    destruct (main_cursor C' E' keywords' input_urls' w')
      as (evs' & n' & aborted' & Ht' & _ & Hr' & _ & _ & Hle').
    exists evs'. split; [exact Ht'|]. split; [exact Hr'|]. split; [|exact Hle'].
    eapply Forall_impl; [exact Hr'|].
    intros [idx|v]; simpl; lia.
Qed.

(** ** Retries of the deliveries *)

Lemma delays_succ attempt j :
  delays attempt (S j) = 1 * 2 ^ (attempt - 1) :: delays (attempt + 1) j.
Proof.
  unfold delays. simpl. f_equal.
  - f_equal. f_equal. lia.
  - rewrite <- seq_shift, map_map. apply map_ext. intros i.
    f_equal. f_equal. lia.
Qed.

Lemma delays_first j :
  (j <= 5)%nat -> delays 1 j = take j [1; 2; 4; 8; 16].
Proof.
  intros Hj. do 6 (destruct j as [|j]; [reflexivity|]). lia.
Qed.

Section RetryFacts.
Context (E : env).

Lemma csv_attempts_last text n m file :
  csv_attempts E text n (S m) file
  = appended (csv_out E (n + m)) text (csv_attempts E text n m file).
Proof.
  revert n file. induction m as [|m IH]; intros n file.
  { simpl. rewrite Nat.add_0_r. reflexivity. }
  change (csv_attempts E text n (S (S m)) file)
    with (csv_attempts E text (S n) (S m) (appended (csv_out E n) text file)).
  rewrite IH. replace (S n + m)%nat with (n + S m)%nat by lia. reflexivity.
Qed.

Lemma save_attempts_last text n m file :
  save_attempts E text n (S m) file
  = overwritten (csv_out E (n + m)) text (save_attempts E text n m file).
Proof.
  revert n file. induction m as [|m IH]; intros n file.
  { simpl. rewrite Nat.add_0_r. reflexivity. }
  change (save_attempts E text n (S (S m)) file)
    with (save_attempts E text (S n) (S m) (overwritten (csv_out E n) text file)).
  rewrite IH. replace (S n + m)%nat with (n + S m)%nat by lia. reflexivity.
Qed.

Lemma sheet_attempts_last rows n m s :
  sheet_attempts E rows n (S m) s
  = landed_rows (sheets_out E (n + m)) rows (sheet_attempts E rows n m s).
Proof.
  revert n s. induction m as [|m IH]; intros n s.
  { simpl. rewrite Nat.add_0_r. reflexivity. }
  change (sheet_attempts E rows n (S (S m)) s)
    with (sheet_attempts E rows (S n) (S m) (landed_rows (sheets_out E n) rows s)).
  rewrite IH. replace (S n + m)%nat with (n + S m)%nat by lia. reflexivity.
Qed.

(** Failed attempts that did not open the file leave it as it was. *)
Lemma csv_attempts_clean text n m file :
  (forall i, (i < m)%nat ->
     csv_out E (n + i) <> WriteOk /\ clean_write (csv_out E (n + i))) ->
  csv_attempts E text n m file = file.
Proof.
  induction m as [|m IH]; intros H; [reflexivity|].
  rewrite csv_attempts_last, IH by (intros i Hi; apply H; lia).
  destruct (H m ltac:(lia)) as [Hne Hc].
  destruct (csv_out E (n + m)) as [|[|] k]; simpl in *;
    [congruence|contradiction|reflexivity].
Qed.

(** Caught failures that did not reach the sheet leave it as it was. *)
Lemma sheet_attempts_clean rows n m s :
  (forall i, (i < m)%nat -> sheets_out E (n + i) = SheetsCaught false) ->
  sheet_attempts E rows n m s = s.
Proof.
  induction m as [|m IH]; intros H; [reflexivity|].
  rewrite sheet_attempts_last, IH by (intros i Hi; apply H; lia).
  rewrite (H m ltac:(lia)). reflexivity.
Qed.

(** [append_csv_batch]: [j] failed attempts, each followed by its pause,
    then a successful one unless [j] is the number allowed. *)
Lemma append_csv_loop_run header rows left attempt w :
  exists (j : nat) evs,
    (j <= left)%nat
    /\ (forall i, (i < j)%nat -> csv_out E (csv_tries w + i) <> WriteOk)
    /\ trace (snd (append_csv_loop E header rows left attempt w))
       = (trace w ++ evs)%list
    /\ sleeps evs = delays attempt j
    /\ ((0 < left)%nat -> Exists (csv_attempt rows) evs)
    /\ sheet (snd (append_csv_loop E header rows left attempt w)) = sheet w
    /\ sheets_tries (snd (append_csv_loop E header rows left attempt w))
       = sheets_tries w
    /\ if fst (append_csv_loop E header rows left attempt w)
       then (j < left)%nat
            /\ csv_out E (csv_tries w + j) = WriteOk
            /\ csv (snd (append_csv_loop E header rows left attempt w))
               = csv_attempts E (csv_text header rows) (csv_tries w) (S j)
                   (csv w)
       else j = left
            /\ csv (snd (append_csv_loop E header rows left attempt w))
               = csv_attempts E (csv_text header rows) (csv_tries w) j (csv w).
Proof.
  revert attempt w. induction left as [|left IH]; intros attempt w.
  { exists 0%nat, []. simpl. rewrite app_nil_r.
    repeat split; auto; try lia; intros i Hi; lia. }
  cbn [append_csv_loop].
  destruct (csv_out E (csv_tries w)) as [|opened written] eqn:Hok.
  - exists 0%nat, [EvCsv header rows true]. simpl. rewrite Nat.add_0_r, Hok.
    repeat split; auto; try lia; try (intros i Hi; lia).
    intros _. constructor. exists header, true. reflexivity.
  - set (w1 := emit (EvSleep (1 * 2 ^ (attempt - 1)))
                 (emit (EvCsv header rows false)
                    (with_csv (appended (WriteFail opened written)
                                 (csv_text header rows) (csv w)) w))).
    destruct (IH (attempt + 1) w1)
      as (j & evs & Hj & Hfail & Ht & Hs & _ & Hsh & Hst & Hres).
    exists (S j),
      ([EvCsv header rows false; EvSleep (1 * 2 ^ (attempt - 1))] ++ evs)%list.
    split; [lia|]. split.
    { intros [|i] Hi; [rewrite Nat.add_0_r, Hok; discriminate|].
      replace (csv_tries w + S i)%nat with (csv_tries w1 + i)%nat
        by (subst w1; simpl; lia).
      apply Hfail. lia. }
    split; [rewrite Ht; subst w1; simpl; rewrite <- !app_assoc; reflexivity|].
    split; [rewrite delays_succ, <- Hs; reflexivity|].
    split; [intros _; constructor; exists header, false; reflexivity|].
    split; [exact Hsh|]. split; [exact Hst|].
    assert (Hstep : forall m,
              csv_attempts E (csv_text header rows) (csv_tries w1) m (csv w1)
              = csv_attempts E (csv_text header rows) (csv_tries w) (S m) (csv w)).
    { intros m. simpl. rewrite Hok. reflexivity. }
    destruct (fst (append_csv_loop E header rows left (attempt + 1) w1)).
    + destruct Hres as (Hlt & Hgood & Hcsv). split; [lia|]. split.
      * replace (csv_tries w + S j)%nat with (csv_tries w1 + j)%nat
          by (subst w1; simpl; lia).
        exact Hgood.
      * rewrite Hcsv. apply Hstep.
    + destruct Hres as (-> & Hcsv). split; [reflexivity|].
      rewrite Hcsv. apply Hstep.
Qed.

(** [save_csv_with_retry]: the same loop in write mode. *)
Lemma save_csv_loop_run rows left attempt w :
  exists (j : nat) evs,
    (j <= left)%nat
    /\ (forall i, (i < j)%nat -> csv_out E (csv_tries w + i) <> WriteOk)
    /\ trace (snd (save_csv_loop E rows left attempt w)) = (trace w ++ evs)%list
    /\ sleeps evs = delays attempt j
    /\ if fst (save_csv_loop E rows left attempt w)
       then (j < left)%nat
            /\ csv_out E (csv_tries w + j) = WriteOk
            /\ csv (snd (save_csv_loop E rows left attempt w))
               = save_attempts E (csv_text true rows) (csv_tries w) (S j) (csv w)
       else j = left
            /\ csv (snd (save_csv_loop E rows left attempt w))
               = save_attempts E (csv_text true rows) (csv_tries w) j (csv w).
Proof.
  revert attempt w. induction left as [|left IH]; intros attempt w.
  { exists 0%nat, []. simpl. rewrite app_nil_r.
    repeat split; auto; try lia; intros i Hi; lia. }
  cbn [save_csv_loop].
  destruct (csv_out E (csv_tries w)) as [|opened written] eqn:Hok.
  - exists 0%nat, [EvCsv true rows true]. simpl. rewrite Nat.add_0_r, Hok.
    repeat split; auto; try lia; intros i Hi; lia.
  - set (w1 := emit (EvSleep (1 * 2 ^ (attempt - 1)))
                 (emit (EvCsv true rows false)
                    (with_csv (overwritten (WriteFail opened written)
                                 (csv_text true rows) (csv w)) w))).
    destruct (IH (attempt + 1) w1) as (j & evs & Hj & Hfail & Ht & Hs & Hres).
    exists (S j),
      ([EvCsv true rows false; EvSleep (1 * 2 ^ (attempt - 1))] ++ evs)%list.
    split; [lia|]. split.
    { intros [|i] Hi; [rewrite Nat.add_0_r, Hok; discriminate|].
      replace (csv_tries w + S i)%nat with (csv_tries w1 + i)%nat
        by (subst w1; simpl; lia).
      apply Hfail. lia. }
    split; [rewrite Ht; subst w1; simpl; rewrite <- !app_assoc; reflexivity|].
    split; [rewrite delays_succ, <- Hs; reflexivity|].
    assert (Hstep : forall m,
              save_attempts E (csv_text true rows) (csv_tries w1) m (csv w1)
              = save_attempts E (csv_text true rows) (csv_tries w) (S m) (csv w)).
    { intros m. simpl. rewrite Hok. reflexivity. }
    destruct (fst (save_csv_loop E rows left (attempt + 1) w1)).
    + destruct Hres as (Hlt & Hgood & Hcsv). split; [lia|]. split.
      * replace (csv_tries w + S j)%nat with (csv_tries w1 + j)%nat
          by (subst w1; simpl; lia).
        exact Hgood.
      * rewrite Hcsv. apply Hstep.
    + destruct Hres as (-> & Hcsv). split; [reflexivity|].
      rewrite Hcsv. apply Hstep.
Qed.

(** [append_to_sheets_with_retry]: [j] caught failures, each followed by
    its pause, then a success or an exception that is not caught, unless
    [j] is the number of attempts allowed. *)
Lemma append_sheets_loop_run rows left attempt w :
  exists (j : nat) evs,
    (j <= left)%nat
    /\ (forall i, (i < j)%nat ->
          exists landed, sheets_out E (sheets_tries w + i) = SheetsCaught landed)
    /\ trace (snd (append_sheets_loop E rows left attempt w))
       = (trace w ++ evs)%list
    /\ sleeps evs = delays attempt j
    /\ ((0 < left)%nat -> Exists (sheets_attempt rows) evs)
    /\ csv (snd (append_sheets_loop E rows left attempt w)) = csv w
    /\ match fst (append_sheets_loop E rows left attempt w) with
       | Ret ok =>
           sheet (snd (append_sheets_loop E rows left attempt w))
           = sheet_attempts E rows (sheets_tries w) (if ok then S j else j)
               (sheet w)
           /\ if ok then (j < left)%nat
                         /\ sheets_out E (sheets_tries w + j) = SheetsOk
              else j = left
       | Raise e =>
           sheet (snd (append_sheets_loop E rows left attempt w))
           = sheet_attempts E rows (sheets_tries w) (S j) (sheet w)
           /\ (j < left)%nat
           /\ exists name landed,
                sheets_out E (sheets_tries w + j) = SheetsUncaught name landed
                /\ e = OtherError name
       | Timeout => False
       end.
Proof.
  revert attempt w. induction left as [|left IH]; intros attempt w.
  { exists 0%nat, []. simpl. rewrite app_nil_r.
    repeat split; auto; try lia; intros i Hi; lia. }
  cbn [append_sheets_loop].
  destruct (sheets_out E (sheets_tries w)) as [|landed|name landed] eqn:Hok.
  - exists 0%nat, [EvSheets rows true]. simpl. rewrite Nat.add_0_r, Hok.
    repeat split; auto; try lia; try (intros i Hi; lia).
    intros _. constructor. exists true. reflexivity.
  - set (w1 := emit (EvSleep (1 * 2 ^ (attempt - 1)))
                 (emit (EvSheets rows false)
                    (with_sheet (landed_rows (SheetsCaught landed) rows
                                   (sheet w)) w))).
    destruct (IH (attempt + 1) w1)
      as (j & evs & Hj & Hfail & Ht & Hs & _ & Hcsv & Hres).
    exists (S j),
      ([EvSheets rows false; EvSleep (1 * 2 ^ (attempt - 1))] ++ evs)%list.
    split; [lia|]. split.
    { intros [|i] Hi; [rewrite Nat.add_0_r, Hok; eauto|].
      replace (sheets_tries w + S i)%nat with (sheets_tries w1 + i)%nat
        by (subst w1; simpl; lia).
      apply Hfail. lia. }
    split; [rewrite Ht; subst w1; simpl; rewrite <- !app_assoc; reflexivity|].
    split; [rewrite delays_succ, <- Hs; reflexivity|].
    split; [intros _; constructor; exists false; reflexivity|].
    split; [exact Hcsv|].
    assert (Hstep : forall m,
              sheet_attempts E rows (sheets_tries w1) m (sheet w1)
              = sheet_attempts E rows (sheets_tries w) (S m) (sheet w)).
    { intros m. simpl. rewrite Hok. reflexivity. }
    assert (Hidx : (sheets_tries w + S j)%nat = (sheets_tries w1 + j)%nat)
      by (subst w1; simpl; lia).
    destruct (fst (append_sheets_loop E rows left (attempt + 1) w1))
      as [[|]|e|].
    + destruct Hres as (Hsheet & Hlt & Hgood).
      split; [rewrite Hsheet; apply Hstep|]. split; [lia|].
      rewrite Hidx. exact Hgood.
    + destruct Hres as (Hsheet & ->).
      split; [rewrite Hsheet; apply Hstep|reflexivity].
    + destruct Hres as (Hsheet & Hlt & Hname).
      split; [rewrite Hsheet; apply Hstep|]. split; [lia|].
      rewrite Hidx. exact Hname.
    + contradiction.
  - exists 0%nat, [EvSheets rows false]. simpl. rewrite Nat.add_0_r, Hok.
    repeat split; auto; try lia; try (intros i Hi; lia).
    + intros _. constructor. exists false. reflexivity.
    + eauto.
Qed.

End RetryFacts.

(** ** The end of a run *)

Section FlushFacts.
Context (E : env).

(** A flush attempts both deliveries with the rows it is given, the
    file first.  It raises exactly when an attempt on the sheet raises an
    exception that is not caught; each delivery is complete and single
    when its first attempt succeeds, and also when a later one does
    after failures that left nothing behind. *)
Lemma flush_run rows w :
  let header := match csv w with None => true | Some _ => false end in
  let out := flush E rows w in
  exists evs (mc ms : nat),
    trace (snd out) = (trace w ++ evs)%list
    /\ Exists (csv_attempt rows) evs
    /\ Exists (sheets_attempt rows) evs
    /\ (1 <= mc <= 3)%nat /\ (1 <= ms <= 5)%nat
    /\ csv (snd out)
       = csv_attempts E (csv_text header rows) (csv_tries w) mc (csv w)
    /\ sheet (snd out) = sheet_attempts E rows (sheets_tries w) ms (sheet w)
    /\ ((forall i, (i < 3)%nat -> clean_write (csv_out E (csv_tries w + i))) ->
        (exists i, (i < 3)%nat /\ csv_out E (csv_tries w + i) = WriteOk) ->
        csv (snd out) = Some (file_after (csv w) rows))
    /\ ((forall i, (i < 5)%nat -> clean_append (sheets_out E (sheets_tries w + i))) ->
        (exists i, (i < 5)%nat /\ sheets_out E (sheets_tries w + i) = SheetsOk) ->
        sheet (snd out) = (sheet w ++ rows)%list /\ fst out = Ret tt)
    /\ match fst out with
       | Ret _ =>
           forall i, (i < ms)%nat ->
             uncaught (sheets_out E (sheets_tries w + i)) = None
       | Raise e =>
           exists name,
             e = OtherError name
             /\ uncaught (sheets_out E (sheets_tries w + (ms - 1))) = Some name
       | Timeout => False
       end.
Proof.
  intros header out. subst out.
  unfold flush, append_to_sheets_with_retry, append_csv_batch. fold header.
  destruct (append_csv_loop_run E header rows 3 1 w)
    as (jc & e1 & Hjc & Hfc & Ht1 & _ & Hx1 & Hsh1 & Hst1 & Hres1).
  set (wc := snd (append_csv_loop E header rows 3 1 w)) in *.
  destruct (append_sheets_loop_run E rows 5 1 wc)
    as (js & e2 & Hjs & Hfs & Ht2 & _ & Hx2 & Hcsv2 & Hres2).
  rewrite Hst1 in Hfs, Hres2. rewrite Hsh1 in Hres2.
  set (mc := if fst (append_csv_loop E header rows 3 1 w) then S jc else jc).
  assert (Hmc : (1 <= mc <= 3)%nat
                /\ csv wc = csv_attempts E (csv_text header rows) (csv_tries w)
                              mc (csv w)).
  { subst mc. destruct (fst (append_csv_loop E header rows 3 1 w)).
    - destruct Hres1 as (Hlt & _ & Hc). split; [lia|exact Hc].
    - destruct Hres1 as (-> & Hc). split; [lia|exact Hc]. }
  destruct Hmc as [Hmc Hcsv].
  assert (Hclean : (forall i, (i < 3)%nat ->
                      clean_write (csv_out E (csv_tries w + i))) ->
                   (exists i, (i < 3)%nat /\ csv_out E (csv_tries w + i) = WriteOk) ->
                   csv wc = Some (file_after (csv w) rows)).
  { intros Hcl (i & Hi & Hok).
    destruct (fst (append_csv_loop E header rows 3 1 w)).
    - destruct Hres1 as (Hlt & Hgood & Hc). rewrite Hc, csv_attempts_last, Hgood.
      rewrite csv_attempts_clean
        by (intros k Hk; split; [apply Hfc; exact Hk|apply Hcl; lia]).
      unfold file_after, csv_text. subst header.
      destruct (csv w); reflexivity.
    - destruct Hres1 as (-> & _). exfalso. exact (Hfc i Hi Hok). }
  assert (Htrace : forall w', trace w' = (trace wc ++ e2)%list ->
                     trace w' = (trace w ++ e1 ++ e2)%list)
    by (intros w' H; rewrite H, Ht1, app_assoc; reflexivity).
  destruct (append_sheets_loop E rows 5 1 wc) as [[ok|e|] w'];
    simpl in Ht2, Hcsv2, Hres2; [| |contradiction].
  - destruct Hres2 as (Hsheet & Hok).
    exists (e1 ++ e2)%list, mc, (if ok then S js else js). simpl.
    split; [apply Htrace; exact Ht2|].
    split; [apply Exists_app; left; apply Hx1; lia|].
    split; [apply Exists_app; right; apply Hx2; lia|].
    split; [exact Hmc|].
    split; [destruct ok; [destruct Hok; lia|subst js; lia]|].
    split; [rewrite Hcsv2; exact Hcsv|]. split; [exact Hsheet|].
    split; [intros Hcl Hex; rewrite Hcsv2; apply Hclean; assumption|].
    split.
    + intros Hcl (i & Hi & Hgood). split; [|reflexivity].
      destruct ok.
      * destruct Hok as [Hlt Hj]. rewrite Hsheet, sheet_attempts_last, Hj.
        rewrite sheet_attempts_clean; [reflexivity|].
        intros k Hk. destruct (Hfs k Hk) as [landed Hl].
        destruct (Hcl k ltac:(lia)) as [Hc|Hc]; congruence.
      * subst js. destruct (Hfs i Hi) as [landed Hl]. congruence.
    + intros i Hi. destruct ok.
      * destruct Hok as [Hlt Hj].
        destruct (decide (i = js)) as [->|Hne]; [rewrite Hj; reflexivity|].
        destruct (Hfs i ltac:(lia)) as [landed ->]. reflexivity.
      * destruct (Hfs i Hi) as [landed ->]. reflexivity.
  - destruct Hres2 as (Hsheet & Hlt & name & landed & Hout & ->).
    exists (e1 ++ e2)%list, mc, (S js). simpl.
    split; [apply Htrace; exact Ht2|].
    split; [apply Exists_app; left; apply Hx1; lia|].
    split; [apply Exists_app; right; apply Hx2; lia|].
    split; [exact Hmc|]. split; [lia|].
    split; [rewrite Hcsv2; exact Hcsv|]. split; [exact Hsheet|].
    split; [intros Hcl Hex; rewrite Hcsv2; apply Hclean; assumption|].
    split.
    + intros Hcl _. exfalso.
      destruct (Hcl js ltac:(lia)) as [Hc|Hc]; congruence.
    + exists name. split; [reflexivity|].
      rewrite Nat.sub_0_r, Hout. reflexivity.
Qed.

End FlushFacts.

(** An error [execute] does not classify is raised at once: no sleep, no
    retry, no deactivation (lines 137-138). *)
Lemma execute_unclassified E fn units backoff_max w pos m' s :
  get_key (km w) = (Ret pos, m') ->
  net E (calls w) (key_at m' pos) fn = HttpFail s ->
  is_quota_error s = false ->
  is_rate_limit_error s = false ->
  execute E fn units backoff_max w
  = (Raise (HttpError s),
     emit (EvCall pos fn) (next_call (with_km (fun _ => m') w))).
Proof.
  intros Hk Hnet Hq Hr. unfold execute, execute_fuel. simpl.
  rewrite Hk. simpl. rewrite Hnet, Hq, Hr. reflexivity.
Qed.

(** The run C7 fails on: the quota is gone at the second keyword, so the
    row of the first is left for the final flush, whose append to the
    sheet raises an exception of a class line 200 does not catch.  The
    script ends with that exception, after the stores were closed and the
    file was written. *)
Lemma quota_exit_can_crash :
  let C := sample_config 1 in
  let E := with_sinks (fun _ => WriteOk)
             (fun _ => SheetsUncaught "RefreshError" false)
             (sample_env (quota_gone_after 3)) in
  let w := fresh_world ["KEY-A"] in
  let loop := main_loop C E ["k1"; "k2"] ["http://src/1"] 2 0 0
                {| all_res := []; batch_res := [] |} w in
  let run := main C E ["k1"; "k2"] ["http://src/1"] w in
  fst (fst loop) = Raise QuotaExceededAllKeys
  /\ fst (fst run) = Raise (OtherError "RefreshError")
  /\ fst (fst run) <> Ret tt
  /\ List.length (batch_res (snd (fst run))) = 1%nat
  /\ csv (snd run) = Some (Header :: map Data (batch_res (snd (fst run))))
  /\ sheet (snd run) = [].
Proof. vm_compute. repeat split; discriminate. Qed.

(** C7.  When the loop ends in [QuotaExceededAllKeys], the exception is
    swallowed: both stores are closed and the rows accumulated since the
    last flush, if any, are handed to both sinks, the file first.  The
    script then ends normally, unless an append to the sheet raises an
    exception that [append_to_sheets_with_retry] does not catch: that
    exception ends the script.  Each delivery is complete when one of its
    attempts succeeds and the failed ones before it left nothing behind.
    When the loop ends in any other exception, both stores are closed as
    well, but the exception leaves the script and the final flush does
    not run: no delivery is attempted and neither sink changes.  An error
    response that [execute] does not classify is such an exception: it is
    raised at once. *)
Theorem quota_exhaustion_is_graceful (C : config) (E : env)
    (keywords input_urls : list string) (w : world) :
  (forall r l w1,
     main_loop C E keywords input_urls
       (Z.to_nat (Z.of_nat (List.length keywords) - default 0 (prog w)))
       (default 0 (prog w)) (default 0 (prog w))
       {| all_res := []; batch_res := [] |} w = (r, l, w1) ->
     let run := main C E keywords input_urls w in
     (r = Raise QuotaExceededAllKeys ->
        exists evs,
          snd (fst run) = l
          /\ trace (snd run)
             = (trace w1 ++ [EvClose ProgressStore; EvClose CacheStore]
                ++ evs)%list
          /\ (batch_res l = [] -> evs = [] /\ fst (fst run) = Ret tt)
          /\ (batch_res l <> [] ->
                Exists (csv_attempt (batch_res l)) evs
                /\ Exists (sheets_attempt (batch_res l)) evs
                /\ ((forall i, (i < 3)%nat ->
                       clean_write (csv_out E (csv_tries w1 + i))) ->
                    (exists i, (i < 3)%nat
                               /\ csv_out E (csv_tries w1 + i) = WriteOk) ->
                    csv (snd run) = Some (file_after (csv w1) (batch_res l)))
                /\ ((forall i, (i < 5)%nat ->
                       clean_append (sheets_out E (sheets_tries w1 + i))) ->
                    (exists i, (i < 5)%nat
                               /\ sheets_out E (sheets_tries w1 + i) = SheetsOk) ->
                    sheet (snd run) = (sheet w1 ++ batch_res l)%list
                    /\ fst (fst run) = Ret tt)
                /\ exists ms : nat,
                     (1 <= ms <= 5)%nat
                     /\ sheet (snd run)
                        = sheet_attempts E (batch_res l) (sheets_tries w1) ms
                            (sheet w1)
                     /\ match fst (fst run) with
                        | Ret _ =>
                            forall i, (i < ms)%nat ->
                              uncaught (sheets_out E (sheets_tries w1 + i)) = None
                        | Raise e =>
                            exists name,
                              e = OtherError name
                              /\ uncaught (sheets_out E
                                             (sheets_tries w1 + (ms - 1)))
                                 = Some name
                        | Timeout => False
                        end))
     /\ (forall e, r = Raise e -> e <> QuotaExceededAllKeys ->
           exists w',
             run = (Raise e, l, w')
             /\ trace w' = (trace w1 ++ [EvClose ProgressStore; EvClose CacheStore])%list
             /\ csv w' = csv w1 /\ sheet w' = sheet w1))
  /\ (forall fn units backoff_max w0 pos m' s,
        get_key (km w0) = (Ret pos, m') ->
        net E (calls w0) (key_at m' pos) fn = HttpFail s ->
        is_quota_error s = false ->
        is_rate_limit_error s = false ->
        execute E fn units backoff_max w0
        = (Raise (HttpError s),
           emit (EvCall pos fn) (next_call (with_km (fun _ => m') w0)))).
Proof.
  split; [|intros; apply execute_unclassified; assumption].
  intros r l w1 Hloop run. subst run. unfold main. rewrite Hloop.
  assert (Hclose : trace (close_stores w1)
                   = (trace w1 ++ [EvClose ProgressStore; EvClose CacheStore])%list).
  { unfold close_stores. simpl. rewrite <- app_assoc. reflexivity. }
  split.
  - intros ->. unfold final_flush.
    destruct (batch_res l) as [|r0 rows] eqn:Hb.
    + exists []. simpl. split; [reflexivity|].
      split; [rewrite <- app_assoc; reflexivity|]. split; [auto|congruence].
    + destruct (flush_run E (r0 :: rows) (close_stores w1))
        as (evs & mc & ms & Ht & Hx1 & Hx2 & _ & Hms & _ & Hsheet & Hcsv
            & Hsh & Hres).
      change (csv (close_stores w1)) with (csv w1) in *.
      change (sheet (close_stores w1)) with (sheet w1) in *.
      change (csv_tries (close_stores w1)) with (csv_tries w1) in *.
      change (sheets_tries (close_stores w1)) with (sheets_tries w1) in *.
      exists evs.
      destruct (flush E (r0 :: rows) (close_stores w1)) as [[u|e|] w'];
        simpl in *; [| |contradiction].
      * split; [reflexivity|].
        split; [rewrite Ht, Hclose, <- app_assoc; reflexivity|].
        split; [discriminate|]. intros _.
        split; [exact Hx1|]. split; [exact Hx2|]. split; [exact Hcsv|].
        split; [intros H1 H2; split; [apply Hsh; assumption|reflexivity]|].
        exists ms. auto.
      * split; [reflexivity|].
        split; [rewrite Ht, Hclose, <- app_assoc; reflexivity|].
        split; [discriminate|]. intros _.
        split; [exact Hx1|]. split; [exact Hx2|]. split; [exact Hcsv|].
        split; [intros H1 H2; destruct (Hsh H1 H2); discriminate|].
        exists ms. auto.
  - intros e -> Hne. exists (close_stores w1).
    split; [destruct e; try reflexivity; contradiction|].
    split; [exact Hclose|]. split; reflexivity.
Qed.

Lemma quota_exhaustion_is_graceful_witness :
  let C := sample_config 1 in
  let E := sample_env (quota_gone_after 3) in
  let run := main C E ["k1"; "k2"] ["http://src/1"] (fresh_world ["KEY-A"]) in
  fst (fst run) = Ret tt
  /\ List.length (batch_res (snd (fst run))) = 1%nat
  /\ csv (snd run) = Some (Header :: map Data (batch_res (snd (fst run))))
  /\ sheet (snd run) = batch_res (snd (fst run)).
Proof.
  pose (C := sample_config 1). pose (E := sample_env (quota_gone_after 3)).
  pose (w := fresh_world ["KEY-A"]).
  destruct (main_loop C E ["k1"; "k2"] ["http://src/1"]
              (Z.to_nat (Z.of_nat (List.length ["k1"; "k2"]) - default 0 (prog w)))
              (default 0 (prog w)) (default 0 (prog w))
              {| all_res := []; batch_res := [] |} w) as [[r l] w1] eqn:Hloop.
  pose proof Hloop as Hval. vm_compute in Hval.
  injection Hval as Hr Hl' Hw1.
  assert (Hl : List.length (batch_res l) = 1%nat) by (rewrite <- Hl'; reflexivity).
  assert (Hcsv : csv w1 = None) by (rewrite <- Hw1; reflexivity).
  assert (Hsheet : sheet w1 = []) by (rewrite <- Hw1; reflexivity).
  symmetry in Hr.
  destruct (proj1 (proj1 (quota_exhaustion_is_graceful C E ["k1"; "k2"]
                            ["http://src/1"] w) r l w1 Hloop) Hr)
    as (evs & Hlocals & _ & _ & Hflush).
  fold C E w. cbv zeta. rewrite Hlocals.
  destruct Hflush as (_ & _ & Hc & Hs & _).
  { intros Hnil. rewrite Hnil in Hl. discriminate. }
  assert (Hcw : forall i, (i < 3)%nat -> clean_write (csv_out E (csv_tries w1 + i)))
    by (intros i _; exact I).
  assert (Hca : forall i, (i < 5)%nat ->
                  clean_append (sheets_out E (sheets_tries w1 + i)))
    by (intros i _; left; reflexivity).
  destruct (Hs Hca) as [Hsh Hret];
    [exists 0%nat; split; [lia|reflexivity]|].
  split; [exact Hret|]. split; [exact Hl|]. split.
  - rewrite (Hc Hcw); [rewrite Hcsv; reflexivity|].
    exists 0%nat. split; [lia|reflexivity].
  - rewrite Hsh, Hsheet. reflexivity.
Defined.

(** The other path at work: the same run, but the second keyword meets
    an error the script does not classify.  The exception leaves the
    script and the row of the first keyword reaches neither sink. *)
Example permanent_error_skips_final_flush :
  let C := sample_config 1 in
  let E := sample_env (bad_request_after 3) in
  let run := main C E ["k1"; "k2"] ["http://src/1"] (fresh_world ["KEY-A"]) in
  fst (fst run) = Raise (HttpError "<HttpError 400 badRequest>")
  /\ List.length (batch_res (snd (fst run))) = 1%nat
  /\ csv (snd run) = None
  /\ sheet (snd run) = []
  /\ sink_events (trace (snd run)) = [].
Proof. vm_compute. repeat split. Qed.

(** ** Cache keys *)

Lemma calls_keyed_app cur a b :
  calls_keyed cur a -> keyed b -> calls_keyed cur (a ++ b).
Proof.
  intros Ha Hb. revert cur Ha.
  induction a as [|e a IH]; intros cur Ha; simpl; [apply Hb|].
  destruct e; simpl in *; auto.
  destruct Ha as [Hc Ha]. split; [exact Hc|]. apply IH. exact Ha.
Qed.

Lemma keyed_app a b : keyed a -> keyed b -> keyed (a ++ b).
Proof. intros Ha Hb cur. apply calls_keyed_app; [apply Ha|exact Hb]. Qed.

Lemma grows_keyed_refl w : grows keyed w w.
Proof. exists []. rewrite app_nil_r. split; [reflexivity|]. intros cur. exact I. Qed.

Lemma grows_keyed_trans a b c :
  grows keyed a b -> grows keyed b c -> grows keyed a c.
Proof.
  intros (e1 & Ht1 & H1) (e2 & Ht2 & H2). exists (e1 ++ e2)%list.
  rewrite Ht2, Ht1, app_assoc. split; [reflexivity|]. apply keyed_app; assumption.
Qed.

(** All calls of one [execute] are calls of its request. *)
Lemma exec_trace_keyed fn backoff_max attempt evs :
  exec_trace fn backoff_max attempt evs ->
  calls_keyed (Some (key_of_request fn)) evs.
Proof. induction 1; simpl; auto. Qed.

Lemma cached_execute_keyed E k fn units w :
  k = key_of_request fn ->
  grows keyed w (snd (cached_execute E k fn units w)).
Proof.
  intros ->. unfold cached_execute.
  destruct (cache w !! key_of_request fn) as [r|]; simpl.
  { exists [EvCacheHit (key_of_request fn)]. split; [reflexivity|].
    intros cur. exact I. }
  destruct (execute_loop_trace E fn units 3
              (execute_fuel 3 (emit (EvCacheMiss (key_of_request fn)) w)) 0
              (emit (EvCacheMiss (key_of_request fn)) w)) as (evs & Ht & Hevs).
  assert (Hg : grows keyed w
                 (snd (execute E fn units 3
                         (emit (EvCacheMiss (key_of_request fn)) w)))).
  { exists (EvCacheMiss (key_of_request fn) :: evs). split.
    - unfold execute. rewrite Ht. simpl. rewrite <- app_assoc. reflexivity.
    - intros cur. simpl. eapply exec_trace_keyed; eauto. }
  destruct (execute E fn units 3 (emit (EvCacheMiss (key_of_request fn)) w))
    as [[r|e|] w1]; simpl in *; exact Hg.
Qed.

(** C4, as stated, fails for id sets.  The video key joins the ids in the
    order of the search result, so the same two ids in another order give
    another key.  The channel key joins the ids in the iteration order of
    a Python set: two runs that differ in nothing but that order, on the
    same API responses, look the same two channels up under different
    keys. *)
Lemma same_id_set_different_key :
  let C := sample_config 1 in
  let E1 := sample_env two_channel_api in
  let E2 := with_set_order (fun l => rev (remove_dups l)) E1 in
  let w := fresh_world ["KEY-A"] in
  ["a"; "b"] ≡ₚ ["b"; "a"]
  /\ video_key ["a"; "b"] <> video_key ["b"; "a"]
  /\ set_order E1 0 ["UC1"; "UC2"] ≡ₚ set_order E2 0 ["UC1"; "UC2"]
  /\ cache_lookups (trace (snd (search_once C E1 "kw" "" w)))
     = ["S:kw:US:"; "V:v1,v2"; "C:UC1,UC2"]
  /\ cache_lookups (trace (snd (search_once C E2 "kw" "" w)))
     = ["S:kw:US:"; "V:v1,v2"; "C:UC2,UC1"].
Proof.
  split; [apply Permutation_swap|]. split; [vm_compute; discriminate|].
  split; [vm_compute; apply Permutation_swap|].
  split; vm_compute; reflexivity.
Qed.

(** C4, amended.  Every cache key is a deterministic function of the
    request as it is sent.  In every run of [search_once], each network
    call is made for a cache miss whose key is [key_of_request] of the
    request called, and no call is made after a hit.  That key depends on
    nothing but the identity of the request: the query, region and page
    token of a search (a missing token counting as the empty one), the
    comma-joined sequence of video ids, the comma-joined sequence of
    channel ids.  So two executions sending the same query, region and
    page token, or the same id sequence, build the same key. *)
Theorem cache_key_follows_request (C : config) (E : env)
    (keyword input_url : string) (w : world) :
  (exists evs,
     trace (snd (search_once C E keyword input_url w)) = (trace w ++ evs)%list
     /\ forall cur, calls_keyed cur evs)
  /\ (forall rq1 rq2,
        request_identity rq1 = request_identity rq2 ->
        key_of_request rq1 = key_of_request rq2)
  /\ (forall region token n,
        search_key keyword region token
        = key_of_request (SearchList keyword region n (or_empty token)))
  /\ (forall region, search_key keyword region None
                     = search_key keyword region (Some EmptyString))
  /\ (forall ids part,
        video_key ids = key_of_request (VideosList (join "," ids) part))
  /\ (forall ids part,
        channel_key ids = key_of_request (ChannelsList part (join "," ids))).
Proof.
  split.
  { apply (search_once_preserves C E (grows keyed)
             grows_keyed_refl grows_keyed_trans).
    - intros n w0. destruct (grows_keyed_refl w0) as (evs & Ht & Hk).
      exists evs. split; [exact Ht|exact Hk].
    - intros k fn units w0 Hk. apply cached_execute_keyed. exact Hk. }
  split; [|repeat split].
  intros [q1 r1 n1 t1|i1 p1|p1 i1] [q2 r2 n2 t2|i2 p2|p2 i2] Hid;
    simpl in Hid; try discriminate; injection Hid as Hid; subst; reflexivity.
Qed.

Lemma cache_key_follows_request_witness :
  request_identity (SearchList "kw" "US" 10 EmptyString)
  = request_identity (SearchList "kw" "US" 9 EmptyString)
  /\ key_of_request (SearchList "kw" "US" 10 EmptyString)
     = key_of_request (SearchList "kw" "US" 9 EmptyString)
  /\ search_key "kw" "US" None = "S:kw:US:".
Proof.
  split; [reflexivity|]. split; [|reflexivity].
  apply (proj1 (proj2 (cache_key_follows_request (sample_config 1)
                         (sample_env one_page_api) "kw" EmptyString
                         (fresh_world ["KEY-A"])))).
  reflexivity.
Defined.

(** ** Pagination *)

(** C3 at a failing input.  [NUM_RESULTS = 10], [MAX_PAGES = 2], and a
    search whose only page has one video and no [nextPageToken].  The
    loop does not stop after that page: neither limit is reached, so it
    runs again with the empty token, finds the first page in the cache
    and appends the rows of the same video a second time. *)
Example missing_token_repeats_first_page :
  let C := sample_config 2 in
  let E := sample_env one_page_api in
  let run := search_once C E "kw" "" (fresh_world ["KEY-A"]) in
  (exists rows, fst run = Ret rows /\ map r_videoId rows = ["v1"; "v1"])
  /\ cache_lookups (trace (snd run))
     = ["S:kw:US:"; "V:v1"; "C:UC1"; "S:kw:US:"; "V:v1"; "C:UC1"]
  /\ calls (snd run) = 3%nat.
Proof.
  vm_compute. split; [|split; reflexivity].
  eexists. split; reflexivity.
Qed.

(** * Further properties *)

(** ** The credential pool under [execute] *)

Lemma get_key_keys m : keys (snd (get_key m)) = keys m.
Proof.
  unfold get_key. destruct (get_key_scan _ _ _). reflexivity.
Qed.

Lemma get_key_km_ok m : km_ok m -> km_ok (snd (get_key m)).
Proof.
  intros Hok. unfold get_key.
  pose proof (get_key_scan_spec (keys m) (List.length (keys m)) (index m) Hok)
    as Hs.
  destruct (get_key_scan _ _ _) as [[pos|e|] idx']; [| |contradiction];
    unfold km_ok in *; simpl.
  - destruct Hs as (_ & _ & _ & _ & _ & ->). apply Nat.mod_upper_bound. lia.
  - destruct Hs as (_ & _ & ->). apply Nat.mod_upper_bound. lia.
Qed.

(** In a well-formed pool [get_key] raises only when no credential is
    active, and what it raises is [QuotaExceededAllKeys]. *)
Lemma get_key_raise m e :
  km_ok m -> fst (get_key m) = Raise e ->
  e = QuotaExceededAllKeys /\ forall a, a ∈ keys m -> active a = false.
Proof.
  intros Hok. unfold get_key.
  pose proof (get_key_scan_spec (keys m) (List.length (keys m)) (index m) Hok)
    as Hs.
  destruct (get_key_scan _ _ _) as [[pos|e'|] idx']; simpl;
    [discriminate| |discriminate].
  intros [= ->]. destruct Hs as (-> & Hskip & _). split; [reflexivity|].
  intros a Ha. apply list_elem_of_lookup in Ha as [p Hp].
  assert (Hlt : (p < List.length (keys m))%nat)
    by (apply lookup_lt_Some in Hp; exact Hp).
  destruct (rr_covers _ (index m) p Hok Hlt) as (i & Hi & Hip).
  destruct (Hskip i Hi) as (a' & Ha' & Hina). rewrite Hip in Ha'. congruence.
Qed.

Lemma map_alter_same {A B} (g : A -> B) (f : A -> A) (pos : nat) (l : list A) :
  (forall a, g (f a) = g a) -> map g (alter f pos l) = map g l.
Proof.
  intros Hg. revert pos. induction l as [|a l IH]; intros [|pos]; simpl;
    try reflexivity.
  - rewrite Hg. reflexivity.
  - f_equal. apply IH.
Qed.

Lemma deactivate_keys pos m :
  map key (keys (deactivate pos m)) = map key (keys m).
Proof. apply map_alter_same. reflexivity. Qed.

Lemma record_keys pos u m :
  map key (keys (record pos u m)) = map key (keys m).
Proof. apply map_alter_same. reflexivity. Qed.

Lemma deactivate_inactive pos m q :
  inactive_at (keys m) q -> inactive_at (keys (deactivate pos m)) q.
Proof.
  intros (a & Ha & Hact). unfold inactive_at, deactivate. simpl.
  destruct (decide (pos = q)) as [->|Hne].
  - rewrite list_lookup_alter_eq, Ha. simpl. eexists. split; reflexivity.
  - rewrite list_lookup_alter_ne by exact Hne. eauto.
Qed.

Lemma deactivate_all_inactive pos m :
  inactive_at (keys (deactivate pos m)) pos \/ keys m !! pos = None.
Proof.
  unfold inactive_at, deactivate. simpl.
  destruct (keys m !! pos) as [a|] eqn:Ha; [left|right; reflexivity].
  rewrite list_lookup_alter_eq, Ha. simpl. eexists. split; reflexivity.
Qed.

Lemma record_inactive pos u m q :
  inactive_at (keys m) q -> inactive_at (keys (record pos u m)) q.
Proof.
  intros (a & Ha & Hact). unfold inactive_at, record. simpl.
  destruct (decide (pos = q)) as [->|Hne].
  - rewrite list_lookup_alter_eq, Ha. simpl. eexists. split; [reflexivity|exact Hact].
  - rewrite list_lookup_alter_ne by exact Hne. eauto.
Qed.

Lemma total_units_deactivate pos m :
  total_units (deactivate pos m) = total_units m.
Proof.
  unfold total_units, deactivate. simpl. f_equal.
  apply map_alter_same. reflexivity.
Qed.

Lemma total_units_record pos u m :
  is_Some (keys m !! pos) ->
  total_units (record pos u m) = total_units m + u.
Proof.
  unfold total_units, record. simpl. generalize (keys m). clear m.
  intros l. revert pos. induction l as [|a l IH]; intros [|pos] [x Hx];
    try discriminate.
  - simpl. lia.
  - assert (Hl : is_Some (l !! pos)) by (exists x; exact Hx).
    specialize (IH pos Hl).
    change (used_units a
            + foldr Z.add 0
                (map used_units
                   (alter (fun a0 => {| key := key a0;
                                        used_units := used_units a0 + u;
                                        active := active a0 |}) pos l))
            = used_units a + foldr Z.add 0 (map used_units l) + u).
    rewrite IH. lia.
Qed.

Lemma count_active_record pos u m :
  count_active (record pos u m) = count_active m.
Proof.
  unfold count_active, record. simpl.
  set (f := fun a => {| key := key a; used_units := used_units a + u;
                        active := active a |}).
  generalize (keys m). clear m.
  intros l. revert pos. induction l as [|a l IH]; intros [|pos];
    try reflexivity.
  - change (alter f 0%nat (a :: l)) with (f a :: l).
    rewrite !filter_cons. simpl. destruct (decide (active a = true)); reflexivity.
  - change (alter f (S pos) (a :: l)) with (a :: alter f pos l).
    rewrite !filter_cons. destruct (decide (active a = true)); simpl;
      rewrite IH; reflexivity.
Qed.

Section ExecutorInvariant.
Context (E : env) (fn : request) (units : units_spec) (backoff_max : Z).
Variable R : world -> world -> Prop.
Hypothesis R_refl : forall w, R w w.
Hypothesis R_trans : forall a b c, R a b -> R b c -> R a c.
Hypothesis R_acquire :
  forall w, R w (with_km (fun _ => snd (get_key (km w))) w).
Hypothesis R_call : forall pos w, R w (emit (EvCall pos fn) (next_call w)).
Hypothesis R_record :
  forall pos u w, active_at (keys (km w)) pos ->
    R w (emit (EvRecord pos u) (with_km (record pos u) w)).
Hypothesis R_deactivate :
  forall pos w, R w (emit (EvDeactivate pos) (with_km (deactivate pos) w)).
Hypothesis R_sleep : forall d w, R w (emit (EvSleep d) w).

(** A relation kept by the five things an iteration can do to the world
    is kept by the loop. *)
Lemma execute_loop_preserves fuel attempt w :
  R w (snd (execute_loop E fuel fn units backoff_max attempt w)).
Proof.
  revert attempt w. induction fuel as [|fuel IH]; intros attempt w;
    [apply R_refl|].
  pose proof (R_acquire w) as Hacq.
  pose proof (get_key_ret (km w)) as Hret.
  exec_cases; simpl in Hacq; try exact Hacq;
    (eapply R_trans; [exact Hacq|]); (eapply R_trans; [apply R_call|]);
    try apply R_refl;
    first [ eapply R_trans; [apply R_deactivate|apply IH]
          | eapply R_trans; [apply R_sleep|apply IH]
          | idtac ].
  apply R_record. destruct (Hret pos m' eq_refl) as [Hkeys Hact].
  simpl. rewrite Hkeys. exact Hact.
Qed.

End ExecutorInvariant.

Lemma pool_kept_refl w : pool_kept w w.
Proof. repeat split; auto. Qed.

Lemma pool_kept_trans a b c : pool_kept a b -> pool_kept b c -> pool_kept a c.
Proof.
  intros (Hn1 & Hi1 & Hk1) (Hn2 & Hi2 & Hk2). repeat split; auto. congruence.
Qed.

Lemma pool_kept_same_km a b : km b = km a -> pool_kept a b.
Proof. intros H. unfold pool_kept. rewrite H. auto. Qed.

Lemma execute_pool_kept E fn units backoff_max w :
  pool_kept w (snd (execute E fn units backoff_max w)).
Proof.
  unfold execute.
  apply (execute_loop_preserves E fn units backoff_max pool_kept
           pool_kept_refl pool_kept_trans).
  - intros w0. unfold pool_kept. simpl. rewrite get_key_keys.
    repeat split; auto. apply get_key_km_ok.
  - intros pos w0. apply pool_kept_same_km. reflexivity.
  - intros pos u w0 _. unfold pool_kept. simpl. split; [apply record_keys|].
    split; [intros q; apply record_inactive|].
    unfold km_ok. simpl. rewrite length_alter. auto.
  - intros pos w0. unfold pool_kept. simpl. split; [apply deactivate_keys|].
    split; [intros q; apply deactivate_inactive|].
    unfold km_ok. simpl. rewrite length_alter. auto.
  - intros d w0. apply pool_kept_same_km. reflexivity.
Qed.

Lemma cached_execute_pool_kept E k fn units w :
  pool_kept w (snd (cached_execute E k fn units w)).
Proof.
  unfold cached_execute. destruct (cache w !! k) as [r|]; simpl.
  { apply pool_kept_same_km. reflexivity. }
  pose proof (execute_pool_kept E fn units 3 (emit (EvCacheMiss k) w)) as H.
  destruct (execute E fn units 3 (emit (EvCacheMiss k) w)) as [[r|e|] w1];
    simpl in *; exact H.
Qed.

(** X1.  Whatever [execute] and [search_once] do to the pool, they keep
    the credentials and their order, never re-activate a credential that
    is inactive, and keep [self.index] a valid position. *)
Theorem pool_is_kept (C : config) (E : env) :
  (forall fn units backoff_max w,
     pool_kept w (snd (execute E fn units backoff_max w)))
  /\ (forall keyword input_url w,
        pool_kept w (snd (search_once C E keyword input_url w))).
Proof.
  split; [intros; apply execute_pool_kept|].
  intros keyword input_url w.
  apply (search_once_preserves C E pool_kept pool_kept_refl pool_kept_trans).
  - intros n w0. apply pool_kept_same_km. reflexivity.
  - intros. apply cached_execute_pool_kept.
Qed.

(** ** Usage accounting *)

Lemma total_units_keys m m' : keys m' = keys m -> total_units m' = total_units m.
Proof. unfold total_units. intros ->. reflexivity. Qed.

Lemma execute_loop_units E fn units backoff_max fuel attempt w :
  total_units (km (snd (execute_loop E fuel fn units backoff_max attempt w)))
  = total_units (km w)
    + charged units (fst (execute_loop E fuel fn units backoff_max attempt w)).
Proof.
  revert attempt w. induction fuel as [|fuel IH]; intros attempt w;
    [simpl; lia|].
  pose proof (get_key_keys (km w)) as Hkeys.
  pose proof (get_key_ret (km w)) as Hret.
  assert (Hd : forall pos m' a' w2,
            keys m' = keys (km w) -> km w2 = m' ->
            total_units (km (snd (execute_loop E fuel fn units backoff_max a'
                     (emit (EvDeactivate pos) (with_km (deactivate pos) w2)))))
            = total_units (km w)
              + charged units (fst (execute_loop E fuel fn units backoff_max a'
                     (emit (EvDeactivate pos) (with_km (deactivate pos) w2))))).
  { intros pos m' a' w2 Hk' <-. rewrite IH. f_equal.
    change (total_units (deactivate pos (km w2)) = total_units (km w)).
    rewrite total_units_deactivate. apply total_units_keys. exact Hk'. }
  assert (Hs : forall m' a' d w2,
            keys m' = keys (km w) -> km w2 = m' ->
            total_units (km (snd (execute_loop E fuel fn units backoff_max a'
                     (emit (EvSleep d) w2))))
            = total_units (km w)
              + charged units (fst (execute_loop E fuel fn units backoff_max a'
                     (emit (EvSleep d) w2)))).
  { intros m' a' d w2 Hk' <-. rewrite IH. f_equal.
    apply total_units_keys. exact Hk'. }
  assert (Hstop : forall m' : KeyManager,
            keys m' = keys (km w) -> total_units m' = total_units (km w) + 0).
  { intros m' Hk'. rewrite Z.add_0_r. apply total_units_keys. exact Hk'. }
  exec_cases; simpl in Hkeys;
    [ | apply (Hd pos m'); auto | apply (Hs m'); auto | apply (Hd pos m'); auto
      | apply (Hstop m'); auto | apply (Hs m'); auto | apply (Hd pos m'); auto
      | apply (Hstop m'); auto | apply (Hstop m'); auto | apply (Hstop m'); auto ].
  destruct (Hret pos m' eq_refl) as [_ (a & Ha & _)].
  change (total_units (record pos (units_of units resp) m')
          = total_units (km w) + units_of units resp).
  rewrite total_units_record by (rewrite Hkeys; eauto).
  f_equal. apply total_units_keys. exact Hkeys.
Qed.

Lemma recorded_app a b : recorded (a ++ b) = recorded a + recorded b.
Proof.
  unfold recorded. rewrite omap_app.
  induction (omap record_of a) as [|x l IH]; simpl; lia.
Qed.

Lemma accounted_refl w : accounted w w.
Proof. exists []. rewrite app_nil_r. split; [reflexivity|]. cbn. lia. Qed.

Lemma accounted_trans a b c : accounted a b -> accounted b c -> accounted a c.
Proof.
  intros (e1 & Ht1 & Hu1) (e2 & Ht2 & Hu2). exists (e1 ++ e2)%list.
  split; [rewrite Ht2, Ht1, app_assoc; reflexivity|].
  rewrite recorded_app. lia.
Qed.

Lemma accounted_emit e w :
  record_of e = None -> accounted w (emit e w).
Proof.
  intros He. exists [e]. split; [reflexivity|].
  unfold recorded. simpl. rewrite He. simpl. lia.
Qed.

Lemma execute_accounted E fn units backoff_max w :
  accounted w (snd (execute E fn units backoff_max w)).
Proof.
  unfold execute.
  apply (execute_loop_preserves E fn units backoff_max accounted
           accounted_refl accounted_trans).
  - intros w0. exists []. rewrite app_nil_r. split; [reflexivity|].
    cbn [recorded omap foldr]. rewrite Z.add_0_r.
    apply total_units_keys. simpl. apply get_key_keys.
  - intros pos w0. exists [EvCall pos fn]. split; [reflexivity|].
    cbn. rewrite Z.add_0_r. reflexivity.
  - intros pos u w0 (a & Ha & _). exists [EvRecord pos u].
    split; [reflexivity|].
    change (total_units (record pos u (km w0)) = total_units (km w0) + (u + 0)).
    rewrite total_units_record by eauto. lia.
  - intros pos w0. exists [EvDeactivate pos]. split; [reflexivity|].
    change (total_units (deactivate pos (km w0)) = total_units (km w0) + 0).
    rewrite total_units_deactivate. lia.
  - intros d w0. apply accounted_emit. reflexivity.
Qed.

Lemma cached_execute_accounted E k fn units w :
  accounted w (snd (cached_execute E k fn units w)).
Proof.
  unfold cached_execute. destruct (cache w !! k) as [r|]; simpl.
  { apply accounted_emit. reflexivity. }
  eapply accounted_trans; [apply (accounted_emit (EvCacheMiss k)); reflexivity|].
  pose proof (execute_accounted E fn units 3 (emit (EvCacheMiss k) w)) as H.
  destruct (execute E fn units 3 (emit (EvCacheMiss k) w)) as [[r|e|] w1];
    simpl in *; exact H.
Qed.

(** X2.  Usage is accounted exactly.  A call of [execute] adds to the
    total of [used_units] the units of its response when it returns one
    and nothing when it raises, however many credentials it went through;
    and over a whole [search_once] the total grows by exactly the sum of
    the usages recorded on the way. *)
Theorem usage_is_accounted (C : config) (E : env) :
  (forall fn units backoff_max w,
     total_units (km (snd (execute E fn units backoff_max w)))
     = total_units (km w)
       + charged units (fst (execute E fn units backoff_max w)))
  /\ (forall keyword input_url w,
        exists evs,
          trace (snd (search_once C E keyword input_url w))
          = (trace w ++ evs)%list
          /\ total_units (km (snd (search_once C E keyword input_url w)))
             = total_units (km w) + recorded evs).
Proof.
  split; [intros; apply execute_loop_units|].
  intros keyword input_url w.
  apply (search_once_preserves C E accounted accounted_refl accounted_trans).
  - intros n w0. exact (accounted_refl w0).
  - intros. apply cached_execute_accounted.
Qed.

(** ** What [QuotaExceededAllKeys] means *)

Lemma km_ok_deactivate pos m : km_ok m -> km_ok (deactivate pos m).
Proof. unfold km_ok. simpl. rewrite length_alter. auto. Qed.

Lemma execute_loop_quota E fn units backoff_max fuel attempt w :
  km_ok (km w) ->
  fst (execute_loop E fuel fn units backoff_max attempt w)
  = Raise QuotaExceededAllKeys ->
  forall a,
    a ∈ keys (km (snd (execute_loop E fuel fn units backoff_max attempt w))) ->
    active a = false.
Proof.
  revert attempt w. induction fuel as [|fuel IH]; intros attempt w Hok;
    [discriminate|].
  pose proof (get_key_km_ok (km w) Hok) as Hok1.
  pose proof (get_key_raise (km w)) as Hraise.
  pose proof (get_key_keys (km w)) as Hkeys.
  assert (Hd : forall pos m' a' w2, km_ok m' -> km w2 = m' ->
            fst (execute_loop E fuel fn units backoff_max a'
                   (emit (EvDeactivate pos) (with_km (deactivate pos) w2)))
            = Raise QuotaExceededAllKeys ->
            forall a,
              a ∈ keys (km (snd (execute_loop E fuel fn units backoff_max a'
                   (emit (EvDeactivate pos) (with_km (deactivate pos) w2))))) ->
              active a = false).
  { intros pos m' a' w2 Hm <-. apply IH. apply (km_ok_deactivate pos _ Hm). }
  assert (Hs : forall m' a' d w2, km_ok m' -> km w2 = m' ->
            fst (execute_loop E fuel fn units backoff_max a' (emit (EvSleep d) w2))
            = Raise QuotaExceededAllKeys ->
            forall a,
              a ∈ keys (km (snd (execute_loop E fuel fn units backoff_max a'
                                   (emit (EvSleep d) w2)))) ->
              active a = false).
  { intros m' a' d w2 Hm <-. apply IH. exact Hm. }
  exec_cases; simpl in Hok1, Hkeys;
    [ discriminate | apply (Hd pos m'); auto | apply (Hs m'); auto
      | apply (Hd pos m'); auto | discriminate | apply (Hs m'); auto
      | apply (Hd pos m'); auto | discriminate | | discriminate ].
  intros [= ->] a Ha. destruct (Hraise QuotaExceededAllKeys Hok eq_refl) as [_ Hall].
  apply Hall. rewrite <- Hkeys. exact Ha.
Qed.

Lemma add_rows_not_quota E t keyword input_url amap items rows :
  add_rows E t keyword input_url amap items rows <> Raise QuotaExceededAllKeys.
Proof.
  revert t rows. induction items as [|it items IH]; intros t rows; simpl;
    [discriminate|].
  destruct (is_live_or_upcoming (snippet_of it)); [apply IH|].
  destruct (make_row E t keyword input_url amap it) as [r|e|] eqn:Hrow;
    [apply IH| |discriminate].
  intros [= ->]. revert Hrow. unfold make_row, iso2hms, fmt_age.
  destruct (truthy (default EmptyString (vi_duration it)));
    [destruct (duration_seconds E _); [|discriminate]|];
    destruct (language_of E t (snippet_of it));
    (destruct (truthy (default EmptyString (sn_publishedAt (snippet_of it))));
     [destruct (days_since E t _)|]); discriminate.
Qed.

Lemma channel_id_seq_not_quota items :
  channel_id_seq items <> Raise QuotaExceededAllKeys.
Proof.
  induction items as [|it items IH]; simpl; [discriminate|].
  destruct (vi_snippet it) as [sn|]; [|discriminate].
  destruct (sn_channelId sn); [|discriminate].
  destruct (channel_id_seq items); [discriminate| |discriminate].
  intros [= ->]. contradiction.
Qed.

Lemma build_amap_not_quota items acc :
  build_amap items acc <> Raise QuotaExceededAllKeys.
Proof.
  revert acc. induction items as [|c items IH]; intros acc; simpl;
    [discriminate|].
  destruct (ch_avatar c); [apply IH|discriminate].
Qed.

Section QuotaFacts.
Context (C : config) (E : env).

Lemma cached_execute_quota k fn units w :
  km_ok (km w) ->
  fst (cached_execute E k fn units w) = Raise QuotaExceededAllKeys ->
  all_inactive (snd (cached_execute E k fn units w)).
Proof.
  intros Hok. unfold cached_execute.
  destruct (cache w !! k); [discriminate|].
  pose proof (execute_loop_quota E fn units 3
                (execute_fuel 3 (emit (EvCacheMiss k) w)) 0
                (emit (EvCacheMiss k) w) Hok) as H.
  unfold execute.
  destruct (execute_loop E _ fn units 3 0 (emit (EvCacheMiss k) w))
    as [[r|e|] w1]; simpl in *; [discriminate| |discriminate].
  exact H.
Qed.

Lemma cached_execute_km_ok k fn units w :
  km_ok (km w) -> km_ok (km (snd (cached_execute E k fn units w))).
Proof. apply (cached_execute_pool_kept E k fn units w). Qed.

Lemma avatar_map_quota vr w :
  km_ok (km w) ->
  (fst (avatar_map E vr w) = Raise QuotaExceededAllKeys ->
   all_inactive (snd (avatar_map E vr w)))
  /\ km_ok (km (snd (avatar_map E vr w))).
Proof.
  intros Hok. unfold avatar_map, bind, lift, ret, read_order.
  pose proof (channel_id_seq_not_quota (vr_items vr)) as Hc.
  destruct (channel_id_seq (vr_items vr)) as [ids|e|]; simpl;
    [|split; [intros [= ->]; contradiction|exact Hok]
     |split; [discriminate|exact Hok]].
  destruct (set_order E (reads w) ids) as [|c cids]; simpl;
    [split; [discriminate|exact Hok]|].
  pose proof (cached_execute_quota (channel_key (c :: cids))
                (ChannelsList "snippet" (join "," (c :: cids))) (UConst 1) (tick 1 w) Hok)
    as Hq.
  pose proof (cached_execute_km_ok (channel_key (c :: cids))
                (ChannelsList "snippet" (join "," (c :: cids))) (UConst 1) (tick 1 w) Hok)
    as Hk.
  destruct (cached_execute E _ _ _ (tick 1 w)) as [[r|e|] w1]; simpl in *;
    [|split; [intros [= ->]; apply Hq; reflexivity|exact Hk]
     |split; [discriminate|exact Hk]].
  destruct (as_channels r) as [ch|e|] eqn:Hch; simpl;
    [|split; [intros [= ->]; destruct r; discriminate Hch|exact Hk]
     |split; [discriminate|exact Hk]].
  split; [|exact Hk]. intros Hb. exfalso. revert Hb. apply build_amap_not_quota.
Qed.

Lemma search_loop_quota fuel keyword input_url rows token page w w' :
  km_ok (km w) ->
  search_loop C E fuel keyword input_url rows token page w
  = (Raise QuotaExceededAllKeys, w') ->
  all_inactive w'.
Proof.
  revert rows token page w.
  induction fuel as [|fuel IH]; intros rows token page w Hok; simpl.
  { destruct (_ && _); discriminate. }
  destruct (_ && _); [|discriminate].
  unfold bind at 1.
  pose proof (cached_execute_quota (search_key keyword (REGION C) token)
    (SearchList keyword (REGION C)
       (Z.min 50 (NUM_RESULTS C - Z.of_nat (List.length rows)))
       (or_empty token)) (UConst 100) w Hok) as Hq1.
  pose proof (cached_execute_km_ok (search_key keyword (REGION C) token)
    (SearchList keyword (REGION C)
       (Z.min 50 (NUM_RESULTS C - Z.of_nat (List.length rows)))
       (or_empty token)) (UConst 100) w Hok) as Hk1.
  destruct (cached_execute E _ _ _ w) as [[r|?|] w1]; simpl in *;
    [|intros [= -> <-]; apply Hq1; reflexivity|discriminate].
  unfold bind at 1, lift at 1.
  destruct (as_search r) as [sr|?|] eqn:Hsr; simpl;
    [|intros [= -> _]; destruct r; discriminate Hsr|discriminate].
  destruct (video_ids sr) as [|v vids]; [discriminate|].
  unfold bind at 1.
  pose proof (cached_execute_quota (video_key (v :: vids))
    (VideosList (join "," (v :: vids)) VIDEO_PARTS) (UFun items_count) w1 Hk1)
    as Hq2.
  pose proof (cached_execute_km_ok (video_key (v :: vids))
    (VideosList (join "," (v :: vids)) VIDEO_PARTS) (UFun items_count) w1 Hk1)
    as Hk2.
  destruct (cached_execute E _ _ _ w1) as [[r2|?|] w2]; simpl in *;
    [|intros [= -> <-]; apply Hq2; reflexivity|discriminate].
  unfold bind at 1, lift at 1.
  destruct (as_videos r2) as [vr|?|] eqn:Hvr; simpl;
    [|intros [= -> _]; destruct r2; discriminate Hvr|discriminate].
  unfold bind at 1.
  destruct (avatar_map_quota vr w2 Hk2) as [Hq3 Hk3].
  destruct (avatar_map E vr w2) as [[amap|?|] w3]; simpl in *;
    [|intros [= -> <-]; apply Hq3; reflexivity|discriminate].
  unfold bind at 1, build_rows at 1.
  pose proof (add_rows_not_quota E (reads w3) keyword input_url amap (vr_items vr) rows)
    as Ha.
  destruct (add_rows E (reads w3) keyword input_url amap (vr_items vr) rows)
    as [rows'|?|]; simpl; [|intros [= -> _]; contradiction|discriminate].
  apply IH. exact Hk3.
Qed.

End QuotaFacts.

(** X3.  [QuotaExceededAllKeys] is raised only over a fully exhausted
    pool: when [execute], or [search_once] as a whole, ends in it (the
    index of the pool being valid at the start), no credential is active
    in the world it leaves. *)
Theorem quota_error_means_pool_exhausted (C : config) (E : env) :
  (forall fn units backoff_max w,
     km_ok (km w) ->
     fst (execute E fn units backoff_max w) = Raise QuotaExceededAllKeys ->
     all_inactive (snd (execute E fn units backoff_max w)))
  /\ (forall keyword input_url w w',
        km_ok (km w) ->
        search_once C E keyword input_url w = (Raise QuotaExceededAllKeys, w') ->
        all_inactive w').
Proof.
  split.
  - intros fn units backoff_max w Hok Hq. unfold all_inactive.
    apply execute_loop_quota; assumption.
  - intros keyword input_url w w' Hok. apply search_loop_quota. exact Hok.
Qed.

Lemma quota_error_means_pool_exhausted_witness :
  let C := sample_config 1 in
  let E := sample_env (quota_gone_after 0) in
  let w := fresh_world ["KEY-A"; "KEY-B"] in
  km_ok (km w)
  /\ fst (search_once C E "kw" "" w) = Raise QuotaExceededAllKeys
  /\ all_inactive (snd (search_once C E "kw" "" w)).
Proof.
  assert (Hok : km_ok (km (fresh_world ["KEY-A"; "KEY-B"])))
    by (unfold km_ok; simpl; lia).
  split; [exact Hok|]. split; [vm_compute; reflexivity|].
  apply (proj2 (quota_error_means_pool_exhausted (sample_config 1)
                  (sample_env (quota_gone_after 0)))
           "kw" "" (fresh_world ["KEY-A"; "KEY-B"]) _ Hok).
  vm_compute. reflexivity.
Defined.

(** ** Bounds on one [execute] call *)

Lemma count_active_keys m m' : keys m' = keys m -> count_active m' = count_active m.
Proof. unfold count_active. intros ->. reflexivity. Qed.

Lemma active_at_count m pos :
  active_at (keys m) pos -> (0 < count_active m)%nat.
Proof.
  intros (a & Ha & Hact). apply count_active_pos. exists a. split; [|exact Hact].
  apply list_elem_of_lookup. eauto.
Qed.

Lemma execute_loop_calls E fn units backoff_max fuel attempt w :
  (calls (snd (execute_loop E fuel fn units backoff_max attempt w))
   <= calls w + count_active (km w) + Z.to_nat (backoff_max - attempt))%nat.
Proof.
  revert attempt w. induction fuel as [|fuel IH]; intros attempt w;
    [simpl; lia|].
  pose proof (get_key_ret (km w)) as Hret.
  assert (Hd : forall pos m' w2,
            keys m' = keys (km w) -> active_at (keys (km w)) pos ->
            km w2 = m' -> calls w2 = S (calls w) ->
            (calls (snd (execute_loop E fuel fn units backoff_max attempt
                     (emit (EvDeactivate pos) (with_km (deactivate pos) w2))))
             <= calls w + count_active (km w)
                + Z.to_nat (backoff_max - attempt))%nat).
  { intros pos m' w2 Hkeys Hact <- Hc.
    etransitivity; [apply IH|].
    change (calls w2 + count_active (deactivate pos (km w2))
            + Z.to_nat (backoff_max - attempt)
            <= calls w + count_active (km w) + Z.to_nat (backoff_max - attempt))%nat.
    rewrite <- Hkeys in Hact.
    pose proof (count_active_deactivate (km w2) pos Hact) as Hdec.
    rewrite (count_active_keys _ _ Hkeys) in Hdec. lia. }
  assert (Hs : forall m' d w2,
            keys m' = keys (km w) -> attempt < backoff_max ->
            km w2 = m' -> calls w2 = S (calls w) ->
            (calls (snd (execute_loop E fuel fn units backoff_max (attempt + 1)
                     (emit (EvSleep d) w2)))
             <= calls w + count_active (km w)
                + Z.to_nat (backoff_max - attempt))%nat).
  { intros m' d w2 Hkeys Hlt <- Hc.
    etransitivity; [apply IH|].
    change (calls w2 + count_active (km w2)
            + Z.to_nat (backoff_max - (attempt + 1))
            <= calls w + count_active (km w) + Z.to_nat (backoff_max - attempt))%nat.
    rewrite (count_active_keys _ _ Hkeys). lia. }
  exec_cases;
    try (destruct (Hret pos m' eq_refl) as [Hkeys Hact];
         pose proof (active_at_count _ _ Hact) as Hpos);
    [ lia | apply (Hd pos m'); auto | apply (Hs m'); auto; lia
      | apply (Hd pos m'); auto | simpl; lia | apply (Hs m'); auto; lia
      | apply (Hd pos m'); auto | simpl; lia | simpl; lia | simpl; lia ].
Qed.

Lemma foldr_add_shift (x : Z) (l : list Z) :
  foldr Z.add x l = foldr Z.add 0 l + x.
Proof. induction l as [|y l IH]; simpl; lia. Qed.

Lemma sum_pow2 (m : nat) :
  foldr Z.add 0 (map (fun i => 2 ^ Z.of_nat i) (seq 0 m)) = 2 ^ Z.of_nat m - 1.
Proof.
  induction m as [|m IH]; [reflexivity|].
  rewrite seq_S, map_app, foldr_app. simpl foldr at 2.
  rewrite foldr_add_shift, IH, Z.add_0_r.
  rewrite Nat2Z.inj_succ, Z.pow_succ_r by lia. simpl. lia.
Qed.

(** X4.  One [execute] call is bounded: it makes at most as many network
    calls as there are active credentials plus [backoff_max], and it
    sleeps at most [2 ^ backoff_max - 1] seconds in all (3 more calls and
    7 seconds with the default). *)
Theorem execute_is_bounded (E : env) (fn : request) (units : units_spec)
    (backoff_max : Z) (w : world) :
  (calls (snd (execute E fn units backoff_max w))
   <= calls w + count_active (km w) + Z.to_nat backoff_max)%nat
  /\ exists evs,
       trace (snd (execute E fn units backoff_max w)) = (trace w ++ evs)%list
       /\ total_sleep evs <= 2 ^ Z.max 0 backoff_max - 1.
Proof.
  split.
  - unfold execute.
    pose proof (execute_loop_calls E fn units backoff_max
                  (execute_fuel backoff_max w) 0 w) as H.
    rewrite Z.sub_0_r in H. exact H.
  - destruct (execute_loop_trace E fn units backoff_max
                (execute_fuel backoff_max w) 0 w) as (evs & Ht & Hevs).
    apply exec_trace_sleeps in Hevs as (m & Hs & Hm); [|lia].
    exists evs. split; [exact Ht|].
    unfold total_sleep. rewrite Hs.
    replace (map (fun i : nat => 2 ^ (0 + Z.of_nat i)) (seq 0 m))
      with (map (fun i : nat => 2 ^ Z.of_nat i) (seq 0 m))
      by (apply map_ext; intros i; f_equal; lia).
    rewrite sum_pow2.
    assert (2 ^ Z.of_nat m <= 2 ^ Z.max 0 backoff_max); [|lia].
    apply Z.pow_le_mono_r; [lia|]. destruct Hm as [->|Hm]; lia.
Qed.

(** ** Edges and cost of one search *)

Lemma cache_lookups_app a b :
  cache_lookups (a ++ b) = (cache_lookups a ++ cache_lookups b)%list.
Proof. apply omap_app. Qed.

Lemma looked_up_refl w : looked_up 0 w w.
Proof. exists []. rewrite app_nil_r. split; [reflexivity|simpl; lia]. Qed.

Lemma looked_up_trans n m a b c :
  looked_up n a b -> looked_up m b c -> looked_up (n + m) a c.
Proof.
  intros (e1 & Ht1 & H1) (e2 & Ht2 & H2). exists (e1 ++ e2)%list.
  split; [rewrite Ht2, Ht1, app_assoc; reflexivity|].
  rewrite cache_lookups_app, length_app. lia.
Qed.

Lemma looked_up_le n m a b : (n <= m)%nat -> looked_up n a b -> looked_up m a b.
Proof. intros Hle (e & Ht & H). exists e. split; [exact Ht|lia]. Qed.

Lemma exec_trace_no_lookup fn backoff_max attempt evs :
  exec_trace fn backoff_max attempt evs -> cache_lookups evs = [].
Proof. induction 1; auto. Qed.

Lemma cached_execute_looked_up E k fn units w :
  looked_up 1 w (snd (cached_execute E k fn units w)).
Proof.
  unfold cached_execute. destruct (cache w !! k) as [r|]; simpl.
  { exists [EvCacheHit k]. split; [reflexivity|simpl; lia]. }
  destruct (execute_loop_trace E fn units 3
              (execute_fuel 3 (emit (EvCacheMiss k) w)) 0
              (emit (EvCacheMiss k) w)) as (evs & Ht & Hevs).
  assert (Hl : looked_up 1 w (snd (execute E fn units 3 (emit (EvCacheMiss k) w)))).
  { exists (EvCacheMiss k :: evs). split.
    - unfold execute. rewrite Ht. simpl. rewrite <- app_assoc. reflexivity.
    - change (cache_lookups (EvCacheMiss k :: evs)) with (k :: cache_lookups evs).
      rewrite (exec_trace_no_lookup _ _ _ _ Hevs). simpl. lia. }
  destruct (execute E fn units 3 (emit (EvCacheMiss k) w)) as [[r|e|] w1];
    simpl in *; exact Hl.
Qed.

Lemma avatar_map_looked_up E vr w :
  looked_up 1 w (snd (avatar_map E vr w)).
Proof.
  unfold avatar_map, bind, lift, ret, read_order.
  destruct (channel_id_seq (vr_items vr)) as [ids|e|]; simpl;
    try (apply (looked_up_le 0); [lia|apply looked_up_refl]).
  destruct (set_order E (reads w) ids) as [|c cids]; simpl;
    [apply (looked_up_le 0); [lia|exact (looked_up_refl w)]|].
  pose proof (cached_execute_looked_up E (channel_key (c :: cids))
                (ChannelsList "snippet" (join "," (c :: cids))) (UConst 1) (tick 1 w))
    as Hc.
  destruct (cached_execute E _ _ _ (tick 1 w)) as [[r|e|] w1]; simpl in *; auto.
  destruct (as_channels r) as [ch|e|]; simpl; auto.
Qed.

Lemma search_loop_looked_up C E fuel keyword input_url rows token page w res w' :
  search_loop C E fuel keyword input_url rows token page w = (res, w') ->
  looked_up (3 * fuel) w w'.
Proof.
  revert rows token page w.
  induction fuel as [|fuel IH]; intros rows token page w; simpl.
  { destruct (_ && _); intros [= _ <-]; apply looked_up_refl. }
  assert (Hzero : looked_up (3 * S fuel) w w)
    by (apply (looked_up_le 0); [lia|apply looked_up_refl]).
  destruct (_ && _); [|intros [= _ <-]; exact Hzero].
  unfold bind at 1.
  pose proof (cached_execute_looked_up E (search_key keyword (REGION C) token)
    (SearchList keyword (REGION C)
       (Z.min 50 (NUM_RESULTS C - Z.of_nat (List.length rows)))
       (or_empty token)) (UConst 100) w) as H1.
  destruct (cached_execute E _ _ _ w) as [[r|?|] w1]; simpl in H1;
    try (intros [= _ <-]; apply (looked_up_le 1); [lia|exact H1]).
  unfold bind at 1, lift at 1.
  destruct (as_search r) as [sr|?|];
    try (intros [= _ <-]; apply (looked_up_le 1); [lia|exact H1]).
  destruct (video_ids sr) as [|v vids];
    [intros [= _ <-]; apply (looked_up_le 1); [lia|exact H1]|].
  unfold bind at 1.
  pose proof (cached_execute_looked_up E (video_key (v :: vids))
    (VideosList (join "," (v :: vids)) VIDEO_PARTS) (UFun items_count) w1)
    as H2.
  pose proof (looked_up_trans _ _ _ _ _ H1 H2) as H12.
  destruct (cached_execute E _ _ _ w1) as [[r2|?|] w2]; simpl in H2, H12;
    try (intros [= _ <-]; apply (looked_up_le (1 + 1)); [lia|exact H12]).
  unfold bind at 1, lift at 1.
  destruct (as_videos r2) as [vr|?|];
    try (intros [= _ <-]; apply (looked_up_le (1 + 1)); [lia|exact H12]).
  unfold bind at 1.
  pose proof (avatar_map_looked_up E vr w2) as H3.
  pose proof (looked_up_trans _ _ _ _ _ H12 H3) as H123.
  destruct (avatar_map E vr w2) as [[amap|?|] w3]; simpl in H3, H123;
    try (intros [= _ <-]; apply (looked_up_le (1 + 1 + 1)); [lia|exact H123]).
  unfold bind at 1, build_rows at 1.
  destruct (add_rows E (reads w3) keyword input_url amap (vr_items vr) rows)
    as [rows'|?|];
    try (intros [= _ <-]; apply (looked_up_le (1 + 1 + 1)); [lia|exact H123]).
  intros Hrec. apply IH in Hrec.
  apply (looked_up_le (1 + 1 + 1 + 3 * fuel)); [lia|].
  eapply looked_up_trans; eassumption.
Qed.

(** X5.  Edges and cost of [search_once].  With [NUM_RESULTS] not
    positive it returns no rows and leaves the world untouched: no cache
    lookup, no call.  When the first page is in the cache and holds no
    video id, it returns no rows after that single lookup.  In every
    case it consults the cache at most three times per allowed page. *)
Theorem search_once_edges_and_cost (C : config) (E : env)
    (keyword input_url : string) (w : world) :
  (NUM_RESULTS C <= 0 -> search_once C E keyword input_url w = (Ret [], w))
  /\ (forall sr,
        0 < NUM_RESULTS C -> 0 < MAX_PAGES C ->
        cache w !! search_key keyword (REGION C) None = Some (SearchResponse sr) ->
        video_ids sr = [] ->
        search_once C E keyword input_url w
        = (Ret [], emit (EvCacheHit (search_key keyword (REGION C) None)) w))
  /\ (exists evs,
        trace (snd (search_once C E keyword input_url w)) = (trace w ++ evs)%list
        /\ (List.length (cache_lookups evs) <= 3 * Z.to_nat (MAX_PAGES C))%nat).
Proof.
  split; [|split].
  - intros Hn. unfold search_once.
    destruct (Z.to_nat (MAX_PAGES C)); simpl; change (Z.of_nat 0) with 0;
      (destruct (0 <? NUM_RESULTS C) eqn:Hlt; [lia|reflexivity]).
  - intros sr Hn Hp Hhit Hids. unfold search_once.
    destruct (Z.to_nat (MAX_PAGES C)) as [|fuel] eqn:Hf; [lia|]. simpl.
    change (Z.of_nat 0) with 0.
    destruct (0 <? NUM_RESULTS C) eqn:H1; [|lia].
    destruct (0 <? MAX_PAGES C) eqn:H2; [|lia]. simpl.
    unfold bind at 1. rewrite (cached_execute_hit E _ _ _ _ _ Hhit).
    unfold bind at 1, lift at 1. simpl. rewrite Hids. reflexivity.
  - destruct (search_once C E keyword input_url w) as [res w'] eqn:Hrun.
    apply search_loop_looked_up in Hrun. exact Hrun.
Qed.

Lemma search_once_edges_and_cost_witness :
  let C := sample_config 1 in
  let E := sample_env one_page_api in
  let empty_page := SearchResponse {| sr_items := []; sr_nextPageToken := None |} in
  let w := with_cache (fun c => <["S:kw:US:" := empty_page]> c)
             (fresh_world ["KEY-A"]) in
  0 < NUM_RESULTS C
  /\ search_once C E "kw" "" w = (Ret [], emit (EvCacheHit "S:kw:US:") w).
Proof.
  split; [reflexivity|].
  apply (proj1 (proj2 (search_once_edges_and_cost (sample_config 1)
                         (sample_env one_page_api) "kw" ""
                         (with_cache (fun c => <["S:kw:US:" :=
                            SearchResponse {| sr_items := [];
                                              sr_nextPageToken := None |}]> c)
                            (fresh_world ["KEY-A"]))))
           {| sr_items := []; sr_nextPageToken := None |});
    try reflexivity.
Defined.

(** ** Searching again over a warm cache *)

Lemma cache_le_refl w : cache_le w w.
Proof. intros k r H. exact H. Qed.

Lemma cache_le_trans a b c : cache_le a b -> cache_le b c -> cache_le a c.
Proof. intros H1 H2 k r H. auto. Qed.

Lemma cache_le_silent x a b : silent a b -> cache_le x a -> cache_le x b.
Proof. intros (_ & _ & Hc) H k r Hk. rewrite Hc. auto. Qed.

Lemma silent_refl w : silent w w.
Proof. repeat split. Qed.

Lemma silent_trans a b c : silent a b -> silent b c -> silent a c.
Proof.
  intros (H1 & H2 & H3) (H4 & H5 & H6). repeat split; congruence.
Qed.

Lemma silent_emit e w : silent w (emit e w).
Proof. repeat split. Qed.

Lemma cached_execute_cache_le E k fn units w :
  cache_le w (snd (cached_execute E k fn units w)).
Proof. intros k0 r0. apply cached_execute_keeps. Qed.

Lemma avatar_map_cache_le E vr w : cache_le w (snd (avatar_map E vr w)).
Proof.
  apply (avatar_map_preserves E cache_le cache_le_refl cache_le_trans).
  - intros n w0 k r Hk. exact Hk.
  - intros. apply cached_execute_cache_le.
Qed.

Lemma search_loop_cache_le C E fuel keyword input_url rows token page w :
  cache_le w (snd (search_loop C E fuel keyword input_url rows token page w)).
Proof.
  apply (search_loop_preserves C E cache_le cache_le_refl cache_le_trans).
  - intros n w0 k r Hk. exact Hk.
  - intros. apply cached_execute_cache_le.
Qed.

(** What one run fetched, a later run finds. *)
Lemma cached_execute_replay E k fn units w r wa E' fn' units' w' :
  cached_execute E k fn units w = (Ret r, wa) ->
  cache_le wa w' ->
  cached_execute E' k fn' units' w' = (Ret r, emit (EvCacheHit k) w').
Proof.
  intros Hrun Hle. apply cached_execute_hit, Hle.
  eapply cached_execute_put. exact Hrun.
Qed.

Lemma execute_reads E fn units backoff_max w :
  reads (snd (execute E fn units backoff_max w)) = reads w.
Proof.
  unfold execute.
  apply (execute_loop_preserves E fn units backoff_max
           (fun a b => reads b = reads a)); try reflexivity.
  intros a b c H1 H2. congruence.
Qed.

Lemma cached_execute_reads E k fn units w :
  reads (snd (cached_execute E k fn units w)) = reads w.
Proof.
  unfold cached_execute. destruct (cache w !! k) as [r|]; [reflexivity|].
  pose proof (execute_reads E fn units 3 (emit (EvCacheMiss k) w)) as H.
  destruct (execute E fn units 3 (emit (EvCacheMiss k) w)) as [[r|e|] w1];
    exact H.
Qed.

Lemma search_loop_reads C E fuel keyword input_url rows token page w :
  (reads w <= reads (snd (search_loop C E fuel keyword input_url rows token
                            page w)))%nat.
Proof.
  apply (search_loop_preserves C E (fun a b => (reads a <= reads b)%nat)).
  - intros a. lia.
  - intros a b c H1 H2. lia.
  - intros n a. simpl. lia.
  - intros k fn units a _. rewrite cached_execute_reads. lia.
Qed.

Lemma fmt_age_same E E' t t' pub :
  same_answers E E' t t' -> fmt_age E' t' pub = fmt_age E t pub.
Proof. intros (Hd & _ & _). unfold fmt_age. rewrite Hd. reflexivity. Qed.

Lemma language_of_same E E' t t' sn :
  same_answers E E' t t' -> language_of E' t' sn = language_of E t sn.
Proof.
  intros (_ & Hd & _). unfold language_of, safe_detect. rewrite Hd. reflexivity.
Qed.

Lemma make_row_same E E' t t' keyword input_url amap it :
  (forall x, duration_seconds E' x = duration_seconds E x) ->
  same_answers E E' t t' ->
  make_row E' t' keyword input_url amap it = make_row E t keyword input_url amap it.
Proof.
  intros Hdur Hs. unfold make_row, iso2hms.
  rewrite Hdur, (language_of_same E E' t t' _ Hs), (fmt_age_same E E' t t' _ Hs).
  reflexivity.
Qed.

Lemma add_rows_same E E' keyword input_url amap items :
  (forall x, duration_seconds E' x = duration_seconds E x) ->
  forall t t' rows,
    (forall i, (i < List.length items)%nat -> same_answers E E' (t + i) (t' + i)) ->
    add_rows E' t' keyword input_url amap items rows
    = add_rows E t keyword input_url amap items rows.
Proof.
  intros Hdur. induction items as [|it items IH]; intros t t' rows Hs;
    [reflexivity|].
  simpl.
  assert (Hrest : forall rows0,
            add_rows E' (S t') keyword input_url amap items rows0
            = add_rows E (S t) keyword input_url amap items rows0).
  { intros rows0. apply IH. intros i Hi.
    replace (S t + i)%nat with (t + S i)%nat by lia.
    replace (S t' + i)%nat with (t' + S i)%nat by lia.
    apply Hs. simpl. lia. }
  destruct (is_live_or_upcoming (snippet_of it)); [apply Hrest|].
  rewrite (make_row_same E E' t t'); [|exact Hdur|].
  - destruct (make_row E t keyword input_url amap it); auto.
  - specialize (Hs 0%nat ltac:(simpl; lia)). rewrite !Nat.add_0_r in Hs.
    exact Hs.
Qed.

Lemma avatar_map_reads E vr w amap wa :
  avatar_map E vr w = (Ret amap, wa) -> reads wa = S (reads w).
Proof.
  unfold avatar_map, bind, lift, ret, read_order.
  destruct (channel_id_seq (vr_items vr)) as [ids|e|]; [|discriminate|discriminate].
  destruct (set_order E (reads w) ids) as [|c cids].
  { intros [= _ <-]. simpl. lia. }
  pose proof (cached_execute_reads E (channel_key (c :: cids))
                (ChannelsList "snippet" (join "," (c :: cids))) (UConst 1)
                (tick 1 w)) as Hr.
  destruct (cached_execute E _ _ _ (tick 1 w)) as [[r|e|] w1];
    [|discriminate|discriminate].
  destruct (as_channels r) as [ch|e|]; [|discriminate|discriminate].
  intros [= _ <-]. simpl in Hr. rewrite Hr. simpl. lia.
Qed.

Lemma avatar_map_replay E E' vr w amap wa w' :
  avatar_map E vr w = (Ret amap, wa) ->
  cache_le wa w' ->
  same_answers E E' (reads w) (reads w') ->
  exists w'',
    avatar_map E' vr w' = (Ret amap, w'')
    /\ silent w' w'' /\ reads w'' = S (reads w').
Proof.
  unfold avatar_map, bind, lift, ret, read_order.
  destruct (channel_id_seq (vr_items vr)) as [ids|e|]; [|discriminate|discriminate].
  intros Hrun Hle (_ & _ & Hord). rewrite Hord.
  destruct (set_order E (reads w) ids) as [|c cids].
  { injection Hrun as <- <-.
    eexists. split; [reflexivity|]. split; [repeat split|simpl; lia]. }
  destruct (cached_execute E (channel_key (c :: cids))
              (ChannelsList "snippet" (join "," (c :: cids))) (UConst 1) (tick 1 w))
    as [[r|e|] w1] eqn:Hc; [|discriminate|discriminate].
  destruct (as_channels r) as [ch|e|] eqn:Hch; [|discriminate|discriminate].
  injection Hrun as Hb <-.
  rewrite (cached_execute_replay E _ _ _ _ _ _ E' _ _ (tick 1 w') Hc Hle), Hch.
  eexists. split; [rewrite Hb; reflexivity|].
  split; [repeat split|simpl; lia].
Qed.

Lemma search_loop_replay C E E' fuel keyword input_url :
  forall rows token page w out w1 w',
    search_loop C E fuel keyword input_url rows token page w = (Ret out, w1) ->
    cache_le w1 w' ->
    replays E w w1 E' w' ->
    exists w'',
      search_loop C E' fuel keyword input_url rows token page w' = (Ret out, w'')
      /\ silent w' w''.
Proof.
  induction fuel as [|fuel IH]; intros rows token page w out w1 w'; simpl.
  { destruct (_ && _); [discriminate|]. intros [= <- _] _ _.
    exists w'. split; [reflexivity|apply silent_refl]. }
  destruct (_ && _);
    [|intros [= <- _] _ _; exists w'; split; [reflexivity|apply silent_refl]].
  intros Hrun Hle [Hdur Hans]. unfold bind at 1 in Hrun.
  pose proof (cached_execute_reads E (search_key keyword (REGION C) token)
                (SearchList keyword (REGION C)
                   (Z.min 50 (NUM_RESULTS C - Z.of_nat (List.length rows)))
                   (or_empty token)) (UConst 100) w) as Hr1.
  destruct (cached_execute E (search_key keyword (REGION C) token)
              (SearchList keyword (REGION C)
                 (Z.min 50 (NUM_RESULTS C - Z.of_nat (List.length rows)))
                 (or_empty token)) (UConst 100) w)
    as [[r|?|] wa] eqn:Hc1; [|discriminate|discriminate].
  simpl in Hr1.
  unfold bind at 1, lift at 1 in Hrun.
  destruct (as_search r) as [sr|?|] eqn:Hsr; [|discriminate|discriminate].
  destruct (video_ids sr) as [|v vids] eqn:Hids.
  { injection Hrun as <- <-.
    unfold bind at 1.
    rewrite (cached_execute_replay E _ _ _ _ _ _ E' _ _ _ Hc1 Hle).
    unfold bind at 1, lift at 1. rewrite Hsr, Hids.
    eexists. split; [reflexivity|apply silent_emit]. }
  unfold bind at 1 in Hrun.
  pose proof (cached_execute_reads E (video_key (v :: vids))
                (VideosList (join "," (v :: vids)) VIDEO_PARTS)
                (UFun items_count) wa) as Hr2.
  destruct (cached_execute E (video_key (v :: vids))
              (VideosList (join "," (v :: vids)) VIDEO_PARTS)
              (UFun items_count) wa)
    as [[r2|?|] wb] eqn:Hc2; [|discriminate|discriminate].
  simpl in Hr2.
  unfold bind at 1, lift at 1 in Hrun.
  destruct (as_videos r2) as [vr|?|] eqn:Hvr; [|discriminate|discriminate].
  unfold bind at 1 in Hrun.
  destruct (avatar_map E vr wb) as [[amap|?|] wc] eqn:Hav;
    [|discriminate|discriminate].
  unfold bind at 1, build_rows at 1 in Hrun.
  destruct (add_rows E (reads wc) keyword input_url amap (vr_items vr) rows)
    as [rows'|?|] eqn:Hadd; [|discriminate|discriminate].
  set (wd := tick (List.length (vr_items vr)) wc) in Hrun.
  pose proof (search_loop_cache_le C E fuel keyword input_url rows'
                (truthy_opt (sr_nextPageToken sr)) (page + 1) wd) as Hm3.
  pose proof (search_loop_reads C E fuel keyword input_url rows'
                (truthy_opt (sr_nextPageToken sr)) (page + 1) wd) as Hr3.
  rewrite Hrun in Hm3, Hr3. simpl in Hm3, Hr3.
  pose proof (avatar_map_cache_le E vr wb) as Hm2.
  rewrite Hav in Hm2. simpl in Hm2.
  pose proof (cached_execute_cache_le E (video_key (v :: vids))
                (VideosList (join "," (v :: vids)) VIDEO_PARTS)
                (UFun items_count) wa) as Hm1.
  rewrite Hc2 in Hm1. simpl in Hm1.
  assert (Hlec : cache_le wc w').
  { intros k0 r0 Hk. apply Hle, Hm3. exact Hk. }
  assert (Hleb : cache_le wb w') by (eapply cache_le_trans; eauto).
  assert (Hlea : cache_le wa w') by (eapply cache_le_trans; eauto).
  unfold bind at 1.
  rewrite (cached_execute_replay E _ _ _ _ _ _ E' _ _ _ Hc1 Hlea).
  unfold bind at 1, lift at 1. rewrite Hsr, Hids.
  unfold bind at 1.
  set (w'1 := emit (EvCacheHit (search_key keyword (REGION C) token)) w').
  assert (Hs1 : silent w' w'1) by apply silent_emit.
  rewrite (cached_execute_replay E _ _ _ _ _ _ E' _ _ w'1 Hc2
             (cache_le_silent _ _ _ Hs1 Hleb)).
  unfold bind at 1, lift at 1. rewrite Hvr.
  unfold bind at 1.
  set (w'2 := emit (EvCacheHit (video_key (v :: vids))) w'1).
  assert (Hs2 : silent w' w'2)
    by (eapply silent_trans; [exact Hs1|apply silent_emit]).
  assert (Hbase : reads wb = reads w) by congruence.
  pose proof (avatar_map_reads E vr wb amap wc Hav) as Hrc.
  rewrite Hbase in Hrc.
  destruct (avatar_map_replay E E' vr wb amap wc w'2 Hav
              (cache_le_silent _ _ _ Hs2 Hlec))
    as (w'3 & Hav' & Hs3 & Hr'3).
  { specialize (Hans 0%nat). rewrite !Nat.add_0_r in Hans.
    rewrite Hbase. apply Hans. subst wd. simpl in Hr3. lia. }
  rewrite Hav'. unfold bind at 1, build_rows at 1.
  assert (Hr'3' : reads w'3 = S (reads w')) by exact Hr'3.
  rewrite (add_rows_same E E' keyword input_url amap (vr_items vr) Hdur
             (reads wc) (reads w'3) rows), Hadd.
  2:{ intros i Hi. rewrite Hrc, Hr'3'.
      replace (S (reads w) + i)%nat with (reads w + S i)%nat by lia.
      replace (S (reads w') + i)%nat with (reads w' + S i)%nat by lia.
      apply Hans. subst wd. simpl in Hr3. lia. }
  set (w'4 := tick (List.length (vr_items vr)) w'3).
  assert (Hs4 : silent w' w'4).
  { eapply silent_trans; [exact Hs2|]. eapply silent_trans; [exact Hs3|].
    repeat split. }
  destruct (IH _ _ _ wd _ _ w'4 Hrun (cache_le_silent _ _ _ Hs4 Hle))
    as (w'' & Hrun' & Hs5).
  { split; [exact Hdur|]. intros i Hi. subst wd w'4. simpl in *.
    rewrite Hrc, Hr'3'.
    replace (S (reads w) + List.length (vr_items vr) + i)%nat
      with (reads w + (S (List.length (vr_items vr)) + i))%nat by lia.
    replace (S (reads w') + List.length (vr_items vr) + i)%nat
      with (reads w' + (S (List.length (vr_items vr)) + i))%nat by lia.
    apply Hans. lia. }
  exists w''. split; [exact Hrun'|exact (silent_trans _ _ _ Hs4 Hs5)].
Qed.

(** X6.  Searching again costs nothing, as far as the answers repeat.
    If [search_once] returned rows for a keyword, then in any later world
    whose cache still holds what that run left (the same process later,
    or a new process over the persisted cache, whatever the state of its
    credentials), and in which the clock, the detector and the set order
    answer read by read as they answered that run, the same search
    returns the same rows and touches neither the network, nor the pool,
    nor the cache. *)
Theorem search_again_is_free (C : config) (E E' : env)
    (keyword input_url : string) (w w1 w2 : world) (rows : list row) :
  search_once C E keyword input_url w = (Ret rows, w1) ->
  cache_le w1 w2 ->
  replays E w w1 E' w2 ->
  exists w3,
    search_once C E' keyword input_url w2 = (Ret rows, w3)
    /\ calls w3 = calls w2 /\ km w3 = km w2 /\ cache w3 = cache w2.
Proof.
  intros Hrun Hle Hrep.
  destruct (search_loop_replay C E E' _ keyword input_url _ _ _ _ _ _ w2
              Hrun Hle Hrep) as (w3 & Hrun' & Hs).
  exists w3. split; [exact Hrun'|exact Hs].
Qed.

Lemma search_again_is_free_witness :
  let C := sample_config 2 in
  let E := sample_env two_channel_api in
  let E' := sample_env always_rate_limited in
  exists rows w1 w3,
    search_once C E "kw" "" (fresh_world ["KEY-A"]) = (Ret rows, w1)
    /\ all_inactive (with_km (deactivate 0) w1)
    /\ search_once C E' "kw" "" (with_km (deactivate 0) w1) = (Ret rows, w3)
    /\ calls w3 = calls w1.
Proof.
  cbv zeta.
  destruct (search_once (sample_config 2) (sample_env two_channel_api) "kw" ""
              (fresh_world ["KEY-A"])) as [res w1] eqn:Hrun.
  assert (Hres : exists rows, res = Ret rows).
  { apply (f_equal fst) in Hrun. simpl in Hrun. rewrite <- Hrun.
    vm_compute. eexists. reflexivity. }
  destruct Hres as [rows ->].
  assert (Hkeys : keys (km w1)
                  = [ {| key := "KEY-A"; used_units := 103; active := true |} ]).
  { apply (f_equal (fun x => keys (km (snd x)))) in Hrun. simpl in Hrun.
    rewrite <- Hrun. vm_compute. reflexivity. }
  exists rows, w1.
  destruct (search_again_is_free (sample_config 2) (sample_env two_channel_api)
              (sample_env always_rate_limited)
              "kw" "" (fresh_world ["KEY-A"]) w1 (with_km (deactivate 0) w1)
              rows Hrun) as (w3 & Hrun' & Hcalls & _).
  { intros k r Hk. exact Hk. }
  { split; [reflexivity|]. intros i _. repeat split. }
  exists w3. split; [reflexivity|]. split; [|split; [exact Hrun'|exact Hcalls]].
  intros a Ha. simpl in Ha. rewrite Hkeys in Ha.
  apply list_elem_of_In in Ha. simpl in Ha. destruct Ha as [<-|[]]. reflexivity.
Defined.

(** Without that, searching again is not free: over the cache the first
    run left, a process whose sets iterate in another order asks for the
    channels under another key and calls the API once more. *)
Example search_again_other_order :
  let C := sample_config 1 in
  let E := sample_env two_channel_api in
  let E' := with_set_order (fun l => rev (remove_dups l)) E in
  let w1 := snd (search_once C E "kw" "" (fresh_world ["KEY-A"])) in
  let w3 := snd (search_once C E' "kw" "" w1) in
  calls w1 = 3%nat /\ calls w3 = 4%nat
  /\ cache w1 !! "C:UC2,UC1" = None
  /\ cache w3 !! "C:UC2,UC1" <> None.
Proof. vm_compute. repeat split; discriminate. Qed.

(** ** The columns of a row *)

Lemma truthy_opt_some o s : truthy_opt o = Some s -> o = Some s /\ s <> EmptyString.
Proof.
  unfold truthy_opt. destruct o as [x|]; [|discriminate].
  destruct x; simpl; [discriminate|]. intros [= <-]. split; [reflexivity|discriminate].
Qed.

Lemma language_of_spec E t sn :
  snd (language_of E t sn) <> EmptyString
  /\ (fst (language_of E t sn) = "audio"
      /\ sn_defaultAudioLanguage sn = Some (snd (language_of E t sn))
      \/ fst (language_of E t sn) = "default"
         /\ truthy_opt (sn_defaultAudioLanguage sn) = None
         /\ sn_defaultLanguage sn = Some (snd (language_of E t sn))
      \/ fst (language_of E t sn) = "detect"
         /\ truthy_opt (sn_defaultAudioLanguage sn) = None
         /\ truthy_opt (sn_defaultLanguage sn) = None).
Proof.
  unfold language_of.
  destruct (truthy_opt (sn_defaultAudioLanguage sn)) as [l|] eqn:Ha.
  { apply truthy_opt_some in Ha as [Ha Hne]. simpl. auto. }
  destruct (truthy_opt (sn_defaultLanguage sn)) as [l|] eqn:Hd.
  { apply truthy_opt_some in Hd as [Hd Hne]. simpl. auto 6. }
  simpl. split; [|auto 6].
  destruct (safe_detect E t _) as [|c d]; simpl; discriminate.
Qed.

(** X7.  The language columns of every row are consistent: the language
    is never empty; its source is [audio] with the audio-language tag of
    the video, or [default] with its default-language tag when the audio
    tag is missing or empty, or [detect] when both are; and a detected
    language that is empty (blank text or a failed detection) is reported
    as [unknown]. *)
Theorem language_columns (E : env) (t : nat) (keyword input_url : string)
    (amap : gmap string string) (it : video_item) (r : row) :
  make_row E t keyword input_url amap it = Ret r ->
  let sn := snippet_of it in
  r_language r <> EmptyString
  /\ (r_language_source r = "audio"
      /\ sn_defaultAudioLanguage sn = Some (r_language r)
      \/ r_language_source r = "default"
         /\ truthy_opt (sn_defaultAudioLanguage sn) = None
         /\ sn_defaultLanguage sn = Some (r_language r)
      \/ r_language_source r = "detect"
         /\ truthy_opt (sn_defaultAudioLanguage sn) = None
         /\ truthy_opt (sn_defaultLanguage sn) = None
         /\ (safe_detect E t (default EmptyString (sn_title sn) +:+ " "
                            +:+ default EmptyString (sn_description sn))
             = EmptyString -> r_language r = "unknown")).
Proof.
  intros Hrow sn. subst sn. unfold make_row in Hrow.
  destruct (iso2hms E _) as [[dur_str dur_s]|?|]; [|discriminate|discriminate].
  pose proof (language_of_spec E t (snippet_of it)) as Hl.
  destruct (language_of E t (snippet_of it)) as [ls lang] eqn:Hlang.
  destruct (fmt_age E t _) as [age|?|]; [|discriminate|discriminate].
  injection Hrow as <-. simpl in *.
  destruct Hl as (Hne & [Ha|[Hd|(Hs & Ha & Hd)]]); split; auto.
  right. right. repeat split; auto.
  intros Hdet. unfold language_of in Hlang. rewrite Ha, Hd, Hdet in Hlang.
  simpl in Hlang. congruence.
Qed.

Lemma language_columns_witness :
  let E := sample_env one_page_api in
  let it := sample_video "v1" None None in
  exists r, make_row E 0 "kw" "" ∅ it = Ret r
            /\ r_language_source r = "audio"
            /\ r_language r <> EmptyString.
Proof.
  eexists. split; [reflexivity|]. split; [reflexivity|].
  apply (proj1 (language_columns (sample_env one_page_api) 0 "kw" "" ∅
                  (sample_video "v1" None None) _ eq_refl)).
Defined.

(** X8.  A row is marked allowed on third-party sites exactly when the
    video is embeddable and its license is [creativeCommon]; a missing
    status, flag or license makes it not allowed. *)
Theorem allowed_on_third_party_iff (E : env) (t : nat)
    (keyword input_url : string) (amap : gmap string string)
    (it : video_item) (r : row) :
  make_row E t keyword input_url amap it = Ret r ->
  (r_allowed_on_third_party r = true
   <-> vi_embeddable it = Some true /\ vi_license it = Some "creativeCommon")
  /\ r_embeddable r = default false (vi_embeddable it)
  /\ r_license r = default EmptyString (vi_license it).
Proof.
  intros Hrow. unfold make_row in Hrow.
  destruct (iso2hms E _) as [[dur_str dur_s]|?|]; [|discriminate|discriminate].
  destruct (language_of E t (snippet_of it)) as [ls lang].
  destruct (fmt_age E t _) as [age|?|]; [|discriminate|discriminate].
  injection Hrow as <-. simpl. split; [|split; reflexivity].
  rewrite andb_true_iff, String.eqb_eq.
  destruct (vi_embeddable it) as [[|]|], (vi_license it) as [lic|]; simpl;
    split; intros [H1 H2]; try discriminate; split; congruence.
Qed.

Lemma allowed_on_third_party_iff_witness :
  let E := sample_env one_page_api in
  exists r, make_row E 0 "kw" "" ∅ (sample_video "v1" None None) = Ret r
            /\ r_allowed_on_third_party r = true.
Proof.
  eexists. split; [reflexivity|].
  apply (proj1 (allowed_on_third_party_iff (sample_env one_page_api) 0 "kw" "" ∅
                  (sample_video "v1" None None) _ eq_refl)).
  split; reflexivity.
Defined.

(** ** Durations and ages *)

Lemma fmt02d_two_digits z :
  0 <= z < 60 -> String.length (fmt02d z) = 2%nat.
Proof.
  intros Hz.
  assert (Hall : forallb (fun n => (String.length (fmt02d (Z.of_nat n)) =? 2)%nat)
                   (seq 0 60) = true) by (vm_compute; reflexivity).
  rewrite forallb_forall in Hall.
  specialize (Hall (Z.to_nat z)).
  rewrite Z2Nat.id in Hall by lia. apply Nat.eqb_eq, Hall.
  apply in_seq. lia.
Qed.

(** X9.  [iso2hms] on a non-empty duration: when the parser yields [s]
    seconds, [s] not negative, the result is [s] together with the text
    [hh:mm:ss] of the exact decomposition of [s] into hours, minutes below
    60 and seconds below 60, the last two always of two digits, and the
    duration is below a minute exactly when hours and minutes are zero;
    when the parser raises, so does [iso2hms]. *)
Theorem iso2hms_decomposes (E : env) (iso : string) :
  iso <> EmptyString ->
  (forall s, duration_seconds E iso = Some s -> 0 <= s ->
     exists h m sec,
       iso2hms E iso
       = Ret (fmt02d h +:+ ":" +:+ fmt02d m +:+ ":" +:+ fmt02d sec, s)
       /\ s = 3600 * h + 60 * m + sec
       /\ 0 <= h /\ 0 <= m < 60 /\ 0 <= sec < 60
       /\ String.length (fmt02d m) = 2%nat
       /\ String.length (fmt02d sec) = 2%nat
       /\ (s < 60 <-> h = 0 /\ m = 0))
  /\ (duration_seconds E iso = None -> exists e, iso2hms E iso = Raise e).
Proof.
  intros Hne.
  assert (Ht : truthy iso = true) by (destruct iso; [contradiction|reflexivity]).
  unfold iso2hms. rewrite Ht. split.
  - intros s -> Hs.
    exists (s / 3600), (s mod 3600 / 60), (s mod 3600 mod 60).
    pose proof (Z.div_mod s 3600 ltac:(lia)) as H1.
    pose proof (Z.div_mod (s mod 3600) 60 ltac:(lia)) as H2.
    pose proof (Z.mod_pos_bound s 3600 ltac:(lia)) as H3.
    pose proof (Z.mod_pos_bound (s mod 3600) 60 ltac:(lia)) as H4.
    assert (H5 : 0 <= s / 3600) by (apply Z.div_pos; lia).
    assert (H6 : 0 <= s mod 3600 / 60 < 60).
    { split; [apply Z.div_pos; lia|]. apply Z.div_lt_upper_bound; lia. }
    split; [reflexivity|]. split; [lia|]. split; [exact H5|].
    split; [exact H6|]. split; [exact H4|].
    split; [apply fmt02d_two_digits; exact H6|].
    split; [apply fmt02d_two_digits; exact H4|]. lia.
  - intros ->. eexists. reflexivity.
Qed.

Lemma iso2hms_decomposes_witness :
  let E := sample_env one_page_api in
  exists h m sec,
    iso2hms E "PT1M5S"
    = Ret (fmt02d h +:+ ":" +:+ fmt02d m +:+ ":" +:+ fmt02d sec, 65)
    /\ 65 = 3600 * h + 60 * m + sec /\ 0 <= h /\ 0 <= m < 60 /\ 0 <= sec < 60.
Proof.
  destruct (proj1 (iso2hms_decomposes (sample_env one_page_api) "PT1M5S"
                     ltac:(discriminate)) 65 eq_refl ltac:(lia))
    as (h & m & sec & Hrun & Hsum & Hh & Hm & Hsec & _).
  exists h, m, sec. auto.
Defined.

(** X10.  [fmt_age] on a non-empty date that lies [d] days back, [d] not
    negative: the years are the whole 365-day years of [d] and are shown
    only when there is at least one; the months are the whole 30-day
    months of the rest, so they range from 0 to 12, and 12 is shown in
    the last five days of a year. *)
Theorem fmt_age_years_and_months (E : env) (t : nat) (pub : string) (d : Z) :
  pub <> EmptyString ->
  days_since E t pub = Some d ->
  0 <= d ->
  exists y mo,
    fmt_age E t pub
    = Ret (if d <? 365 then str_of_Z mo +:+ " months"
           else str_of_Z y +:+ " years " +:+ str_of_Z mo +:+ " months")
    /\ 0 <= y /\ 0 <= mo <= 12
    /\ 365 * y + 30 * mo <= d < 365 * y + 30 * mo + 30
    /\ d < 365 * (y + 1)
    /\ (mo = 12 <-> 365 * y + 360 <= d).
Proof.
  intros Hne Hd H0.
  assert (Ht : truthy pub = true) by (destruct pub; [contradiction|reflexivity]).
  unfold fmt_age. rewrite Ht, Hd.
  exists (d / 365), (d mod 365 / 30).
  pose proof (Z.div_mod d 365 ltac:(lia)) as H1.
  pose proof (Z.div_mod (d mod 365) 30 ltac:(lia)) as H2.
  pose proof (Z.mod_pos_bound d 365 ltac:(lia)) as H3.
  pose proof (Z.mod_pos_bound (d mod 365) 30 ltac:(lia)) as H4.
  assert (H5 : 0 <= d / 365) by (apply Z.div_pos; lia).
  assert (H6 : 0 <= d mod 365 / 30 <= 12).
  { split; [apply Z.div_pos; lia|].
    assert (d mod 365 / 30 < 13); [|lia]. apply Z.div_lt_upper_bound; lia. }
  split.
  - f_equal. destruct (d <? 365) eqn:Hlt.
    + assert (Hy : d / 365 = 0) by (apply Z.div_small; lia).
      rewrite Hy. reflexivity.
    + assert (Hy : (d / 365 =? 0) = false) by (apply Z.eqb_neq; nia).
      rewrite Hy. reflexivity.
  - repeat split; try lia.
Qed.

Lemma fmt_age_years_and_months_witness :
  let E := sample_env one_page_api in
  exists y mo,
    fmt_age E 0 "2024-01-01T00:00:00Z"
    = Ret (str_of_Z y +:+ " years " +:+ str_of_Z mo +:+ " months")
    /\ 365 * y + 30 * mo <= 400 < 365 * y + 30 * mo + 30 /\ 0 <= mo <= 12.
Proof.
  destruct (fmt_age_years_and_months (sample_env one_page_api) 0
              "2024-01-01T00:00:00Z" 400 ltac:(discriminate) eq_refl ltac:(lia))
    as (y & mo & Hrun & Hy & Hmo & Hd & _).
  exists y, mo. auto.
Defined.

(** ** The three delivery functions *)

(** X11.  [append_to_sheets_with_retry] makes attempts until the first
    that does not raise a caught exception, at most five.  With [j] the
    number of caught failures: it paused after each of them, for 1, 2, 4,
    8 and 16 seconds in that order, also after the fifth.  It returns
    [True] when attempt [j] succeeded, [False] after five caught
    failures, and lets through the exception of an attempt that raises
    one of another class, without a pause.  The sheet holds the rows once
    for every attempt that reached it, failed or not: once, after a
    success, when no failed attempt reached the sheet, and not at all,
    after [False], in that case. *)
Theorem sheets_delivery_retries (E : env) (rows : list row) (w : world) :
  let out := append_to_sheets_with_retry E rows w in
  exists (j : nat) evs,
    (j <= 5)%nat
    /\ (forall i, (i < j)%nat ->
          exists landed, sheets_out E (sheets_tries w + i) = SheetsCaught landed)
    /\ trace (snd out) = (trace w ++ evs)%list
    /\ sleeps evs = take j [1; 2; 4; 8; 16]
    /\ match fst out with
       | Ret true =>
           (j < 5)%nat /\ sheets_out E (sheets_tries w + j) = SheetsOk
           /\ sheet (snd out)
              = sheet_attempts E rows (sheets_tries w) (S j) (sheet w)
       | Ret false =>
           j = 5%nat
           /\ sheet (snd out) = sheet_attempts E rows (sheets_tries w) 5 (sheet w)
       | Raise e =>
           (j < 5)%nat
           /\ (exists name landed,
                 sheets_out E (sheets_tries w + j) = SheetsUncaught name landed
                 /\ e = OtherError name)
           /\ sheet (snd out)
              = sheet_attempts E rows (sheets_tries w) (S j) (sheet w)
       | Timeout => False
       end
    /\ ((forall i, (i < j)%nat ->
           sheets_out E (sheets_tries w + i) = SheetsCaught false) ->
        (fst out = Ret true -> sheet (snd out) = (sheet w ++ rows)%list)
        /\ (fst out = Ret false -> sheet (snd out) = sheet w)).
Proof.
  intros out. subst out. unfold append_to_sheets_with_retry.
  destruct (append_sheets_loop_run E rows 5 1 w)
    as (j & evs & Hj & Hfail & Ht & Hs & _ & _ & Hres).
  exists j, evs. split; [exact Hj|]. split; [exact Hfail|].
  split; [exact Ht|]. split; [rewrite Hs; apply delays_first; exact Hj|].
  destruct (fst (append_sheets_loop E rows 5 1 w)) as [[|]|e|];
    [| | |contradiction].
  - destruct Hres as (Hsheet & Hlt & Hgood).
    split; [auto|]. intros Hclean. split; [|discriminate]. intros _.
    rewrite Hsheet, sheet_attempts_last, Hgood, sheet_attempts_clean by exact Hclean.
    reflexivity.
  - destruct Hres as (Hsheet & ->).
    split; [auto|]. intros Hclean. split; [discriminate|]. intros _.
    rewrite Hsheet, sheet_attempts_clean by exact Hclean. reflexivity.
  - destruct Hres as (Hsheet & Hlt & Hname).
    split; [auto|]. intros _. split; discriminate.
Qed.

(** X12.  [append_csv_batch] decides once, before its first attempt,
    whether to write the header: exactly when the file does not exist.
    It makes at most three attempts, each to write the same lines, and
    pauses 1, 2 and 4 seconds after the failed ones; it returns [True]
    exactly when fewer than three failed.  The file is what the attempts
    made leave one after the other: when no failed attempt had opened the
    file, that is the old file, the header if the file was absent and the
    rows after [True], and the file as it was after [False]; but a failed
    attempt that created the file and wrote [k] lines is followed by an
    attempt that writes the header all the same, after those lines. *)
Theorem csv_delivery_retries (E : env) (rows : list row) (w : world) :
  let header := match csv w with None => true | Some _ => false end in
  let out := append_csv_batch E rows w in
  (exists (j : nat) evs,
     (j <= 3)%nat
     /\ (forall i, (i < j)%nat -> csv_out E (csv_tries w + i) <> WriteOk)
     /\ trace (snd out) = (trace w ++ evs)%list
     /\ sleeps evs = take j [1; 2; 4]
     /\ (fst out = true <-> (j < 3)%nat)
     /\ ((j < 3)%nat -> csv_out E (csv_tries w + j) = WriteOk)
     /\ csv (snd out)
        = csv_attempts E (csv_text header rows) (csv_tries w)
            (if fst out then S j else j) (csv w)
     /\ ((forall i, (i < j)%nat -> clean_write (csv_out E (csv_tries w + i))) ->
         csv (snd out)
         = if fst out then Some (file_after (csv w) rows) else csv w))
  /\ (forall k,
        csv w = None ->
        csv_out E (csv_tries w) = WriteFail true k ->
        csv_out E (S (csv_tries w)) = WriteOk ->
        out = (true, snd out)
        /\ csv (snd out)
           = Some (take k (Header :: map Data rows) ++ Header :: map Data rows)%list).
Proof.
  intros header out. subst out. split.
  - unfold append_csv_batch. fold header.
    destruct (append_csv_loop_run E header rows 3 1 w)
      as (j & evs & Hj & Hfail & Ht & Hs & _ & _ & _ & Hres).
    exists j, evs. split; [exact Hj|]. split; [exact Hfail|].
    split; [exact Ht|]. split.
    { rewrite Hs. do 4 (destruct j as [|j]; [reflexivity|]). lia. }
    destruct (fst (append_csv_loop E header rows 3 1 w)).
    + destruct Hres as (Hlt & Hgood & Hcsv).
      split; [tauto|]. split; [auto|]. split; [exact Hcsv|].
      intros Hclean. rewrite Hcsv, csv_attempts_last, Hgood.
      rewrite csv_attempts_clean by (intros i Hi; split; auto).
      unfold file_after, csv_text. subst header. destruct (csv w); reflexivity.
    + destruct Hres as (-> & Hcsv).
      split; [split; [discriminate|lia]|]. split; [lia|]. split; [exact Hcsv|].
      intros Hclean. rewrite Hcsv.
      apply csv_attempts_clean. intros i Hi. split; auto.
  - intros k Hnone H1 H2. unfold append_csv_batch.
    rewrite Hnone. cbn [append_csv_loop]. rewrite H1. cbn [append_csv_loop].
    simpl. rewrite H2. simpl. rewrite Hnone. split; reflexivity.
Qed.

(** X13.  [save_csv_with_retry] makes at most three attempts with pauses
    of 1, 2 and 4 seconds after the failed ones and returns [True]
    exactly when fewer than three failed.  After [True] the file holds
    the header and the rows and nothing of what it held before.  After
    [False] the file is as before only if no attempt had opened it: an
    attempt that fails after opening the file has emptied it, so when the
    last attempt did so, the file holds the lines that attempt wrote and
    nothing else. *)
Theorem save_csv_overwrites (E : env) (rows : list row) (w : world) :
  let out := save_csv_with_retry E rows w in
  exists (j : nat) evs,
    (j <= 3)%nat
    /\ (forall i, (i < j)%nat -> csv_out E (csv_tries w + i) <> WriteOk)
    /\ trace (snd out) = (trace w ++ evs)%list
    /\ sleeps evs = take j [1; 2; 4]
    /\ (fst out = true <-> (j < 3)%nat)
    /\ csv (snd out)
       = save_attempts E (Header :: map Data rows) (csv_tries w)
           (if fst out then S j else j) (csv w)
    /\ (fst out = true -> csv (snd out) = Some (Header :: map Data rows))
    /\ (fst out = false ->
        (forall i, (i < 3)%nat -> clean_write (csv_out E (csv_tries w + i))) ->
        csv (snd out) = csv w)
    /\ (fst out = false ->
        forall k, csv_out E (csv_tries w + 2) = WriteFail true k ->
        csv (snd out) = Some (take k (Header :: map Data rows))).
Proof.
  intros out. subst out. unfold save_csv_with_retry.
  destruct (save_csv_loop_run E rows 3 1 w)
    as (j & evs & Hj & Hfail & Ht & Hs & Hres).
  exists j, evs. split; [exact Hj|]. split; [exact Hfail|].
  split; [exact Ht|]. split.
  { rewrite Hs. do 4 (destruct j as [|j]; [reflexivity|]). lia. }
  change (csv_text true rows) with (Header :: map Data rows) in Hres.
  destruct (fst (save_csv_loop E rows 3 1 w)).
  - destruct Hres as (Hlt & Hgood & Hcsv).
    split; [tauto|]. split; [exact Hcsv|].
    split; [|split; discriminate].
    intros _. rewrite Hcsv, save_attempts_last, Hgood. reflexivity.
  - destruct Hres as (-> & Hcsv).
    split; [split; [discriminate|lia]|]. split; [exact Hcsv|].
    split; [discriminate|]. split.
    + intros _ Hclean. rewrite Hcsv.
      assert (Hall : forall m file, (m <= 3)%nat ->
                save_attempts E (Header :: map Data rows) (csv_tries w) m file
                = file).
      { induction m as [|m IH]; intros file Hm; [reflexivity|].
        rewrite save_attempts_last, IH by lia.
        pose proof (Hfail m ltac:(lia)) as Hne.
        pose proof (Hclean m ltac:(lia)) as Hc.
        destruct (csv_out E (csv_tries w + m)) as [|[|] k]; simpl in *;
          [congruence|contradiction|reflexivity]. }
      apply Hall. lia.
    + intros _ k Hk. rewrite Hcsv, save_attempts_last, Hk. reflexivity.
Qed.

(** ** What a run delivers *)

Lemma same_sinks_refl w : same_sinks w w.
Proof. split; reflexivity. Qed.

Lemma same_sinks_trans a b c : same_sinks a b -> same_sinks b c -> same_sinks a c.
Proof. intros [H1 H2] [H3 H4]. split; congruence. Qed.

Lemma execute_same_sinks E fn units backoff_max w :
  same_sinks w (snd (execute E fn units backoff_max w)).
Proof.
  unfold execute.
  apply (execute_loop_preserves E fn units backoff_max same_sinks
           same_sinks_refl same_sinks_trans); intros; split; reflexivity.
Qed.

Lemma cached_execute_same_sinks E k fn units w :
  same_sinks w (snd (cached_execute E k fn units w)).
Proof.
  unfold cached_execute. destruct (cache w !! k) as [r|]; simpl.
  { split; reflexivity. }
  pose proof (execute_same_sinks E fn units 3 (emit (EvCacheMiss k) w)) as H.
  destruct (execute E fn units 3 (emit (EvCacheMiss k) w)) as [[r|e|] w1];
    simpl in *; exact H.
Qed.

Lemma search_once_same_sinks C E keyword input_url w :
  same_sinks w (snd (search_once C E keyword input_url w)).
Proof.
  apply (search_once_preserves C E same_sinks same_sinks_refl same_sinks_trans).
  - intros n w0. split; reflexivity.
  - intros. apply cached_execute_same_sinks.
Qed.

Lemma delivered_same_sinks w0 d a b :
  delivered w0 d a -> same_sinks a b -> delivered w0 d b.
Proof.
  intros [Hs Hc] [Hs' Hc']. split; [congruence|].
  destruct Hc as [Hc|[Hd Hc]]; [left|right]; [|split]; congruence.
Qed.

Lemma file_after_app c d rows :
  file_after (Some (file_after c d)) rows = file_after c (d ++ rows).
Proof.
  unfold file_after. simpl. rewrite map_app, <- !app_assoc. reflexivity.
Qed.

Section DeliveryFacts.
Context (C : config) (E : env) (keywords input_urls : list string).
Hypothesis csv_clean : forall n, clean_write (csv_out E n).
Hypothesis csv_retry_ok :
  forall n, exists i, (i < 3)%nat /\ csv_out E (n + i) = WriteOk.
Hypothesis sheets_clean : forall n, clean_append (sheets_out E n).
Hypothesis sheets_retry_ok :
  forall n, exists i, (i < 5)%nat /\ sheets_out E (n + i) = SheetsOk.

Lemma delivered_flush w0 d rows w :
  delivered w0 d w ->
  fst (flush E rows w) = Ret tt
  /\ delivered w0 (d ++ rows) (snd (flush E rows w)).
Proof.
  intros [Hs Hc].
  destruct (flush_run E rows w)
    as (evs & mc & ms & _ & _ & _ & _ & _ & _ & _ & Hcsv & Hsheet & _).
  destruct Hsheet as [Hsheet Hret]; [intros i _; apply sheets_clean|auto|].
  split; [exact Hret|]. split.
  - rewrite Hsheet, Hs, <- app_assoc. reflexivity.
  - left. rewrite Hcsv by (intros; auto).
    destruct Hc as [Hc|[-> Hc]]; rewrite Hc.
    + rewrite <- file_after_app. reflexivity.
    + reflexivity.
Qed.

Lemma main_loop_delivery todo start idx l w w0 d :
  all_res l = (d ++ batch_res l)%list ->
  delivered w0 d w ->
  exists d',
    all_res (snd (fst (main_loop C E keywords input_urls todo start idx l w)))
    = (d' ++ batch_res
               (snd (fst (main_loop C E keywords input_urls todo start idx l w))))%list
    /\ delivered w0 d'
         (snd (main_loop C E keywords input_urls todo start idx l w)).
Proof.
  revert idx l w d. induction todo as [|todo IH]; intros idx l w d Hall Hd; simpl.
  { exists d. auto. }
  destruct (py_index keywords idx) as [kw|]; [|exists d; auto].
  destruct (input_url_at input_urls idx) as [input_url|e|]; try (exists d; auto; fail).
  pose proof (search_once_same_sinks C E kw input_url (emit (EvKeyword idx) w))
    as Hsame.
  destruct (search_once C E kw input_url (emit (EvKeyword idx) w))
    as [[rows|e|] w1]; simpl in Hsame.
  - assert (Hd1 : delivered w0 d
                    (emit (EvProgress (idx + 1)) (with_prog (idx + 1) w1))).
    { eapply delivered_same_sinks; [exact Hd|].
      destruct Hsame as [H1 H2]. split; simpl; assumption. }
    destruct (BATCH_SIZE C =? 0).
    { exists d. simpl. split; [rewrite Hall, app_assoc; reflexivity|exact Hd1]. }
    destruct ((idx + 1 - start) mod BATCH_SIZE C =? 0).
    + destruct (delivered_flush w0 d (batch_res l ++ rows)%list _ Hd1)
        as [Hret Hd2].
      destruct (flush E (batch_res l ++ rows)%list _) as [[u|e|] w3];
        simpl in Hret, Hd2; [|discriminate|discriminate].
      apply (IH _ _ _ (d ++ (batch_res l ++ rows))%list); [|exact Hd2].
      simpl. rewrite Hall, app_nil_r, app_assoc. reflexivity.
    + apply (IH _ _ _ d); [|exact Hd1].
      simpl. rewrite Hall, app_assoc. reflexivity.
  - exists d. simpl. split; [exact Hall|].
    eapply delivered_same_sinks; [exact Hd|exact Hsame].
  - exists d. simpl. split; [exact Hall|].
    eapply delivered_same_sinks; [exact Hd|exact Hsame].
Qed.

End DeliveryFacts.

(** X14.  Delivery by [main], when every write either succeeds or fails
    with a caught exception and without leaving anything in the file or
    the sheet, and no three CSV attempts in a row and no five sheet
    attempts in a row fail.  If the run ends without an exception, also
    after the quota of every credential is gone, every row in [all_res]
    is in the sheet and in the file once, in order, after what was there,
    and the header is in the file only if the file was absent at the
    start.  If it ends with an exception, the rows in [all_res] not yet
    delivered are exactly those in [batch_res]. *)
Theorem fetched_rows_are_delivered_once (C : config) (E : env)
    (keywords input_urls : list string) (w : world) :
  (forall n, clean_write (csv_out E n)) ->
  (forall n, exists i, (i < 3)%nat /\ csv_out E (n + i) = WriteOk) ->
  (forall n, clean_append (sheets_out E n)) ->
  (forall n, exists i, (i < 5)%nat /\ sheets_out E (n + i) = SheetsOk) ->
  let out := main C E keywords input_urls w in
  match fst (fst out) with
  | Ret _ => delivered w (all_res (snd (fst out))) (snd out)
  | _ => exists d,
           all_res (snd (fst out)) = (d ++ batch_res (snd (fst out)))%list
           /\ delivered w d (snd out)
  end.
Proof.
  intros Hcc Hcsv Hsc Hsheets out. subst out. unfold main.
  set (start := default 0 (prog w)).
  set (todo := Z.to_nat (Z.of_nat (List.length keywords) - start)).
  destruct (main_loop_delivery C E keywords input_urls Hcc Hcsv Hsc Hsheets
              todo start start {| all_res := []; batch_res := [] |} w w [])
    as (d & Hall & Hd); [reflexivity|split; [symmetry; apply app_nil_r|]|].
  { right. split; reflexivity. }
  destruct (main_loop C E keywords input_urls todo start start
              {| all_res := []; batch_res := [] |} w) as [[r l] w1].
  simpl in Hall, Hd.
  assert (Hclose : delivered w d (close_stores w1)).
  { eapply delivered_same_sinks; [exact Hd|]. split; reflexivity. }
  assert (Hfinal : fst (fst (final_flush E l (close_stores w1))) = Ret tt
                   /\ snd (fst (final_flush E l (close_stores w1))) = l
                   /\ delivered w (all_res l)
                        (snd (final_flush E l (close_stores w1)))).
  { unfold final_flush. rewrite Hall.
    destruct (batch_res l) as [|x rest] eqn:Hb.
    - rewrite app_nil_r. simpl. auto.
    - destruct (delivered_flush E Hcc Hcsv Hsc Hsheets w d (x :: rest) _ Hclose)
        as [Hret Hd2].
      destruct (flush E (x :: rest) (close_stores w1)) as [[u|e|] w3];
        simpl in Hret, Hd2; [|discriminate|discriminate].
      simpl. auto. }
  destruct Hfinal as (Hf1 & Hf2 & Hf3).
  destruct r as [u|e|]; simpl.
  - rewrite Hf1, Hf2. exact Hf3.
  - destruct e; simpl; try (exists d; split; [exact Hall|exact Hclose]).
    rewrite Hf1, Hf2. exact Hf3.
  - exists d. split; [exact Hall|exact Hclose].
Qed.

Lemma fetched_rows_are_delivered_once_witness :
  let out := main (sample_config 1) (sample_env one_page_api) ["kw"] []
               (fresh_world ["KEY-A"]) in
  fst (fst out) = Ret tt
  /\ List.length (all_res (snd (fst out))) = 1%nat
  /\ delivered (fresh_world ["KEY-A"]) (all_res (snd (fst out))) (snd out).
Proof.
  cbv zeta.
  assert (Hcc : forall n : nat,
               clean_write (csv_out (sample_env one_page_api) n))
    by (intros n; exact I).
  assert (Hc : forall n : nat, exists i : nat,
               (i < 3)%nat /\ csv_out (sample_env one_page_api) (n + i) = WriteOk)
    by (intros n; exists 0%nat; split; [lia|reflexivity]).
  assert (Hsc : forall n : nat,
               clean_append (sheets_out (sample_env one_page_api) n))
    by (intros n; left; reflexivity).
  assert (Hs : forall n : nat, exists i : nat,
               (i < 5)%nat
               /\ sheets_out (sample_env one_page_api) (n + i) = SheetsOk)
    by (intros n; exists 0%nat; split; [lia|reflexivity]).
  pose proof (fetched_rows_are_delivered_once (sample_config 1)
                (sample_env one_page_api) ["kw"] [] (fresh_world ["KEY-A"])
                Hcc Hc Hsc Hs) as H.
  cbv zeta in H.
  destruct (main (sample_config 1) (sample_env one_page_api) ["kw"] []
              (fresh_world ["KEY-A"])) as [[r l] w'] eqn:Hrun.
  pose proof (f_equal (fun x => fst (fst x)) Hrun) as Hr.
  pose proof (f_equal (fun x => List.length (all_res (snd (fst x)))) Hrun) as Hl.
  vm_compute in Hr. vm_compute in Hl.
  change (r = Ret tt /\ List.length (all_res l) = 1%nat
          /\ delivered (fresh_world ["KEY-A"]) (all_res l) w').
  change (match r with
          | Ret _ => delivered (fresh_world ["KEY-A"]) (all_res l) w'
          | _ => exists d, all_res l = (d ++ batch_res l)%list
                           /\ delivered (fresh_world ["KEY-A"]) d w'
          end) in H.
  subst r. split; [reflexivity|]. split; [symmetry; exact Hl|].
  exact H.
Defined.

(** Without the first of these assumptions a row can be delivered twice:
    an append that reached the sheet before it failed is repeated by the
    next attempt. *)
Example landed_failure_repeats_rows :
  let E := with_sinks (fun _ => WriteOk)
             (fun n => match n with O => SheetsCaught true | _ => SheetsOk end)
             (sample_env one_page_api) in
  let out := main (sample_config 1) E ["kw"] [] (fresh_world ["KEY-A"]) in
  fst (fst out) = Ret tt
  /\ List.length (all_res (snd (fst out))) = 1%nat
  /\ sheet (snd out)
     = (all_res (snd (fst out)) ++ all_res (snd (fst out)))%list.
Proof. vm_compute. repeat split. Qed.

(** ** Resuming after a completed run *)

(** X15.  When the loop of a run ends without an exception, the cursor is
    left at the number of keywords, and a later run over the same keywords
    finds nothing to do: it searches for no keyword, delivers nothing and
    only closes the two stores. *)
Theorem completed_run_is_not_repeated (C : config) (E : env)
    (keywords input_urls : list string) (w : world) (l : locals) (w1 : world) :
  let start := default 0 (prog w) in
  let todo := Z.to_nat (Z.of_nat (List.length keywords) - start) in
  main_loop C E keywords input_urls todo start start
    {| all_res := []; batch_res := [] |} w = (Ret tt, l, w1) ->
  let w' := snd (main C E keywords input_urls w) in
  (todo <> 0%nat -> prog w' = Some (Z.of_nat (List.length keywords)))
  /\ forall (C' : config) (E' : env) (input_urls' : list string),
       main C' E' keywords input_urls' w'
       = (Ret tt, {| all_res := []; batch_res := [] |}, close_stores w').
Proof.
  intros start todo Hloop w'.
  assert (Hprog : prog w' = prog w1).
  { destruct (main_quiet_end C E keywords input_urls w) as [Hq _].
    fold start in Hq. fold todo in Hq. rewrite Hloop in Hq. exact Hq. }
  apply main_loop_ret_prog in Hloop.
  assert (Hdone : Z.to_nat (Z.of_nat (List.length keywords)
                            - default 0 (prog w')) = 0%nat).
  { rewrite Hprog, Hloop. destruct todo as [|n] eqn:Htodo; [exact Htodo|].
    simpl default. lia. }
  split.
  - intros Hne. rewrite Hprog, Hloop. destruct todo as [|n] eqn:Htodo;
      [contradiction|]. f_equal. lia.
  - intros C' E' input_urls'. unfold main at 1. rewrite Hdone. reflexivity.
Qed.

Lemma completed_run_is_not_repeated_witness :
  let w := fresh_world ["KEY-A"] in
  let w' := snd (main (sample_config 1) (sample_env one_page_api) ["kw"] [] w) in
  prog w' = Some 1
  /\ main (sample_config 1) (sample_env one_page_api) ["kw"] [] w'
     = (Ret tt, {| all_res := []; batch_res := [] |}, close_stores w').
Proof.
  cbv zeta.
  destruct (main_loop (sample_config 1) (sample_env one_page_api) ["kw"] []
              (Z.to_nat (Z.of_nat (List.length ["kw"])
                         - default 0 (prog (fresh_world ["KEY-A"]))))
              (default 0 (prog (fresh_world ["KEY-A"])))
              (default 0 (prog (fresh_world ["KEY-A"])))
              {| all_res := []; batch_res := [] |} (fresh_world ["KEY-A"]))
    as [[r l] w1] eqn:Hloop.
  pose proof (f_equal (fun x => fst (fst x)) Hloop) as Hr.
  vm_compute in Hr. subst r.
  destruct (completed_run_is_not_repeated (sample_config 1)
              (sample_env one_page_api) ["kw"] [] (fresh_world ["KEY-A"])
              l w1 Hloop) as [Hp Hrun].
  split; [|apply Hrun].
  apply Hp. vm_compute. discriminate.
Defined.

(** ** The rows of a search *)

Lemma cached_execute_lookup E k fn units w :
  exists evs,
    trace (snd (cached_execute E k fn units w)) = (trace w ++ evs)%list
    /\ cache_lookups evs = [k].
Proof.
  unfold cached_execute. destruct (cache w !! k) as [r|]; simpl.
  { exists [EvCacheHit k]. split; reflexivity. }
  destruct (execute_loop_trace E fn units 3
              (execute_fuel 3 (emit (EvCacheMiss k) w)) 0
              (emit (EvCacheMiss k) w)) as (evs & Ht & Hevs).
  assert (Hl : exists evs0,
             trace (snd (execute E fn units 3 (emit (EvCacheMiss k) w)))
             = (trace w ++ evs0)%list /\ cache_lookups evs0 = [k]).
  { exists (EvCacheMiss k :: evs). split.
    - unfold execute. rewrite Ht. simpl. rewrite <- app_assoc. reflexivity.
    - change (cache_lookups (EvCacheMiss k :: evs)) with (k :: cache_lookups evs).
      rewrite (exec_trace_no_lookup _ _ _ _ Hevs). reflexivity. }
  destruct (execute E fn units 3 (emit (EvCacheMiss k) w)) as [[r|e|] w1];
    simpl in *; exact Hl.
Qed.

Lemma avatars_from_le E c c' t vr lookups amap :
  (forall k r, c !! k = Some r -> c' !! k = Some r) ->
  avatars_from E c t vr lookups amap -> avatars_from E c' t vr lookups amap.
Proof.
  intros Hle (ids & Hids & H). exists ids. split; [exact Hids|].
  destruct (set_order E t ids) as [|x cids]; [exact H|].
  destruct H as (ch & Hl & Hc & Hb). exists ch. auto.
Qed.

Lemma avatar_map_lookup E vr w amap wa :
  avatar_map E vr w = (Ret amap, wa) ->
  exists evs,
    trace wa = (trace w ++ evs)%list
    /\ avatars_from E (cache wa) (reads w) vr (cache_lookups evs) amap.
Proof.
  unfold avatar_map, bind, lift, ret, read_order, avatars_from.
  destruct (channel_id_seq (vr_items vr)) as [ids|e|]; [|discriminate|discriminate].
  destruct (set_order E (reads w) ids) as [|c cids] eqn:Hord.
  { intros [= <- <-]. exists []. simpl. rewrite app_nil_r.
    split; [reflexivity|]. exists ids. rewrite Hord. auto. }
  destruct (cached_execute_lookup E (channel_key (c :: cids))
              (ChannelsList "snippet" (join "," (c :: cids))) (UConst 1)
              (tick 1 w)) as (evs & Ht & Hl).
  destruct (cached_execute E (channel_key (c :: cids))
              (ChannelsList "snippet" (join "," (c :: cids))) (UConst 1) (tick 1 w))
    as [[r|e|] w1] eqn:Hc; [|discriminate|discriminate].
  destruct (as_channels r) as [ch|e|] eqn:Hch; [|discriminate|discriminate].
  intros [= Hb <-]. exists evs. split; [exact Ht|].
  exists ids. split; [reflexivity|]. rewrite Hord. exists ch.
  split; [exact Hl|]. split; [|exact Hb].
  rewrite (cached_execute_put E _ _ _ _ _ _ Hc).
  destruct r; try discriminate. injection Hch as ->. reflexivity.
Qed.

Lemma search_loop_pages C E fuel keyword input_url :
  forall rows token page w out w',
    search_loop C E fuel keyword input_url rows token page w = (Ret out, w') ->
    exists evs vrs new,
      trace w' = (trace w ++ evs)%list
      /\ out = (rows ++ new)%list
      /\ page_run C E (cache w') keyword input_url token page
           (List.length rows) (reads w) (cache_lookups evs) vrs new
      /\ ((Z.of_nat (List.length rows) <? NUM_RESULTS C) && (page <? MAX_PAGES C)
          = true ->
          exists rest,
            cache_lookups evs = search_key keyword (REGION C) token :: rest).
Proof.
  induction fuel as [|fuel IH]; intros rows token page w out w'; simpl.
  { destruct (_ && _) eqn:Hguard; [discriminate|]. intros [= <- <-].
    exists [], [], []. rewrite !app_nil_r.
    repeat split; [constructor; exact Hguard|discriminate]. }
  destruct (_ && _) eqn:Hguard.
  2:{ intros [= <- <-]. exists [], [], []. rewrite !app_nil_r.
      repeat split; [constructor; exact Hguard|discriminate]. }
  intros Hrun. unfold bind at 1 in Hrun.
  set (sk := search_key keyword (REGION C) token) in *.
  destruct (cached_execute_lookup E sk
              (SearchList keyword (REGION C)
                 (Z.min 50 (NUM_RESULTS C - Z.of_nat (List.length rows)))
                 (or_empty token)) (UConst 100) w) as (e1 & Ht1 & Hl1).
  pose proof (cached_execute_reads E sk
                (SearchList keyword (REGION C)
                   (Z.min 50 (NUM_RESULTS C - Z.of_nat (List.length rows)))
                   (or_empty token)) (UConst 100) w) as Hr1.
  destruct (cached_execute E sk _ (UConst 100) w)
    as [[r|?|] wa] eqn:Hc1; [|discriminate|discriminate].
  simpl in Ht1, Hr1.
  pose proof (cached_execute_put E _ _ _ _ _ _ Hc1) as Hput1.
  unfold bind at 1, lift at 1 in Hrun.
  destruct (as_search r) as [sr|?|] eqn:Hsr; [|discriminate|discriminate].
  assert (r = SearchResponse sr) as -> by (destruct r; try discriminate;
                                           injection Hsr as ->; reflexivity).
  destruct (video_ids sr) as [|v vids] eqn:Hids.
  { injection Hrun as <- <-. exists e1, [], []. rewrite app_nil_r, Hl1.
    split; [exact Ht1|]. split; [reflexivity|].
    split; [apply (pr_empty _ _ _ _ _ _ _ _ _ sr); assumption|].
    intros _. exists []. reflexivity. }
  unfold bind at 1 in Hrun.
  destruct (cached_execute_lookup E (video_key (v :: vids))
              (VideosList (join "," (v :: vids)) VIDEO_PARTS)
              (UFun items_count) wa) as (e2 & Ht2 & Hl2).
  pose proof (cached_execute_reads E (video_key (v :: vids))
                (VideosList (join "," (v :: vids)) VIDEO_PARTS)
                (UFun items_count) wa) as Hr2.
  pose proof (cached_execute_cache_le E (video_key (v :: vids))
                (VideosList (join "," (v :: vids)) VIDEO_PARTS)
                (UFun items_count) wa) as Hm2.
  destruct (cached_execute E (video_key (v :: vids))
              (VideosList (join "," (v :: vids)) VIDEO_PARTS)
              (UFun items_count) wa)
    as [[r2|?|] wb] eqn:Hc2; [|discriminate|discriminate].
  simpl in Ht2, Hr2, Hm2.
  pose proof (cached_execute_put E _ _ _ _ _ _ Hc2) as Hput2.
  unfold bind at 1, lift at 1 in Hrun.
  destruct (as_videos r2) as [vr|?|] eqn:Hvr; [|discriminate|discriminate].
  assert (r2 = VideosResponse vr) as -> by (destruct r2; try discriminate;
                                            injection Hvr as ->; reflexivity).
  unfold bind at 1 in Hrun.
  pose proof (avatar_map_cache_le E vr wb) as Hm3.
  destruct (avatar_map E vr wb) as [[amap|?|] wc] eqn:Hav;
    [|discriminate|discriminate].
  simpl in Hm3.
  destruct (avatar_map_lookup E vr wb amap wc Hav) as (e3 & Ht3 & Hav3).
  pose proof (avatar_map_reads E vr wb amap wc Hav) as Hr3.
  unfold bind at 1, build_rows at 1 in Hrun.
  destruct (add_rows E (reads wc) keyword input_url amap (vr_items vr) rows)
    as [rows'|?|] eqn:Hadd; [|discriminate|discriminate].
  apply add_rows_spec in Hadd as (new1 & -> & Hall).
  set (wd := tick (List.length (vr_items vr)) wc) in Hrun.
  pose proof (search_loop_cache_le C E fuel keyword input_url (rows ++ new1)%list
                (truthy_opt (sr_nextPageToken sr)) (page + 1) wd) as Hm4.
  rewrite Hrun in Hm4. simpl in Hm4.
  destruct (IH _ _ _ _ _ _ Hrun) as (e4 & vrs & new4 & Ht4 & -> & Hpages & _).
  exists (e1 ++ e2 ++ e3 ++ e4)%list, (vr :: vrs), (new1 ++ new4)%list.
  split.
  { rewrite Ht4. subst wd. simpl. rewrite Ht3, Ht2, Ht1, <- !app_assoc.
    reflexivity. }
  split; [rewrite app_assoc; reflexivity|].
  rewrite !cache_lookups_app, Hl1, Hl2. simpl.
  split; [|intros _; eexists; reflexivity].
  rewrite <- Hids. apply (pr_page C E (cache w') keyword input_url token page
                            (List.length rows) (reads w) sr vr
                            (cache_lookups e3) amap).
  - exact Hguard.
  - apply Hm4, Hm3, Hm2. exact Hput1.
  - rewrite Hids. discriminate.
  - rewrite Hids. apply Hm4, Hm3. exact Hput2.
  - eapply avatars_from_le; [|rewrite <- Hr1, <- Hr2; exact Hav3].
    intros k r Hk. apply Hm4. exact Hk.
  - rewrite <- Hr1, <- Hr2, <- Hr3. exact Hall.
  - replace (S (reads w) + List.length (vr_items vr))%nat with (reads wd)
      by (subst wd; simpl; lia).
    rewrite <- length_app. exact Hpages.
Qed.

Lemma kept_timed E keyword input_url amap items :
  forall t new,
    Forall2 (fun p r => make_row E (fst p) keyword input_url amap (snd p) = Ret r)
      (filter (fun p => is_live_or_upcoming (snippet_of (snd p)) = false)
         (timed t items))
      new ->
    Forall2 (fun it r => exists t' amap',
               make_row E t' keyword input_url amap' it = Ret r)
      (filter (fun it => is_live_or_upcoming (snippet_of it) = false) items)
      new.
Proof.
  induction items as [|it items IH]; intros t new; simpl.
  { intros H. inversion H. constructor. }
  rewrite !filter_cons. simpl.
  destruct (is_live_or_upcoming (snippet_of it)) eqn:Hlive.
  - destruct (decide (true = false)); [discriminate|]. apply IH.
  - destruct (decide (false = false)); [|contradiction].
    intros H. inversion H as [|p r ps rs Hrow Hrest]; subst.
    constructor; [eauto|]. eapply IH. exact Hrest.
Qed.

Lemma kept_items_cons vr vrs :
  kept_items (vr :: vrs)
  = (filter (fun it => is_live_or_upcoming (snippet_of it) = false) (vr_items vr)
     ++ kept_items vrs)%list.
Proof. unfold kept_items. simpl. apply filter_app. Qed.

(** The rows of a search are those of the kept items of its pages, one
    each, in order. *)
Lemma page_run_rows C E c keyword input_url token page n t lookups vrs out :
  page_run C E c keyword input_url token page n t lookups vrs out ->
  Forall2 (fun it r => exists t' amap',
             make_row E t' keyword input_url amap' it = Ret r)
    (kept_items vrs) out.
Proof.
  induction 1 as [| |token page n t sr vr cks amap new ks vrs rest
                      H0 H1 H2 H3 H4 H5 H6 IH];
    try constructor.
  rewrite kept_items_cons.
  apply Forall2_app; [|exact IH]. eapply kept_timed. exact H5.
Qed.

Lemma make_row_columns E t keyword input_url amap it r :
  make_row E t keyword input_url amap it = Ret r ->
  row_of_item keyword input_url it r.
Proof.
  unfold make_row.
  destruct (iso2hms E (default EmptyString (vi_duration it)))
    as [[dur_str dur_s]|?|] eqn:Hiso; [|discriminate|discriminate].
  pose proof (language_of_spec E t (snippet_of it)) as [Hne _].
  destruct (language_of E t (snippet_of it)) as [ls lang].
  destruct (fmt_age E t _) as [age|?|]; [|discriminate|discriminate].
  intros [= <-]. unfold row_of_item. simpl in *.
  repeat split; auto.
  intros Hnone. rewrite Hnone in Hiso. vm_compute in Hiso. congruence.
Qed.

(** C9.  An item tagged [live] or [upcoming], and no other, is skipped:
    by the row loop, whose rows for a page are exactly the rows of the
    items that are not so tagged (in particular of those tagged [none] or
    carrying no tag), one each, in order; and so by [search_once], which
    always returns or raises, and whose output is, page after page as it
    fetched them (the first one whenever the limits allow a page), the
    rows of the items of the page that are not so tagged, one each, in
    order. *)
Theorem live_and_upcoming_are_skipped (C : config) (E : env)
    (keyword input_url : string) :
  (forall sn, is_live_or_upcoming sn = true
              <-> sn_liveBroadcastContent sn = Some "live"
                  \/ sn_liveBroadcastContent sn = Some "upcoming")
  /\ (forall sn, sn_liveBroadcastContent sn = None
                 \/ sn_liveBroadcastContent sn = Some "none" ->
                 is_live_or_upcoming sn = false)
  /\ (forall t amap items rows rows',
        add_rows E t keyword input_url amap items rows = Ret rows' ->
        exists new,
          rows' = (rows ++ new)%list
          /\ Forall2 (fun p r => make_row E (fst p) keyword input_url amap (snd p)
                                 = Ret r)
               (filter (fun p => is_live_or_upcoming (snippet_of (snd p)) = false)
                  (timed t items))
               new)
  /\ (forall w out w',
        search_once C E keyword input_url w = (Ret out, w') ->
        exists evs vrs,
          trace w' = (trace w ++ evs)%list
          /\ page_run C E (cache w') keyword input_url None 0 0 (reads w)
               (cache_lookups evs) vrs out
          /\ Forall2 (fun it r => r_videoId r = vi_id it) (kept_items vrs) out
          /\ (0 < NUM_RESULTS C -> 0 < MAX_PAGES C ->
              exists rest,
                cache_lookups evs = search_key keyword (REGION C) None :: rest))
  /\ (forall w, fst (search_once C E keyword input_url w) <> Timeout).
Proof.
  split; [apply is_live_or_upcoming_iff|].
  split; [intros sn [H|H]; unfold is_live_or_upcoming; rewrite H; reflexivity|].
  split; [intros t amap items rows rows'; apply add_rows_spec|].
  split; [|intros w; apply search_once_total].
  intros w out w' Hrun. unfold search_once in Hrun.
  destruct (search_loop_pages C E _ keyword input_url _ _ _ _ _ _ Hrun)
    as (evs & vrs & new & Ht & Hout & Hpages & Hfirst).
  simpl in Hout. subst new. exists evs, vrs.
  split; [exact Ht|]. split; [exact Hpages|]. split.
  - eapply Forall2_impl; [exact (page_run_rows _ _ _ _ _ _ _ _ _ _ _ _ Hpages)|].
    intros it r (t' & amap' & Hrow).
    apply make_row_columns in Hrow. apply Hrow.
  - intros Hn Hp. apply Hfirst. apply andb_true_iff. split; apply Z.ltb_lt.
    + simpl. exact Hn.
    + exact Hp.
Qed.

Lemma live_and_upcoming_are_skipped_witness :
  let C := sample_config 1 in
  let E := sample_env mixed_page_api in
  let w := fresh_world ["KEY-A"] in
  exists out w' vrs,
    search_once C E "kw" "" w = (Ret out, w')
    /\ map vi_id (concat (map vr_items vrs)) = ["v1"; "v2"; "v3"; "v4"]
    /\ map vi_id (kept_items vrs) = ["v2"; "v4"]
    /\ map r_videoId out = ["v2"; "v4"].
Proof.
  cbv zeta.
  destruct (search_once (sample_config 1) (sample_env mixed_page_api) "kw" ""
              (fresh_world ["KEY-A"])) as [res w'] eqn:Hrun.
  assert (Hres : exists out, res = Ret out /\ map r_videoId out = ["v2"; "v4"]).
  { apply (f_equal fst) in Hrun. simpl in Hrun. rewrite <- Hrun.
    vm_compute. eexists. split; reflexivity. }
  destruct Hres as (out & -> & Hids).
  assert (Hcache : cache w' !! "V:v1,v2,v3,v4"
                   = Some (VideosResponse
                             {| vr_items :=
                                  [sample_video "v1" (Some "live") (Some "PT45S");
                                   sample_video "v2" (Some "none") (Some "PT1M5S");
                                   sample_video "v3" (Some "upcoming") None;
                                   sample_video "v4" None (Some "PT45S")] |})).
  { apply (f_equal (fun x => cache (snd x) !! "V:v1,v2,v3,v4")) in Hrun.
    simpl in Hrun. rewrite <- Hrun. vm_compute. reflexivity. }
  assert (Hsearch : cache w' !! "S:kw:US:"
                    = Some (SearchResponse
                              {| sr_items := [ {| si_videoId := Some "v1" |};
                                               {| si_videoId := Some "v2" |};
                                               {| si_videoId := Some "v3" |};
                                               {| si_videoId := Some "v4" |} ];
                                 sr_nextPageToken := None |})).
  { apply (f_equal (fun x => cache (snd x) !! "S:kw:US:")) in Hrun.
    simpl in Hrun. rewrite <- Hrun. vm_compute. reflexivity. }
  destruct (proj1 (proj2 (proj2 (proj2 (live_and_upcoming_are_skipped
              (sample_config 1) (sample_env mixed_page_api) "kw" ""))))
              _ _ _ Hrun) as (evs & vrs & _ & Hpages & Hkept & _).
  exists out, w', vrs. split; [reflexivity|].
  assert (Hvrs : map vi_id (concat (map vr_items vrs)) = ["v1"; "v2"; "v3"; "v4"]
                 /\ map vi_id (kept_items vrs) = ["v2"; "v4"]).
  { assert (Hlen : List.length (kept_items vrs) = 2%nat)
      by (rewrite (Forall2_length _ _ _ Hkept), <- (length_map r_videoId), Hids;
          reflexivity).
    inversion Hpages as [| |token page n t sr vr cks amap new ks vrs' rest
                            H0 H1 H2 H3 H4 H5 H6]; subst.
    - discriminate Hlen.
    - discriminate Hlen.
    - change (search_key "kw" (REGION (sample_config 1)) None)
        with "S:kw:US:" in H1.
      rewrite Hsearch in H1. injection H1 as <-.
      change (video_key _) with "V:v1,v2,v3,v4" in H3.
      rewrite Hcache in H3. injection H3 as <-.
      inversion H6 as [|token' page' n' t' sr' G0
                       |token' page' n' t' sr' vr' cks' amap' new' ks' vrs'' rest'
                          G0]; subst.
      + split; reflexivity.
      + split; reflexivity.
      + exfalso. apply andb_true_iff in G0 as [_ G0]. vm_compute in G0.
        discriminate G0. }
  destruct Hvrs as [Hall Hk]. split; [exact Hall|]. split; [exact Hk|exact Hids].
Defined.

(** X16.  The rows [search_once] returns are the rows of the items of
    the pages it fetched that are not live or upcoming, one each, in
    order, and every row carries the id and the title of its item, the
    keyword and the input URL of the call, the bucket [short] exactly when
    its duration column is below 60 seconds and [video] otherwise (0
    seconds when the item has no duration), a non-empty language, the
    embeddable flag and the license of the item, and the mark allowed on
    third-party sites exactly when that flag is true and that license is
    [creativeCommon]. *)
Theorem returned_rows_are_consistent (C : config) (E : env)
    (keyword input_url : string) (w : world) (out : list row) (w' : world) :
  search_once C E keyword input_url w = (Ret out, w') ->
  exists evs vrs,
    trace w' = (trace w ++ evs)%list
    /\ page_run C E (cache w') keyword input_url None 0 0 (reads w)
         (cache_lookups evs) vrs out
    /\ Forall2 (row_of_item keyword input_url) (kept_items vrs) out.
Proof.
  intros Hrun. unfold search_once in Hrun.
  destruct (search_loop_pages C E _ keyword input_url _ _ _ _ _ _ Hrun)
    as (evs & vrs & new & Ht & Hout & Hpages & _).
  simpl in Hout. subst new. exists evs, vrs.
  split; [exact Ht|]. split; [exact Hpages|].
  eapply Forall2_impl; [exact (page_run_rows _ _ _ _ _ _ _ _ _ _ _ _ Hpages)|].
  intros it r (t' & amap' & Hrow). eapply make_row_columns. exact Hrow.
Qed.

Lemma returned_rows_are_consistent_witness :
  let run := search_once (sample_config 1) (sample_env mixed_page_api) "kw" "url"
               (fresh_world ["KEY-A"]) in
  exists out vrs,
    fst run = Ret out
    /\ List.length out = 2%nat
    /\ Forall2 (row_of_item "kw" "url") (kept_items vrs) out
    /\ Forall (fun r => r_keyword r = "kw" /\ r_language r = "en"
                        /\ r_allowed_on_third_party r = true) out
    /\ map r_video_type out = ["video"; "short"].
Proof.
  cbv zeta.
  destruct (search_once (sample_config 1) (sample_env mixed_page_api) "kw" "url"
              (fresh_world ["KEY-A"])) as [res w1] eqn:Hrun.
  assert (Hres : exists out,
             res = Ret out /\ List.length out = 2%nat
             /\ forallb (fun r => String.eqb (r_keyword r) "kw"
                                  && String.eqb (r_language r) "en"
                                  && r_allowed_on_third_party r) out = true
             /\ map r_video_type out = ["video"; "short"]).
  { apply (f_equal fst) in Hrun. simpl in Hrun. rewrite <- Hrun.
    vm_compute. eexists. repeat split. }
  destruct Hres as (out & -> & Hlen & Hcols & Htypes).
  destruct (returned_rows_are_consistent _ _ _ _ _ _ _ Hrun)
    as (evs & vrs & _ & _ & Hrows).
  exists out, vrs. split; [reflexivity|]. split; [exact Hlen|].
  split; [exact Hrows|]. split; [|exact Htypes].
  apply Forall_forall. intros r Hr.
  rewrite forallb_forall in Hcols. apply list_elem_of_In in Hr.
  specialize (Hcols r Hr).
  apply andb_true_iff in Hcols as [Hcols Hallowed].
  apply andb_true_iff in Hcols as [Hk Hl].
  apply String.eqb_eq in Hk, Hl. auto.
Defined.

(** ** An exhausted pool *)

Lemma get_key_exhausted m :
  km_ok m \/ keys m = [] ->
  (forall a, a ∈ keys m -> active a = false) ->
  get_key m = (Raise QuotaExceededAllKeys, m).
Proof.
  intros Hok Hall. unfold get_key. destruct m as [ks idx]; simpl in *.
  destruct Hok as [Hok| ->]; [|reflexivity].
  unfold km_ok in Hok; simpl in Hok.
  pose proof (get_key_scan_spec ks (List.length ks) idx Hok) as Hs.
  destruct (get_key_scan ks (List.length ks) idx) as [[pos|e|] idx'];
    [|destruct Hs as (-> & _ & ->)|contradiction].
  - destruct Hs as (j & _ & _ & _ & (a & Ha & Hact) & _).
    rewrite (Hall a) in Hact; [discriminate|].
    apply list_elem_of_lookup. exists pos. exact Ha.
  - f_equal. f_equal.
    replace (idx + List.length ks)%nat with (idx + 1 * List.length ks)%nat by lia.
    rewrite Nat.Div0.mod_add. apply Nat.mod_small. exact Hok.
Qed.

(** X17.  With every credential inactive, and so with an empty pool,
    [execute] raises [QuotaExceededAllKeys] at once: it sends nothing,
    sleeps for nothing and leaves the pool, the call count and the cache
    as they are.  As nothing re-activates a credential, this is what every
    later call of the run does. *)
Theorem exhausted_pool_sends_nothing (E : env) (fn : request)
    (units : units_spec) (backoff_max : Z) (w : world) :
  km_ok (km w) \/ keys (km w) = [] ->
  all_inactive w ->
  execute E fn units backoff_max w = (Raise QuotaExceededAllKeys, w).
Proof.
  intros Hok Hall. unfold execute, execute_fuel. simpl.
  rewrite (get_key_exhausted (km w) Hok Hall).
  destruct w as [m c p f s n ct st t]. destruct m. reflexivity.
Qed.

Lemma exhausted_pool_sends_nothing_witness :
  let w := with_km (deactivate 0) (fresh_world ["KEY-A"]) in
  execute (sample_env one_page_api) sample_request (UConst 1) 3 w
  = (Raise QuotaExceededAllKeys, w).
Proof.
  apply exhausted_pool_sends_nothing.
  - left. unfold km_ok. simpl. lia.
  - intros a Ha. simpl in Ha. apply list_elem_of_In in Ha. simpl in Ha.
    destruct Ha as [<-|[]]. reflexivity.
Defined.

(** ** The requests of a search *)

Lemma issued_refl P w : issued P w w.
Proof. exists []. rewrite app_nil_r. split; [reflexivity|constructor]. Qed.

Lemma issued_trans P a b c : issued P a b -> issued P b c -> issued P a c.
Proof.
  intros (e1 & Ht1 & H1) (e2 & Ht2 & H2). exists (e1 ++ e2)%list.
  split; [rewrite Ht2, Ht1, app_assoc; reflexivity|].
  rewrite omap_app. apply Forall_app. auto.
Qed.

Lemma exec_trace_calls fn backoff_max attempt evs :
  exec_trace fn backoff_max attempt evs ->
  Forall (fun f => f = fn) (omap call_of evs).
Proof. induction 1; simpl; repeat constructor; auto. Qed.

Lemma cached_execute_issued E (P : request -> Prop) k fn units w :
  P fn -> issued P w (snd (cached_execute E k fn units w)).
Proof.
  intros HP. unfold cached_execute. destruct (cache w !! k) as [r|]; simpl.
  { exists [EvCacheHit k]. split; [reflexivity|constructor]. }
  destruct (execute_loop_trace E fn units 3
              (execute_fuel 3 (emit (EvCacheMiss k) w)) 0
              (emit (EvCacheMiss k) w)) as (evs & Ht & Hevs).
  assert (Hl : issued P w (snd (execute E fn units 3 (emit (EvCacheMiss k) w)))).
  { exists (EvCacheMiss k :: evs). split.
    - unfold execute. rewrite Ht. simpl. rewrite <- app_assoc. reflexivity.
    - change (omap call_of (EvCacheMiss k :: evs)) with (omap call_of evs).
      eapply Forall_impl; [exact (exec_trace_calls _ _ _ _ Hevs)|].
      intros f ->. exact HP. }
  destruct (execute E fn units 3 (emit (EvCacheMiss k) w)) as [[r|e|] w1];
    simpl in *; exact Hl.
Qed.

Lemma avatar_map_issued C E vr w :
  issued (well_formed_request C) w (snd (avatar_map E vr w)).
Proof.
  unfold avatar_map, bind, lift, ret, read_order.
  destruct (channel_id_seq (vr_items vr)) as [ids|e|]; simpl;
    try apply issued_refl.
  destruct (set_order E (reads w) ids) as [|c cids]; simpl;
    [exact (issued_refl _ w)|].
  pose proof (cached_execute_issued E (well_formed_request C)
                (channel_key (c :: cids))
                (ChannelsList "snippet" (join "," (c :: cids))) (UConst 1) (tick 1 w)
                eq_refl) as Hc.
  destruct (cached_execute E _ _ _ (tick 1 w)) as [[r|e|] w1]; simpl in *;
    try exact Hc.
  destruct (as_channels r) as [ch|e|]; simpl; exact Hc.
Qed.

Lemma video_ids_nonempty sr v :
  v ∈ video_ids sr -> v <> EmptyString.
Proof.
  unfold video_ids. intros Hv. apply list_elem_of_omap in Hv as (it & _ & Hit).
  apply truthy_opt_some in Hit as [_ Hne]. exact Hne.
Qed.

Lemma join_nonempty sep v vs :
  v <> EmptyString -> join sep (v :: vs) <> EmptyString.
Proof.
  intros Hv. destruct v as [|c v]; [contradiction|].
  destruct vs; simpl; discriminate.
Qed.

Lemma search_loop_issued C E fuel keyword input_url rows token page w res w' :
  search_loop C E fuel keyword input_url rows token page w = (res, w') ->
  issued (well_formed_request C) w w'.
Proof.
  revert rows token page w.
  induction fuel as [|fuel IH]; intros rows token page w; simpl.
  { destruct (_ && _); intros [= _ <-]; apply issued_refl. }
  destruct (_ && _) eqn:Hguard; [|intros [= _ <-]; apply issued_refl].
  apply andb_true_iff in Hguard as [Hlen _]. apply Z.ltb_lt in Hlen.
  unfold bind at 1.
  assert (Hreq : well_formed_request C
                   (SearchList keyword (REGION C)
                      (Z.min 50 (NUM_RESULTS C - Z.of_nat (List.length rows)))
                      (or_empty token))).
  { simpl. split; [reflexivity|]. lia. }
  pose proof (cached_execute_issued E (well_formed_request C)
                (search_key keyword (REGION C) token) _ (UConst 100) w Hreq)
    as H1.
  destruct (cached_execute E _ _ _ w) as [[r|?|] w1]; simpl in H1;
    try (intros [= _ <-]; exact H1).
  unfold bind at 1, lift at 1.
  destruct (as_search r) as [sr|?|]; try (intros [= _ <-]; exact H1).
  destruct (video_ids sr) as [|v vids] eqn:Hvids; [intros [= _ <-]; exact H1|].
  unfold bind at 1.
  assert (Hreq2 : well_formed_request C
                    (VideosList (join "," (v :: vids)) VIDEO_PARTS)).
  { split; [|reflexivity]. apply join_nonempty.
    apply (video_ids_nonempty sr). rewrite Hvids. left. }
  pose proof (cached_execute_issued E (well_formed_request C)
                (video_key (v :: vids)) _ (UFun items_count) w1 Hreq2) as H2.
  pose proof (issued_trans _ _ _ _ H1 H2) as H12.
  destruct (cached_execute E _ _ _ w1) as [[r2|?|] w2]; simpl in H2, H12;
    try (intros [= _ <-]; exact H12).
  unfold bind at 1, lift at 1.
  destruct (as_videos r2) as [vr|?|]; try (intros [= _ <-]; exact H12).
  unfold bind at 1.
  pose proof (avatar_map_issued C E vr w2) as H3.
  pose proof (issued_trans _ _ _ _ H12 H3) as H123.
  destruct (avatar_map E vr w2) as [[amap|?|] w3]; simpl in H3, H123;
    try (intros [= _ <-]; exact H123).
  unfold bind at 1, build_rows at 1.
  destruct (add_rows E (reads w3) keyword input_url amap (vr_items vr) rows)
    as [rows'|?|]; try (intros [= _ <-]; exact H123).
  intros Hrec. apply IH in Hrec. eapply issued_trans; [exact H123|exact Hrec].
Qed.

(** X18.  Every request [search_once] sends is one the API accepts as to
    its size: a [search.list] request asks for the configured region and
    for at least 1 and at most 50 results, never more than [NUM_RESULTS];
    a [videos.list] request names at least one video and asks for the
    five parts; a [channels.list] request asks for the snippet part. *)
Theorem requests_are_well_formed (C : config) (E : env)
    (keyword input_url : string) (w : world) :
  issued (well_formed_request C) w (snd (search_once C E keyword input_url w)).
Proof.
  unfold search_once.
  destruct (search_loop C E (Z.to_nat (MAX_PAGES C)) keyword input_url [] None 0 w)
    as [res w'] eqn:Hrun.
  simpl. eapply search_loop_issued. exact Hrun.
Qed.
